(** * PanoptoConverter: frame provider, projection math and export naming

    A shallow embedding of the parts of the repository that carry the
    behaviour described by the specification:

    - [InsvFrameProvider] (providers.ts): the ffmpeg.wasm backed provider
      with its busy flag, its single-slot cache and its crash recovery;
    - [bilinearSample] and [rotateVec] (App.svelte, preview path);
    - the timestamp enumeration and the file naming of [extractFrames]
      (App.svelte, export path).

    Conventions of the embedding.

    - A JavaScript [number] that holds a time, a ratio or a sampling
      coordinate is the rational ([Q]) it denotes.  The sums and quotients
      of the export loop and of the output size are rounded to binary64 as
      JavaScript rounds them ([Js.binary64], [Js.fadd], [Js.fdiv]);
      comparisons, [Math.min], [Math.max], [Math.floor] and [Math.round] are
      exact on such numbers.  The sampling and fitting arithmetic of the
      previews is kept exact.  Numbers that only ever hold integers in the
      program (slider angles with [step="1"], pixel sizes, camera ids, byte
      samples) are [Z].  The trigonometry of [rotateVec] is stated over the
      real numbers.
    - A JavaScript string is a [string]; a thrown value is a [JsError]
      carrying the optional [message] the code inspects.
    - An [async] method is a resumption: a tree whose [Await] nodes are the
      suspension points.  The provider object is shared and mutable, so every
      suspension exposes the current provider and every resumption receives
      the provider as the rest of the program left it.
    - [console.log] and friends have no effect on the modelled state and are
      dropped. *)

From Stdlib Require Import ZArith QArith Qround Qminmax Qabs Qpower Qreduction.
From Stdlib Require Import Lia List Bool.
From Stdlib Require PrimFloat FloatOps SpecFloat.
From Stdlib Require Import Ascii String DecimalString DecimalZ DecimalN DecimalPos.
From Stdlib Require Import Reals Lqa Lra.
Import ListNotations.

Open Scope string_scope.

(** ** JavaScript primitives *)

Module Js.

(** [String(n)] for a number holding an integer. *)
Definition string_of_Z (z : Z) : string :=
  NilZero.string_of_int (Z.to_int z).

(** [s || d] on strings: the empty string is falsy. *)
Definition or_else (s d : string) : string :=
  match s with
  | EmptyString => d
  | _ => s
  end.

(** [!s] for [s : string | null]. *)
Definition falsy (s : option string) : bool :=
  match s with
  | None => true
  | Some EmptyString => true
  | Some _ => false
  end.

(** [s.includes(sub)]. *)
Definition includes (s sub : string) : bool :=
  match index 0 sub s with
  | Some _ => true
  | None => false
  end.

(** [s.startsWith(p)]. *)
Definition startsWith (s p : string) : bool := prefix p s.

Fixpoint zeros (k : nat) : string :=
  match k with
  | O => EmptyString
  | S k' => String "0" (zeros k')
  end.

(** Decimal digits of a non-negative integer, ["0"] for zero. *)
Definition digits (n : Z) : string :=
  NilZero.string_of_uint (N.to_uint (Z.to_N n)).

(** The integer [n] for which [n / 10^f - x] is closest to zero, the larger
    one on a tie (step 10.a of Number.prototype.toFixed), for [0 <= x]. *)
Definition scaled (f : nat) (x : Q) : Z :=
  Qfloor (x * inject_Z (10 ^ Z.of_nat f) + (1 # 2)).

(** Steps 10.b-10.d of Number.prototype.toFixed: left-pad to [f + 1]
    digits and put the point before the last [f] digits. *)
Definition place_point (f : nat) (m : string) : string :=
  if Nat.eqb f 0 then m
  else
    let k := String.length m in
    let m' := if Nat.leb k f then zeros (f + 1 - k) ++ m else m in
    let k' := String.length m' in
    substring 0 (k' - f) m' ++ "." ++ substring (k' - f) f m'.

(** [x.toFixed(f)] for a finite [x] below 10^21 in magnitude (beyond that
    JavaScript switches to exponent notation; media times are far below). *)
Definition toFixed (f : nat) (x : Q) : string :=
  if Qlt_le_dec x 0
  then "-" ++ place_point f (digits (scaled f (- x)))
  else place_point f (digits (scaled f x)).

(** [s.replace(/\./g, '_')]. *)
Fixpoint replace_dots (s : string) : string :=
  match s with
  | EmptyString => EmptyString
  | String c s' =>
      String (if Ascii.eqb c "." then "_"%char else c) (replace_dots s')
  end.

(** The character class [[a-z0-9-_]] under the [i] flag.  Without the [u]
    flag case folding never maps a non-ASCII code unit onto an ASCII one,
    so the class is exactly the ASCII letters, the digits, [-] and [_]. *)
Definition word_char (c : ascii) : bool :=
  let n := nat_of_ascii c in
  ((97 <=? n) && (n <=? 122) || (65 <=? n) && (n <=? 90)
   || (48 <=? n) && (n <=? 57) || (n =? 45) || (n =? 95))%nat.

(** [s.replace(/[^a-z0-9-_]+/gi, '_')]: every maximal run of characters
    outside the class becomes one underscore.  [in_run] tells that the
    previous character already belonged to the run being replaced. *)
Fixpoint replace_runs (in_run : bool) (s : string) : string :=
  match s with
  | EmptyString => EmptyString
  | String c s' =>
      if word_char c then String c (replace_runs false s')
      else if in_run then replace_runs true s'
           else String "_" (replace_runs true s')
  end.

(** The left padding of [place_point] on its own. *)
Definition padded (f : nat) (m : string) : string :=
  if Nat.leb (String.length m) f then zeros (f + 1 - String.length m) ++ m else m.

(** The number a string of decimal digits denotes. *)
Definition denoted (s : string) : option N :=
  option_map N.of_uint (NilEmpty.uint_of_string s).

(** Every character of [s] satisfies [f]. *)
Fixpoint all_chars (f : ascii -> bool) (s : string) : bool :=
  match s with
  | EmptyString => true
  | String c s' => f c && all_chars f s'
  end.

(** [s] is empty or begins with a character of the class. *)
Definition run_ends_before (s : string) : bool :=
  match s with
  | EmptyString => true
  | String c _ => word_char c
  end.

(** *** Binary64 arithmetic

    A finite JavaScript number is a rational [m * 2 ^ e] with an integer [m]
    of at most 53 bits and [-1074 <= e <= 971].  [+], [/] and the reading of a
    literal give the number of this form nearest to the exact result, the
    one with the even [m] on a tie (IEEE 754 roundTiesToEven). *)

(** [floor(log2 x)] for a positive [x]. *)
Definition ilog2 (x : Q) : Z :=
  let k := (Z.log2 (Qnum x) - Z.log2 (Zpos (Qden x)))%Z in
  if Qle_bool (2 ^ k) x then k else (k - 1)%Z.

(** The integer nearest to [y], the even one of the two on a tie. *)
Definition nearest_even (y : Q) : Z :=
  let f := Qfloor y in
  match Qcompare (y - inject_Z f) (1 # 2) with
  | Lt => f
  | Gt => (f + 1)%Z
  | Eq => if Z.even f then f else (f + 1)%Z
  end.

(** The binary exponent a non-zero [x] is rounded at: that of [x], or
    -1022 in the subnormal range below [2 ^ -1022]. *)
Definition exponent (x : Q) : Z := Z.max (ilog2 (Qabs x)) (-1022).

(** The binary64 number nearest to [x], in lowest terms; the spacing of
    the binary64 numbers around [x] is [2 ^ (exponent x - 52)].  Results of
    magnitude [2 ^ 1024] and above stand for [Infinity], which no operation
    of the modelled code produces from finite arguments in the ranges the
    theorems consider. *)
Definition binary64 (x : Q) : Q :=
  if Qeq_bool x 0 then 0
  else
    let ulp := 2 ^ (exponent x - 52) in
    Qred (inject_Z (nearest_even (x / ulp)) * ulp).

(** [x + y] and [x / y] on numbers, for a non-zero [y]. *)
Definition fadd (x y : Q) : Q := binary64 (x + y).
Definition fdiv (x y : Q) : Q := binary64 (x / y).

(** The rational a hardware binary64 value denotes, [None] for infinities
    and NaN. *)
Definition Q_of_float (f : PrimFloat.float) : option Q :=
  match FloatOps.Prim2SF f with
  | SpecFloat.S754_zero _ => Some 0
  | SpecFloat.S754_finite s m e =>
      Some (Qred ((if s then -1 else 1) * inject_Z (Zpos m) * 2 ^ e))
  | _ => None
  end.

(** The hardware binary64 value [m * 2 ^ e], for [m] below [2 ^ 53]. *)
Definition float_of (m : positive) (e : Z) : PrimFloat.float :=
  FloatOps.SF2Prim (SpecFloat.S754_finite false m e).

End Js.

(** ** Shared types (types.ts) *)

Module Types.

Record Angle := mkAngle { pitch : Z; yaw : Z; roll : Z }.

Record VirtualCamera := mkCamera {
  id : Z;
  label : string;
  previewDataUrl : string;
  time : Q;
  angle : Angle
}.

End Types.

(** ** The frame provider (providers.ts) *)

Module Provider.
Import Types.

(** A thrown value, as far as the code looks at it: [e?.message]. *)
Record JsError := mkError { message : option string }.

(** [new Error(msg)] *)
Definition Error (msg : string) : JsError := mkError (Some msg).

(** What the engine throws when a method is called on [null]. *)
Definition TypeError : JsError :=
  Error "Cannot read properties of null".

(** How an awaited promise settles, or how a call completes. *)
Inductive Outcome (A : Type) : Type :=
| Resolved (a : A)
| Rejected (e : JsError).
Arguments Resolved {A} a.
Arguments Rejected {A} e.

Record ProcessedFrame := mkFrame {
  tsSec : Q;
  dataUrl : string;
  width : Z;
  height : Z
}.

(** Identity of an [FFmpeg] object. *)
Definition FFmpeg := nat.
Definition Bytes := list Byte.byte.
(** Identity of a decoded [ImageBitmap]. *)
Definition ImageBitmap := nat.

Inductive Source :=
| File (fileName : string) (content : Bytes)
| Blob (content : Bytes).

(** Result of [ffmpeg.readFile]: [Uint8Array | string]. *)
Inductive FileData :=
| Data (d : Bytes)
| Text (s : string).

Inductive MountConfig :=
| files (fs : list Source)
| blobs (bs : list (option string * Source)).

(** The promises the provider awaits: the decode backend, the asset
    fetcher and the image decoder.  The index is the type of the value a
    promise resolves to. *)
Inductive Call : Type -> Type :=
| Exec (ff : FFmpeg) (args : list string) : Call Z
| ReadFile (ff : FFmpeg) (path : string) : Call FileData
| DeleteFile (ff : FFmpeg) (path : string) : Call unit
| WriteFile (ff : FFmpeg) (path : option string) (data : Bytes) : Call unit
| CreateDir (ff : FFmpeg) (path : string) : Call unit
| Mount (ff : FFmpeg) (cfg : MountConfig) (mountPoint : string) : Call unit
| Unmount (ff : FFmpeg) (mountPoint : string) : Call unit
| Load (ff : FFmpeg) (coreURL wasmURL : string) : Call unit
| Terminate (ff : FFmpeg) : Call unit
| ToBlobURL (url mimeType : string) : Call string
| ArrayBuffer (src : Source) : Call Bytes
| CreateImageBitmap (jpeg : Bytes) : Call ImageBitmap.

(** The private fields of [InsvFrameProvider].  [allocated] is not a field
    of the class: it counts the [FFmpeg] objects constructed so far and so
    gives every [new FFmpeg()] its own identity. *)
Record InsvFrameProvider := mkProvider {
  ffmpeg : option FFmpeg;
  name : option string;
  _isProcessing : bool;
  source : option Source;
  originalName : option string;
  lastProcessedKey : option string;
  lastProcessedResult : option ProcessedFrame;
  allocated : nat
}.

(** [new InsvFrameProvider()] *)
Definition fresh : InsvFrameProvider :=
  mkProvider None None false None None None None 0.

Definition set_ffmpeg v (p : InsvFrameProvider) :=
  mkProvider v (name p) (_isProcessing p) (source p) (originalName p)
             (lastProcessedKey p) (lastProcessedResult p) (allocated p).
Definition set_name v (p : InsvFrameProvider) :=
  mkProvider (ffmpeg p) v (_isProcessing p) (source p) (originalName p)
             (lastProcessedKey p) (lastProcessedResult p) (allocated p).
Definition set_isProcessing v (p : InsvFrameProvider) :=
  mkProvider (ffmpeg p) (name p) v (source p) (originalName p)
             (lastProcessedKey p) (lastProcessedResult p) (allocated p).
Definition set_source v (p : InsvFrameProvider) :=
  mkProvider (ffmpeg p) (name p) (_isProcessing p) v (originalName p)
             (lastProcessedKey p) (lastProcessedResult p) (allocated p).
Definition set_originalName v (p : InsvFrameProvider) :=
  mkProvider (ffmpeg p) (name p) (_isProcessing p) (source p) v
             (lastProcessedKey p) (lastProcessedResult p) (allocated p).
Definition set_lastProcessed k r (p : InsvFrameProvider) :=
  mkProvider (ffmpeg p) (name p) (_isProcessing p) (source p)
             (originalName p) k r (allocated p).

(** *** Resumptions *)

(** A started [async] call: either settled, or suspended on a promise with
    the provider as it stands at that moment and the rest of the call,
    which resumes on the provider as it stands when the promise settles. *)
Inductive Task (A : Type) : Type :=
| Done (o : Outcome A) (p : InsvFrameProvider)
| Await {R : Type} (c : Call R) (p : InsvFrameProvider)
        (k : Outcome R -> InsvFrameProvider -> Task A).
Arguments Done {A} o p.
Arguments Await {A R} c p k.

Definition Async (A : Type) : Type := InsvFrameProvider -> Task A.

Definition ret {A} (a : A) : Async A := fun p => Done (Resolved a) p.
Definition throw {A} (e : JsError) : Async A := fun p => Done (Rejected e) p.

Fixpoint bindT {A B} (t : Task A) (f : A -> Async B) : Task B :=
  match t with
  | Done (Resolved a) p => f a p
  | Done (Rejected e) p => Done (Rejected e) p
  | Await c p k => Await c p (fun r p' => bindT (k r p') f)
  end.

Definition bind {A B} (m : Async A) (f : A -> Async B) : Async B :=
  fun p => bindT (m p) f.

(** [try { m } catch (e) { h e }] *)
Fixpoint catchT {A} (t : Task A) (h : JsError -> Async A) : Task A :=
  match t with
  | Done (Resolved a) p => Done (Resolved a) p
  | Done (Rejected e) p => h e p
  | Await c p k => Await c p (fun r p' => catchT (k r p') h)
  end.

Definition try_catch {A} (m : Async A) (h : JsError -> Async A) : Async A :=
  fun p => catchT (m p) h.

(** [try { m } finally { this := fin this }] for a finalizer that only
    assigns fields. *)
Fixpoint finallyT {A} (t : Task A)
         (fin : InsvFrameProvider -> InsvFrameProvider) : Task A :=
  match t with
  | Done o p => Done o (fin p)
  | Await c p k => Await c p (fun r p' => finallyT (k r p') fin)
  end.

Definition try_finally {A} (m : Async A)
           (fin : InsvFrameProvider -> InsvFrameProvider) : Async A :=
  fun p => finallyT (m p) fin.

(** Reading and assigning [this]. *)
Definition this : Async InsvFrameProvider := fun p => Done (Resolved p) p.
Definition assign (f : InsvFrameProvider -> InsvFrameProvider) : Async unit :=
  fun p => Done (Resolved tt) (f p).

(** [await c] *)
Definition await {R} (c : Call R) : Async R :=
  fun p => Await c p (fun r p' => Done r p').

Declare Scope async_scope.
Delimit Scope async_scope with async.
Notation "x <- m ;; k" := (bind m (fun x => k))
  (at level 61, m at next level, right associativity) : async_scope.
Notation "m ;; k" := (bind m (fun _ => k))
  (at level 61, right associativity) : async_scope.
Open Scope async_scope.

(** [await this.ffmpeg.m(...)]: a [TypeError] when the field is [null]. *)
Definition on_ffmpeg {R} (m : FFmpeg -> Call R) : Async R :=
  p <- this ;;
  match ffmpeg p with
  | Some ff => await (m ff)
  | None => throw TypeError
  end.

(** [this.ffmpeg = new FFmpeg()] *)
Definition new_FFmpeg : Async FFmpeg :=
  fun p => Done (Resolved (allocated p))
                (mkProvider (Some (allocated p)) (name p) (_isProcessing p)
                            (source p) (originalName p) (lastProcessedKey p)
                            (lastProcessedResult p) (S (allocated p))).

(** [`${s}`] for [s : string | null]. *)
Definition template (s : option string) : string :=
  match s with
  | Some v => v
  | None => "null"
  end.

(** *** Methods *)

(** [get busy()] *)
Definition busy (p : InsvFrameProvider) : bool := _isProcessing p.

Definition baseURL : string := "https://unpkg.com/@ffmpeg/core@0.12.10/dist/esm".

(** [await this.ffmpeg.load({ coreURL: await toBlobURL(..),
    wasmURL: await toBlobURL(..) })], on the object just constructed: the
    callee is evaluated before the arguments. *)
Definition loadCore (ff : FFmpeg) : Async unit :=
  coreURL <- await (ToBlobURL (baseURL ++ "/ffmpeg-core.js") "text/javascript") ;;
  wasmURL <- await (ToBlobURL (baseURL ++ "/ffmpeg-core.wasm") "application/wasm") ;;
  await (Load ff coreURL wasmURL).

(** [this.source instanceof File ? this.source.name : this.originalName] *)
Definition mountedAs (src : Source) (orig : option string) : option string :=
  match src with
  | File n _ => Some n
  | Blob _ => orig
  end.

Definition mountConfig (src : Source) (orig : option string) : MountConfig :=
  match src with
  | File _ _ => files [src]
  | Blob _ => blobs [(orig, src)]
  end.

(** [this.source.m(...)] with [this.source] read afresh.  Nothing assigns
    [null] to the field once [load] has set it; the [None] case stands for
    a dereference of [null]. *)
Definition on_source {R} (m : Source -> Async R) : Async R :=
  p <- this ;;
  match source p with
  | Some src => m src
  | None => throw TypeError
  end.

Definition mountSource : Async unit :=
  p <- this ;;
  match ffmpeg p, source p with
  | Some _, Some _ =>
      try_catch
        (on_ffmpeg (fun ff => CreateDir ff "/mnt") ;;
         cfg <- on_source (fun src =>
                  p <- this ;; ret (mountConfig src (originalName p))) ;;
         on_ffmpeg (fun ff => Mount ff cfg "/mnt") ;;
         on_source (fun src =>
           p <- this ;;
           assign (set_name
                     (Some ("/mnt/" ++ template (mountedAs src (originalName p)))))))
        (fun _ =>
           bytes <- on_source (fun src => await (ArrayBuffer src)) ;;
           p <- this ;;
           on_ffmpeg (fun ff => WriteFile ff (originalName p) bytes) ;;
           p <- this ;;
           assign (set_name (originalName p)))
  | _, _ => ret tt
  end.

Definition load (nm : string) (src : Source) : Async unit :=
  assign (set_source (Some src)) ;;
  assign (set_originalName (Some nm)) ;;
  ff <- new_FFmpeg ;;
  loadCore ff ;;
  mountSource.

Definition reinit : Async unit :=
  try_catch
    (p <- this ;;
     match ffmpeg p with
     | Some ff => await (Terminate ff)
     | None => ret tt
     end)
    (fun _ => ret tt) ;;
  ff <- new_FFmpeg ;;
  loadCore ff ;;
  mountSource.

(** [`${tsSec.toFixed(3)}-${angle.pitch}-${angle.yaw}-${angle.roll}-${width}-${height}`] *)
Definition cacheKey (tsSec : Q) (angle : Angle) (width height : Z) : string :=
  Js.toFixed 3 tsSec ++ "-" ++ Js.string_of_Z (pitch angle)
    ++ "-" ++ Js.string_of_Z (yaw angle)
    ++ "-" ++ Js.string_of_Z (roll angle)
    ++ "-" ++ Js.string_of_Z width
    ++ "-" ++ Js.string_of_Z height.

(** [this.lastProcessedKey === key && this.lastProcessedResult] *)
Definition cached (p : InsvFrameProvider) (key : string) : option ProcessedFrame :=
  match lastProcessedKey p with
  | Some k => if String.eqb k key then lastProcessedResult p else None
  | None => None
  end.

Definition outName : string := "out.jpg".

Definition filter (angle : Angle) (width height : Z) : string :=
  "[0:v:0]v360=input=fisheye:output=fisheye[front_corr]; " ++
  "[0:v:1]v360=input=fisheye:output=fisheye[rear_corr]; " ++
  "[front_corr][rear_corr]hstack=inputs=2[stacked]; " ++
  "[stacked]v360=input=dfisheye:output=rectilinear:ih_fov=190:iv_fov=190:" ++
  "yaw=" ++ Js.string_of_Z (yaw angle) ++ ":pitch=" ++ Js.string_of_Z (pitch angle)
    ++ ":roll=" ++ Js.string_of_Z (roll angle) ++ ":" ++
  "h_fov=90:v_fov=90:w=" ++ Js.string_of_Z width ++ ":h=" ++ Js.string_of_Z height
    ++ ",format=yuvj420p".

Definition args (tsSec : Q) (input : string) (angle : Angle)
           (width height : Z) : list string :=
  [ "-threads"; "1";
    "-ss"; Js.toFixed 3 tsSec;
    "-i"; input;
    "-filter_complex"; filter angle width height;
    "-frames:v"; "1";
    "-c:v"; "mjpeg";
    "-pix_fmt"; "yuvj420p";
    "-q:v"; "4";
    "-update"; "1";
    outName ].

(** [e?.message?.includes('out of bounds') || e?.message?.includes('Aborted')] *)
Definition fatal (e : JsError) : bool :=
  match message e with
  | Some m => Js.includes m "out of bounds" || Js.includes m "Aborted"
  | None => false
  end.

(** The local closure [readImage] of [frameAt]. *)
Definition readImage (filename : string) : Async (option ImageBitmap) :=
  try_catch
    (data <- on_ffmpeg (fun ff => ReadFile ff filename) ;;
     match data with
     | Text _ => ret None
     | Data d => b <- await (CreateImageBitmap d) ;; ret (Some b)
     end)
    (fun _ => ret None).

(** Lines 477-485 of [frameAt]: run the backend once; a fatal failure
    reinitializes the backend and is thrown again, any other is dropped. *)
Definition reproject (ff : FFmpeg) (input : string) (tsSec : Q) (angle : Angle)
           (width height : Z) : Async unit :=
  try_catch
    (await (Exec ff (args tsSec input angle width height)) ;; ret tt)
    (fun e => if fatal e then reinit ;; throw e else ret tt).

(** Lines 487-490 of [frameAt]: read the still back and delete it. *)
Definition readBack : Async ImageBitmap :=
  resultBitmap <- readImage outName ;;
  try_catch (on_ffmpeg (fun ff => DeleteFile ff outName)) (fun _ => ret tt) ;;
  match resultBitmap with
  | Some b => ret b
  | None => throw (Error "Failed to extract reprojected frame")
  end.

(** Lines 449-490 of [frameAt], the body of the outer [try]. *)
Definition extract (ff : FFmpeg) (input : string) (tsSec : Q) (angle : Angle)
           (width height : Z) : Async ImageBitmap :=
  reproject ff input tsSec angle width height ;;
  readBack.

Section FrameAt.

(** Lines 500-506 of [frameAt]: a canvas of the requested size is
    created, the bitmap is drawn on it and the canvas is encoded with
    [toDataURL('image/jpeg', 0.9)].  These DOM calls are synchronous;
    they yield a data URL or throw. *)
Variable canvas : ImageBitmap -> Z -> Z -> Outcome string.

(** Lines 498-520 of [frameAt]: encode the bitmap and fill the cache. *)
Definition encode (key : string) (tsSec : Q) (width height : Z)
           (resultBitmap : ImageBitmap) : Async ProcessedFrame :=
  match canvas resultBitmap width height with
  | Resolved url =>
      let result := mkFrame tsSec url width height in
      assign (set_lastProcessed (Some key) (Some result)) ;;
      ret result
  | Rejected e => throw e
  end.

Definition frameAt (tsSec : Q) (angle : Angle) (width height : Z)
  : Async ProcessedFrame :=
  p <- this ;;
  match ffmpeg p, name p with
  | Some ff, Some (String _ _ as nm) =>
      let key := cacheKey tsSec angle width height in
      match cached p key with
      | Some r => ret r
      | None =>
          if _isProcessing p then throw (Error "FFmpeg is busy")
          else
            assign (set_isProcessing true) ;;
            resultBitmap <-
              try_finally
                (try_catch (extract ff nm tsSec angle width height)
                           (fun e => throw e))
                (set_isProcessing false) ;;
            encode key tsSec width height resultBitmap
      end
  | _, _ => throw (Error "FFmpeg not loaded")
  end.

End FrameAt.

Definition close : Async unit :=
  p <- this ;;
  match ffmpeg p with
  | Some _ =>
      try_catch
        (match name p with
         | Some (String _ _ as nm) =>
             if Js.startsWith nm "/mnt/"
             then try_catch (on_ffmpeg (fun ff => Unmount ff "/mnt"))
                            (fun _ => ret tt)
             else try_catch (on_ffmpeg (fun ff => DeleteFile ff nm))
                            (fun _ => ret tt)
         | _ => ret tt
         end ;;
         on_ffmpeg Terminate)
        (fun _ => ret tt)
  | None => ret tt
  end ;;
  assign (set_ffmpeg None) ;;
  assign (set_name None) ;;
  assign (set_isProcessing false).

(** [this.ffmpeg && this.name]: the guard every [frameAt] passes first. *)
Definition loaded (p : InsvFrameProvider) : bool :=
  match ffmpeg p with
  | Some _ => negb (Js.falsy (name p))
  | None => false
  end.

(** The arguments of one [frameAt] call. *)
Record Request := mkRequest {
  at_time : Q;
  at_angle : Angle;
  out_width : Z;
  out_height : Z
}.

Definition keyOf (q : Request) : string :=
  cacheKey (at_time q) (at_angle q) (out_width q) (out_height q).

(** Two requests differ in exactly one of timestamp (as rounded to one
    millisecond by [toFixed(3)]), pitch, yaw, roll, width and height. *)
Inductive differs_in_one (q q' : Request) : Prop :=
| differs_time :
    Js.toFixed 3 (at_time q) <> Js.toFixed 3 (at_time q') ->
    at_angle q = at_angle q' -> out_width q = out_width q' ->
    out_height q = out_height q' -> differs_in_one q q'
| differs_pitch :
    pitch (at_angle q) <> pitch (at_angle q') ->
    Js.toFixed 3 (at_time q) = Js.toFixed 3 (at_time q') ->
    yaw (at_angle q) = yaw (at_angle q') ->
    roll (at_angle q) = roll (at_angle q') ->
    out_width q = out_width q' -> out_height q = out_height q' ->
    differs_in_one q q'
| differs_yaw :
    yaw (at_angle q) <> yaw (at_angle q') ->
    Js.toFixed 3 (at_time q) = Js.toFixed 3 (at_time q') ->
    pitch (at_angle q) = pitch (at_angle q') ->
    roll (at_angle q) = roll (at_angle q') ->
    out_width q = out_width q' -> out_height q = out_height q' ->
    differs_in_one q q'
| differs_roll :
    roll (at_angle q) <> roll (at_angle q') ->
    Js.toFixed 3 (at_time q) = Js.toFixed 3 (at_time q') ->
    pitch (at_angle q) = pitch (at_angle q') ->
    yaw (at_angle q) = yaw (at_angle q') ->
    out_width q = out_width q' -> out_height q = out_height q' ->
    differs_in_one q q'
| differs_width :
    out_width q <> out_width q' ->
    Js.toFixed 3 (at_time q) = Js.toFixed 3 (at_time q') ->
    at_angle q = at_angle q' -> out_height q = out_height q' ->
    differs_in_one q q'
| differs_height :
    out_height q <> out_height q' ->
    Js.toFixed 3 (at_time q) = Js.toFixed 3 (at_time q') ->
    at_angle q = at_angle q' -> out_width q = out_width q' ->
    differs_in_one q q'.

(** *** Running a call *)

(** An environment settles the [n]-th awaited promise of a run. *)
Definition Env : Type := nat -> forall R, Call R -> Outcome R.

Definition AnyCall : Type := { R : Type & Call R }.
Definition anyCall {R} (c : Call R) : AnyCall := existT _ R c.

(** Runs a call to completion with nothing else touching the provider in
    between; yields the promises awaited, the outcome and the provider. *)
Fixpoint run {A} (t : Task A) (env : Env) (n : nat)
  : list AnyCall * Outcome A * InsvFrameProvider :=
  match t with
  | Done o p => ([], o, p)
  | Await c p k =>
      let '(tr, o, p') := run (k (env n _ c) p) env (S n) in
      (anyCall c :: tr, o, p')
  end.

(** [inflight t p']: the call [t] is suspended on a promise with the
    provider in state [p'], the earlier promises having settled in any way
    and nothing else having touched the provider. *)
Fixpoint inflight {A} (t : Task A) (p' : InsvFrameProvider) : Prop :=
  match t with
  | Done _ _ => False
  | Await c p k => p = p' \/ exists r, inflight (k r p) p'
  end.

(** [settles S Q t]: however the awaited promises settle, the provider
    satisfies [S] at every suspension of [t], and [t] ends in an outcome
    and a provider satisfying [Q]. *)
Fixpoint settles {A} (S : InsvFrameProvider -> Prop)
         (Q : Outcome A -> InsvFrameProvider -> Prop) (t : Task A) : Prop :=
  match t with
  | Done o p => Q o p
  | Await c p k => S p /\ forall r, settles S Q (k r p)
  end.

(** [awaits_only C t]: every promise [t] can come to await is in [C],
    whatever happens to the provider in between. *)
Fixpoint awaits_only {A} (C : forall R, Call R -> Prop) (t : Task A) : Prop :=
  match t with
  | Done _ _ => True
  | Await c _ k => C _ c /\ forall r p', awaits_only C (k r p')
  end.

(** The promises of a reinitialization: teardown, asset fetch, backend
    load and mounting or writing the source. *)
Definition reinit_call {R} (c : Call R) : Prop :=
  match c with
  | Terminate _ | ToBlobURL _ _ | Load _ _ _
  | CreateDir _ _ | Mount _ _ _ | ArrayBuffer _ | WriteFile _ _ _ => True
  | _ => False
  end.

(** The promises of reading the still back. *)
Definition readBack_call {R} (c : Call R) : Prop :=
  match c with
  | ReadFile _ _ | CreateImageBitmap _ | DeleteFile _ _ => True
  | _ => False
  end.

(** No readable still came back: [readFile] rejected or yielded a string,
    or the bytes could not be decoded.  [n] is the position of the
    [readFile] promise in the run. *)
Definition read_fails (env : Env) (n : nat) (ff : FFmpeg) : Prop :=
  match env n _ (ReadFile ff outName) with
  | Rejected _ => True
  | Resolved (Text _) => True
  | Resolved (Data d) =>
      match env (S n) _ (CreateImageBitmap d) with
      | Rejected _ => True
      | Resolved _ => False
      end
  end.

(** The single-slot cache of [p'] is that of [p]. *)
Definition same_cache (p p' : InsvFrameProvider) : Prop :=
  lastProcessedKey p' = lastProcessedKey p /\
  lastProcessedResult p' = lastProcessedResult p.

(** [preserves P m]: started on a provider satisfying [P], the call [m]
    satisfies [P] at every suspension and when it settles. *)
Definition preserves {A} (P : InsvFrameProvider -> Prop) (m : Async A) : Prop :=
  forall p, P p -> settles P (fun _ p' => P p') (m p).

(** [issues C m]: started on any provider, [m] awaits promises in [C] only. *)
Definition issues {A} (C : forall R, Call R -> Prop) (m : Async A) : Prop :=
  forall p, awaits_only C (m p).

(** While the backend works for a call, the provider is flagged busy, keeps
    a backend object and keeps the cache it had when the call began. *)
Definition processing_since (p q : InsvFrameProvider) : Prop :=
  _isProcessing q = true /\ ffmpeg q <> None /\ same_cache p q.

(** What a reinitialization does to the provider, however it ends: a new
    backend object replaces the old one; busy flag, cache and source stay. *)
Definition reinitialized (p q : InsvFrameProvider) : Prop :=
  ffmpeg q = Some (allocated p) /\ allocated q = S (allocated p) /\
  _isProcessing q = _isProcessing p /\ same_cache p q /\
  source q = source p /\ originalName q = originalName p.

End Provider.

(** ** Projection math of the preview path (App.svelte) *)

Module Projection.

(** [ImageData]: [data] is the RGBA [Uint8ClampedArray]. *)
Record ImageData := mkImage {
  width : Z;
  height : Z;
  data : list Z
}.

(** [d[i]]: [undefined] outside the array. *)
Definition get (d : list Z) (i : Z) : option Z :=
  if (i <? 0)%Z then None else nth_error d (Z.to_nat i).

(** [out[i] = x] on a [Uint8ClampedArray]: [NaN] (here [None]) is stored
    as 0, other values are clamped to a byte, and a store outside the array
    is ignored. *)
Fixpoint set_nth (out : list Z) (i : nat) (b : Z) : list Z :=
  match out, i with
  | [], _ => []
  | _ :: out', O => b :: out'
  | a :: out', S i' => a :: set_nth out' i' b
  end.

Definition store (out : list Z) (i : Z) (x : option Z) : list Z :=
  let b := match x with
           | Some z => Z.max 0 (Z.min 255 z)
           | None => 0%Z
           end in
  if (i <? 0)%Z then out else set_nth out (Z.to_nat i) b.

(** [Math.round]: the nearest integer, ties towards plus infinity. *)
Definition Math_round (x : Q) : Z := Qfloor (x + (1 # 2)).

(** Body of the channel loop of [bilinearSample]; an [undefined] sample
    makes the arithmetic [NaN]. *)
Definition blend (p00 p10 p01 p11 : option Z) (dx dy : Q) : option Z :=
  match p00, p10, p01, p11 with
  | Some p00, Some p10, Some p01, Some p11 =>
      let p0 := inject_Z p00 + (inject_Z p10 - inject_Z p00) * dx in
      let p1 := inject_Z p01 + (inject_Z p11 - inject_Z p01) * dx in
      Some (Math_round (p0 + (p1 - p0) * dy))
  | _, _, _, _ => None
  end.

Definition bilinearSample (img : ImageData) (u v : Q) (out : list Z) (o : Z)
  : list Z :=
  let w := width img in
  let h := height img in
  let u := u - inject_Z (Qfloor u) in
  let v := Qmax 0 (Qmin 1 v) in
  let x := u * inject_Z (w - 1) in
  let y := v * inject_Z (h - 1) in
  let x0 := Qfloor x in
  let y0 := Qfloor y in
  let x1 := Z.min (x0 + 1) (w - 1) in
  let y1 := Z.min (y0 + 1) (h - 1) in
  let dx := x - inject_Z x0 in
  let dy := y - inject_Z y0 in
  let d := data img in
  let idx := fun xx yy : Z => ((yy * w + xx) * 4)%Z in
  let i00 := idx x0 y0 in
  let i10 := idx x1 y0 in
  let i01 := idx x0 y1 in
  let i11 := idx x1 y1 in
  fold_left
    (fun out c =>
       store out (o + c)
             (blend (get d (i00 + c)) (get d (i10 + c))
                    (get d (i01 + c)) (get d (i11 + c)) dx dy))
    [0; 1; 2; 3]%Z out.

(** *** Rotation, over the reals *)

Open Scope R_scope.

Record Vec3 := mkVec { x : R; y : R; z : R }.

Definition toRad (deg : R) : R := (deg * PI) / 180.

Definition rotateVec (vx vy vz yawDeg pitchDeg rollDeg : R) : Vec3 :=
  let yaw := toRad yawDeg in
  let pitch := toRad pitchDeg in
  let roll := toRad rollDeg in
  let x := vx * cos yaw + vz * sin yaw in
  let y := vy in
  let z := - vx * sin yaw + vz * cos yaw in
  let x2 := x in
  let y2 := y * cos pitch - z * sin pitch in
  let z2 := y * sin pitch + z * cos pitch in
  let xr := x2 * cos roll - y2 * sin roll in
  let yr := x2 * sin roll + y2 * cos roll in
  let zr := z2 in
  mkVec xr yr zr.

(** The rotations the specification names, as 3x3 matrices (rows of
    [Vec3]) applied to column vectors. *)
Record Mat3 := mkMat { row1 : Vec3; row2 : Vec3; row3 : Vec3 }.

Definition dot (a b : Vec3) : R := x a * x b + y a * y b + z a * z b.

Definition apply (m : Mat3) (v : Vec3) : Vec3 :=
  mkVec (dot (row1 m) v) (dot (row2 m) v) (dot (row3 m) v).

Definition transpose (m : Mat3) : Mat3 :=
  mkMat (mkVec (x (row1 m)) (x (row2 m)) (x (row3 m)))
        (mkVec (y (row1 m)) (y (row2 m)) (y (row3 m)))
        (mkVec (z (row1 m)) (z (row2 m)) (z (row3 m))).

Definition mul (a b : Mat3) : Mat3 :=
  let bt := transpose b in
  mkMat (mkVec (dot (row1 a) (row1 bt)) (dot (row1 a) (row2 bt)) (dot (row1 a) (row3 bt)))
        (mkVec (dot (row2 a) (row1 bt)) (dot (row2 a) (row2 bt)) (dot (row2 a) (row3 bt)))
        (mkVec (dot (row3 a) (row1 bt)) (dot (row3 a) (row2 bt)) (dot (row3 a) (row3 bt))).

Definition identity : Mat3 :=
  mkMat (mkVec 1 0 0) (mkVec 0 1 0) (mkVec 0 0 1).

Definition det (m : Mat3) : R :=
  x (row1 m) * (y (row2 m) * z (row3 m) - z (row2 m) * y (row3 m))
  - y (row1 m) * (x (row2 m) * z (row3 m) - z (row2 m) * x (row3 m))
  + z (row1 m) * (x (row2 m) * y (row3 m) - y (row2 m) * x (row3 m)).

(** Rotation by [a] radians about the vertical axis (yaw). *)
Definition Ry (a : R) : Mat3 :=
  mkMat (mkVec (cos a) 0 (sin a)) (mkVec 0 1 0) (mkVec (- sin a) 0 (cos a)).

(** Rotation by [a] radians about the horizontal axis (pitch). *)
Definition Rx (a : R) : Mat3 :=
  mkMat (mkVec 1 0 0) (mkVec 0 (cos a) (- sin a)) (mkVec 0 (sin a) (cos a)).

(** Rotation by [a] radians about the optical axis (roll). *)
Definition Rz (a : R) : Mat3 :=
  mkMat (mkVec (cos a) (- sin a) 0) (mkVec (sin a) (cos a) 0) (mkVec 0 0 1).

(** Yaw, then pitch, then roll, as the specification words it. *)
Definition rotate_spec (v : Vec3) (yawDeg pitchDeg rollDeg : R) : Vec3 :=
  apply (Rz (toRad rollDeg)) (apply (Rx (toRad pitchDeg)) (apply (Ry (toRad yawDeg)) v)).

Definition is_rotation (m : Mat3) : Prop :=
  mul (transpose m) m = identity /\ det m = 1.

Close Scope R_scope.

End Projection.

(** ** The export loop (extractFrames, App.svelte) *)

Module ExportJob.
Import Types.

(** [1 / Math.max(1, samplesPerSecond)] *)
Definition step (samplesPerSecond : Q) : Q :=
  Js.fdiv 1 (Qmax 1 samplesPerSecond).

(** The literal [1e-6]: the binary64 number nearest to one millionth. *)
Definition epsilon : Q := Js.binary64 (1 # 1000000).

(** [for (let t = 0; t <= duration + 1e-6; t += step)
      times.push(Math.min(t, duration))], from the current [t], for at most
    [fuel] iterations. *)
Fixpoint times_from (fuel : nat) (t duration step : Q) : list Q :=
  match fuel with
  | O => []
  | S fuel' =>
      if Qle_bool t (Js.fadd duration epsilon)
      then Qmin t duration :: times_from fuel' (Js.fadd t step) duration step
      else []
  end.

(** The value of the loop variable after [k] increments. *)
Definition advanced (k : nat) (t step : Q) : Q :=
  Nat.iter k (fun x => Js.fadd x step) t.

(** An iteration bound for the loop.  A sum that rounding leaves where it
    was never passes the bound of the loop, which then runs on; where every
    increment gains at least half a step, the loop condition fails within
    this many iterations ([times_complete] below). *)
Definition iterations (duration step : Q) : nat :=
  (Z.to_nat (Qfloor (2 * Js.fadd duration epsilon / step)) + 3)%nat.

Definition times (duration samplesPerSecond : Q) : list Q :=
  let step := step samplesPerSecond in
  times_from (iterations duration step) 0 duration step.

(** The cells visited by the two nested [for ... of] loops when the export
    is not cancelled: timestamps outside, cameras inside. *)
Definition cells (times : list Q) (angles : list VirtualCamera)
  : list (Q * VirtualCamera) :=
  flat_map (fun ts => map (fun cam => (ts, cam)) angles) times.

(** [ts.toFixed(2).replace(/\./g, '_')] *)
Definition tsStr (ts : Q) : string := Js.replace_dots (Js.toFixed 2 ts).

(** [cam.label.replace(/[^a-z0-9-_]+/gi, '_') || `Angle_${cam.id}`] *)
Definition safeLabel (cam : VirtualCamera) : string :=
  Js.or_else (Js.replace_runs false (label cam))
             ("Angle_" ++ Js.string_of_Z (id cam)).

(** [`${safeLabel}_${tsStr}.jpg`] *)
Definition fname (cam : VirtualCamera) (ts : Q) : string :=
  safeLabel cam ++ "_" ++ tsStr ts ++ ".jpg".

(** The guards of [extractFrames] and the cells it then visits.
    [loaded] stands for [frameProvider && videoEl]; [videoDuration] is
    [None] when [videoEl.duration] is not finite. *)
Definition extractFrames (loaded : bool) (videoDuration : option Q)
           (samplesPerSecond : Q) (angles : list VirtualCamera)
  : string + list (Q * VirtualCamera) :=
  if negb loaded then inl "No video/provider loaded."
  else
    match angles with
    | [] => inl "Please add at least one camera angle."
    | _ =>
        let duration := match videoDuration with
                        | Some d => d
                        | None => 0
                        end in
        if Qle_bool duration 0 then inl "Unknown video duration."
        else inr (cells (times duration samplesPerSecond) angles)
    end.

(** Sanitization as the specification words it: every character outside
    the class is replaced by an underscore of its own. *)
Fixpoint replace_each (s : string) : string :=
  match s with
  | EmptyString => EmptyString
  | String c s' =>
      String (if Js.word_char c then c else "_"%char) (replace_each s')
  end.

End ExportJob.

(** ** Concrete environments and providers used to exercise the model *)

Module Scenario.
Import Types Provider.

(** A canvas that always encodes. *)
Definition canvas (b : ImageBitmap) (w h : Z) : Outcome string :=
  Resolved ("data:image/jpeg;base64,frame" ++ Js.string_of_Z (Z.of_nat b)).

(** Every promise resolves; the [n]-th one decodes to bitmap [n]. *)
Definition all_ok : Env :=
  fun n R c =>
    match c in Call R return Outcome R with
    | Exec _ _ => Resolved 0%Z
    | ReadFile _ _ => Resolved (Data [])
    | DeleteFile _ _ => Resolved tt
    | WriteFile _ _ _ => Resolved tt
    | CreateDir _ _ => Resolved tt
    | Mount _ _ _ => Resolved tt
    | Unmount _ _ => Resolved tt
    | Load _ _ _ => Resolved tt
    | Terminate _ => Resolved tt
    | ToBlobURL url _ => Resolved ("blob:" ++ url)
    | ArrayBuffer _ => Resolved []
    | CreateImageBitmap _ => Resolved n
    end.

(** As [all_ok], but [exec] rejects with [e]. *)
Definition exec_fails (e : JsError) : Env :=
  fun n R c =>
    match c in Call R return Outcome R with
    | Exec _ _ => Rejected e
    | c' => all_ok n _ c'
    end.

(** As [exec_fails], and no output file can be read afterwards. *)
Definition exec_fails_no_output (e : JsError) : Env :=
  fun n R c =>
    match c in Call R return Outcome R with
    | Exec _ _ => Rejected e
    | ReadFile _ _ => Rejected (Error "ErrnoError: FS error")
    | c' => all_ok n _ c'
    end.

(** As [exec_fails], and the backend cannot be loaded again. *)
Definition exec_fails_load_fails (e l : JsError) : Env :=
  fun n R c =>
    match c in Call R return Outcome R with
    | Exec _ _ => Rejected e
    | Load _ _ _ => Rejected l
    | c' => all_ok n _ c'
    end.

(** As [env], but the first promise, if it is [exec], resolves. *)
Definition exec_resolves (env : Env) : Env :=
  fun n R c =>
    match n with
    | O => match c in Call R return Outcome R -> Outcome R with
           | Exec _ _ => fun _ => Resolved 0%Z
           | _ => fun r => r
           end (env O R c)
    | S _ => env n R c
    end.

Definition video : Source := File "clip.insv" [].

(** The provider after [load] has resolved. *)
Definition ready : InsvFrameProvider :=
  Eval vm_compute in snd (run (load "clip.insv" video fresh) all_ok 0).

Definition front : Angle := mkAngle 0 0 0.
Definition left : Angle := mkAngle 0 (-90) 0.

(** The provider after [frameAt(1.5, front, 240, 135)] has resolved. *)
Definition warm : InsvFrameProvider :=
  Eval vm_compute in snd (run (frameAt canvas (3 # 2) front 240 135 ready) all_ok 0).

(** The frame [warm] holds in its cache. *)
Definition cached_frame : ProcessedFrame :=
  mkFrame (3 # 2) "data:image/jpeg;base64,frame2" 240 135.

(** [warm] while a later call is suspended on the backend. *)
Definition processing : InsvFrameProvider :=
  Eval vm_compute in set_isProcessing true warm.

(** [warm] after a later call has failed for want of an output file. *)
Definition after_failure : InsvFrameProvider :=
  Eval vm_compute in
    snd (run (frameAt canvas 2 left 240 135 warm)
             (exec_fails_no_output (Error "exec timed out")) 0).

(** The request [warm] holds the answer to, and one that only differs
    from it in yaw. *)
Definition cached_request : Request := mkRequest (3 # 2) front 240 135.
Definition turned_request : Request := mkRequest (3 # 2) left 240 135.

(** A 2x2 picture: black, grey / dark, light; opaque. *)
Definition checker : Projection.ImageData :=
  Projection.mkImage 2 2
    [0; 0; 0; 255;  100; 100; 100; 255;
     50; 50; 50; 255;  200; 200; 200; 255]%Z.

Definition blank : list Z := [9; 9; 9; 9; 9; 9]%Z.

Definition cam1 : VirtualCamera :=
  mkCamera 1 "Angle 1" EmptyString 0 front.

(** A camera the user has cleared the label of, and one whose label has
    two spaces in a row. *)
Definition unnamed : VirtualCamera :=
  mkCamera 7 EmptyString EmptyString 0 front.
Definition spaced : VirtualCamera :=
  mkCamera 3 "a  b" EmptyString 0 front.

End Scenario.

(** ** The earlier providers (providers.ts, first version) *)

Module MediaElement.



Inductive ProjectionType :=
| Equirectangular
| StereoscopicSBS
| StereoscopicOU
| DualFisheye.

(** The arguments [(sx, sy, sw, sh)] of a [cropToBitmap] call. *)
Record Crop := mkCrop { sx : Z; sy : Z; sw : Z; sh : Z }.

(** The crops [split] takes from a [w] x [h] frame for the left and the right
    eye; [None] when both eyes get the full frame. *)
Definition split (proj : ProjectionType) (w h : Z) : option (Crop * Crop) :=
  match proj with
  | StereoscopicSBS =>
      let halfW := (w / 2)%Z in
      Some (mkCrop 0 0 halfW h, mkCrop (w - halfW) 0 halfW h)
  | StereoscopicOU =>
      let halfH := (h / 2)%Z in
      Some (mkCrop 0 0 w halfH, mkCrop 0 (h - halfH) w halfH)
  | _ => None
  end.

(** The pixel in column [x] and row [y] of the frame lies in the crop. *)
Definition covers (c : Crop) (x y : Z) : Prop :=
  (sx c <= x < sx c + sw c /\ sy c <= y < sy c + sh c)%Z.

End MediaElement.

Module WebCodecs.
Import Provider.

Inductive ProviderKind := WebCodecsHevcProvider | HevcMediaElementProvider.

(** [probeHevcSupport]: [vd] is [globalThis.VideoDecoder.isConfigSupported]
    when it exists, giving for a codec how the promise settles and, when it
    resolves, [res?.supported]. *)
Fixpoint probe (isConfigSupported : string -> Outcome (option bool))
         (configs : list string) : bool :=
  match configs with
  | [] => false
  | codec :: rest =>
      match isConfigSupported codec with
      | Resolved (Some true) => true
      | _ => probe isConfigSupported rest
      end
  end.

Definition probeHevcSupport (vd : option (string -> Outcome (option bool)))
           (configs : list string) : bool :=
  match vd with
  | None => false
  | Some isConfigSupported => probe isConfigSupported configs
  end.

Definition maybeConfigs : list string := ["hvc1"; "hev1"].

(** [WebCodecsHevcProvider.load]: the value of [supported] it leaves and
    how it settles. *)
Definition load (vd : option (string -> Outcome (option bool)))
  : bool * Outcome unit :=
  let supported := probeHevcSupport vd maybeConfigs in
  if supported then (supported, Resolved tt)
  else (supported, Rejected (Error "WebCodecs HEVC not supported on this system")).

(** [WebCodecsHevcProvider.frameAt] on a provider whose field is [supported]. *)
Definition frameAt (supported : bool) : Outcome unit :=
  if supported
  then Rejected (Error "WebCodecsHevcProvider.frameAt not implemented yet")
  else Rejected (Error "WebCodecs provider not initialized").

(** [createProvider]: [useWc] is the experiment flag and [meLoad] the way
    [HevcMediaElementProvider.load] settles if it is called. *)
Definition createProvider (useWc : bool)
           (vd : option (string -> Outcome (option bool)))
           (meLoad : Outcome unit) : Outcome ProviderKind :=
  let fallback := match meLoad with
                  | Resolved _ => Resolved HevcMediaElementProvider
                  | Rejected e => Rejected e
                  end in
  if useWc
  then match snd (load vd) with
       | Resolved _ => Resolved WebCodecsHevcProvider
       | Rejected _ => fallback
       end
  else fallback.

End WebCodecs.

(** ** Sizes, throttling and the camera list (App.svelte) *)

Module App.
Import Types.

(** The members of [aspectPresets] and ['Custom']. *)
Inductive AspectPreset := P16_9 | P9_16 | P1_1 | P4_3 | Custom.

(** [aspectPreset.split(':').map(Number)] on '16:9', '9:16', '1:1', '4:3'. *)
Definition sides (preset : AspectPreset) : Q * Q :=
  match preset with
  | P16_9 => (16, 9)
  | P9_16 => (9, 16)
  | P1_1 => (1, 1)
  | P4_3 => (4, 3)
  | Custom => (0, 0)
  end.

Definition aspectRatioValue (aspectPreset : AspectPreset)
           (customAspectW customAspectH : Q) : Q :=
  match aspectPreset with
  | Custom =>
      if Qlt_le_dec 0 customAspectW
      then if Qlt_le_dec 0 customAspectH
           then Js.fdiv customAspectW customAspectH
           else Js.fdiv 16 9
      else Js.fdiv 16 9
  | _ => Js.fdiv (fst (sides aspectPreset)) (snd (sides aspectPreset))
  end.

(** The quotient [aspectRatioValue] rounds. *)
Definition exactRatio (aspectPreset : AspectPreset)
           (customAspectW customAspectH : Q) : Q :=
  match aspectPreset with
  | Custom =>
      if Qlt_le_dec 0 customAspectW
      then if Qlt_le_dec 0 customAspectH
           then customAspectW / customAspectH
           else 16 / 9
      else 16 / 9
  | _ => fst (sides aspectPreset) / snd (sides aspectPreset)
  end.

(** [computeOutputSize]; [videoWidth] is [videoEl?.videoWidth], a
    non-negative integer when the element exists.  Custom sides whose
    quotient lies below [2 ^ -1000] can make the ratio 0 or the height
    [Infinity] in JavaScript; such values are outside [Z], and what is
    proved about the accuracy of the height keeps the quotient above
    that. *)
Definition computeOutputSize (aspectPreset : AspectPreset)
           (customAspectW customAspectH : Q) (videoWidth : option Z) : Z * Z :=
  let ratio := aspectRatioValue aspectPreset customAspectW customAspectH in
  let baseW := Qmin 1920 (match videoWidth with
                          | Some 0%Z | None => 1920
                          | Some v => inject_Z v
                          end) in
  let w := Z.max 320 (Projection.Math_round baseW) in
  let h := Z.max 320 (Projection.Math_round (Js.fdiv (inject_Z w) ratio)) in
  (w, h).

(** The cover fit of the earlier [extractFrames], [updateAnglePreview] and
    [drawToAspect]: a source of [sW] x [sH] is drawn at [(dx, dy)] with size
    [dW] x [dH] on a canvas of [outW] x [outH]. *)
Record Placement := mkPlacement { dx : Z; dy : Z; dW : Z; dH : Z }.

Definition coverFit (outW outH sW sH : Z) : Placement :=
  let scale := Qmax (inject_Z outW / inject_Z sW) (inject_Z outH / inject_Z sH) in
  let dW := Projection.Math_round (inject_Z sW * scale) in
  let dH := Projection.Math_round (inject_Z sH * scale) in
  let dx := Projection.Math_round (inject_Z (outW - dW) / 2) in
  let dy := Projection.Math_round (inject_Z (outH - dH) / 2) in
  mkPlacement dx dy dW dH.

(** The size of the thumbnail of the earlier [captureCurrentFrame], for a
    positive [videoWidth]. *)
Definition thumbnailSize (videoWidth videoHeight : Z) : Z * Z :=
  let maxW := 320 in
  let scale := Qmin 1 (maxW / inject_Z videoWidth) in
  (Projection.Math_round (inject_Z videoWidth * scale),
   Projection.Math_round (inject_Z videoHeight * scale)).

Definition PREVIEW_THROTTLE_MS : Z := 200.

(** [updateAnglePreview] at [Date.now() = now]: whether it goes on to
    [updateAnglePreviewInternal], and the new [lastPreviewTick]. *)
Definition updateAnglePreview (exporting : bool) (now lastPreviewTick : Z)
  : bool * Z :=
  if exporting then (false, lastPreviewTick)
  else if (now - lastPreviewTick <? PREVIEW_THROTTLE_MS)%Z
       then (false, lastPreviewTick)
       else (true, now).

(** The calls of [updateAnglePreview] made at the clock readings [nows],
    in order, outside an export ([handleTimeUpdate] and the reactive block
    call it once for every camera): the readings of those that go
    through. *)
Fixpoint previews (nows : list Z) (lastPreviewTick : Z) : list Z :=
  match nows with
  | [] => []
  | now :: rest =>
      let '(go, tick) := updateAnglePreview false now lastPreviewTick in
      if go then now :: previews rest tick else previews rest tick
  end.

(** The module state [angles], [nextId]. *)
Record Cameras := mkCameras { angles : list VirtualCamera; nextId : Z }.

(** [addCameraAngle] with [videoEl?.currentTime ?? 0 = time]. *)
Definition addCameraAngle (time : Q) (st : Cameras) : Cameras :=
  let newAngle := mkCamera (nextId st)
                           ("Angle " ++ Js.string_of_Z (nextId st))
                           EmptyString time (mkAngle 0 0 0) in
  mkCameras (angles st ++ [newAngle]) (nextId st + 1).

(** *** The export loop and its cancel flag *)

(** [cancelExport] is set by a click and cleared only when an export
    starts.  Between two cells the loop does not yield, so what a check of
    the flag sees is determined by the number of cells done so far:
    [flag done]. *)
Fixpoint forCams (flag : nat -> bool) (ts : Q) (cams : list VirtualCamera)
         (done : nat) : list (Q * VirtualCamera) * nat :=
  match cams with
  | [] => ([], done)
  | cam :: rest =>
      if flag done then ([], done)
      else let '(visited, done') := forCams flag ts rest (S done) in
           ((ts, cam) :: visited, done')
  end.

Fixpoint forTimes (flag : nat -> bool) (times : list Q)
         (cams : list VirtualCamera) (done : nat)
  : list (Q * VirtualCamera) * nat :=
  match times with
  | [] => ([], done)
  | ts :: rest =>
      if flag done then ([], done)
      else let '(visited, done') := forCams flag ts cams done in
           let '(visited', done'') := forTimes flag rest cams done' in
           ((visited ++ visited')%list, done'')
  end.

(** The loop of [extractFrames]: the cells visited, the final [done] and
    whether the archive is generated and downloaded ([!cancelExport] after
    the loop). *)
Definition exportLoop (flag : nat -> bool) (times : list Q)
           (cams : list VirtualCamera)
  : list (Q * VirtualCamera) * nat * bool :=
  let '(visited, done) := forTimes flag times cams 0 in
  (visited, done, negb (flag done)).

(** Consecutive times are at least [gap] apart, the first that far after
    [last]. *)
Fixpoint spaced (gap last : Z) (l : list Z) : Prop :=
  match l with
  | [] => True
  | t :: rest => (last + gap <= t)%Z /\ spaced gap t rest
  end.

(** No two cameras share an id and [nextId] is above all ids in use. *)
Definition fresh_ids (st : Cameras) : Prop :=
  NoDup (map id (angles st)) /\
  Forall (fun cam => (id cam < nextId st)%Z) (angles st).

(** The state when the page opens. *)
Definition initial : Cameras := mkCameras [] 1.

End App.

(** ** The pinhole camera of the preview renderer (App.svelte) *)

Module Pinhole.
Import Projection.
Open Scope R_scope.

(** [toRad(Math.max(1, Math.min(175, fovDeg)))] *)
Definition fov (fovDeg : R) : R := toRad (Rmax 1 (Rmin 175 fovDeg)).

(** [fx = 0.5 * outW / Math.tan(fov / 2)], and [fy = fx]. *)
Definition fx (outW fovDeg : R) : R := 0.5 * outW / tan (fov fovDeg / 2).

(** The normalized camera ray of output pixel [(i, j)] in
    [renderRectilinearPreview]. *)
Definition ray (i j outW outH fovDeg : R) : Vec3 :=
  let ny := (j + 0.5) - outH / 2 in
  let nx := (i + 0.5) - outW / 2 in
  let rx := nx / fx outW fovDeg in
  let ry := - ny / fx outW fovDeg in
  let rz := 1 in
  let invLen := 1 / sqrt (rx * rx + ry * ry + rz * rz) in
  mkVec (rx * invLen) (ry * invLen) (rz * invLen).

Close Scope R_scope.

End Pinhole.

(** ** Further notions about the provider *)

Module ProviderNotions.
Import Provider.

(** A promise other than the backend invocation. *)
Definition not_exec (c : AnyCall) : Prop :=
  match projT2 c with
  | Exec _ _ => False
  | _ => True
  end.

(** The fields as [close] leaves them. *)
Definition closed (p : InsvFrameProvider) : InsvFrameProvider :=
  set_isProcessing false (set_name None (set_ffmpeg None p)).

(** The provider as a resolved [load name source] leaves it, under the
    name [mounted]. *)
Definition loaded_as (nm : string) (src : Source) (mounted : string)
           (p : InsvFrameProvider) : InsvFrameProvider :=
  mkProvider (Some (allocated p)) (Some mounted) (_isProcessing p) (Some src)
             (Some nm) (lastProcessedKey p) (lastProcessedResult p)
             (S (allocated p)).

End ProviderNotions.

(** ** Further concrete cases *)

Module Cases.
Import Types Provider.

(** Promises resolve, except that nothing can be mounted. *)
Definition no_mount : Env :=
  fun n R c =>
    match c in Call R return Outcome R with
    | Mount _ _ _ => Rejected (Error "WORKERFS is not supported")
    | c' => Scenario.all_ok n _ c'
    end.

(** The provider after [close] on [Scenario.warm]. *)
Definition closed : InsvFrameProvider :=
  Eval vm_compute in snd (run (close Scenario.warm) Scenario.all_ok 0).

(** The provider after [load] where mounting fails. *)
Definition written : InsvFrameProvider :=
  Eval vm_compute in snd (run (load "clip.insv" Scenario.video fresh) no_mount 0).

(** A 2x2 picture of one colour. *)
Definition grey : Projection.ImageData :=
  Projection.mkImage 2 2 (repeat 128%Z 16).

(** Cancel is clicked while the second cell of an export is rendered. *)
Definition cancelled_in_second_cell : nat -> bool := fun done => Nat.leb 2 done.

(** A decoder that knows ['hev1'] and throws on anything else. *)
Definition hev1_only : string -> Outcome (option bool) :=
  fun codec => if String.eqb codec "hev1" then Resolved (Some true)
               else Rejected (Error "NotSupportedError").

End Cases.

(** * Properties *)

(** ** Reasoning about resumptions *)

Import Types Provider.

Lemma settles_weaken {A} (S S' : InsvFrameProvider -> Prop)
      (Q Q' : Outcome A -> InsvFrameProvider -> Prop) (t : Task A) :
  (forall p, S p -> S' p) -> (forall o p, Q o p -> Q' o p) ->
  settles S Q t -> settles S' Q' t.
Proof.
  intros HS HQ. induction t as [o p | R c p k IH]; simpl.
  - apply HQ.
  - intros [Hp Hk]. split; [now apply HS | intro r; apply IH, Hk].
Qed.

Lemma settles_bindT {A B} S (Q : Outcome B -> InsvFrameProvider -> Prop)
      (t : Task A) (f : A -> Async B) :
  settles S (fun o p => match o with
                        | Resolved a => settles S Q (f a p)
                        | Rejected e => Q (Rejected e) p
                        end) t ->
  settles S Q (bindT t f).
Proof.
  induction t as [[a | e] p | R c p k IH]; simpl; auto.
  intros [Hp Hk]. split; [exact Hp | intro r; apply IH, Hk].
Qed.

Lemma settles_catchT {A} S (Q : Outcome A -> InsvFrameProvider -> Prop)
      (t : Task A) (h : JsError -> Async A) :
  settles S (fun o p => match o with
                        | Resolved a => Q (Resolved a) p
                        | Rejected e => settles S Q (h e p)
                        end) t ->
  settles S Q (catchT t h).
Proof.
  induction t as [[a | e] p | R c p k IH]; simpl; auto.
  intros [Hp Hk]. split; [exact Hp | intro r; apply IH, Hk].
Qed.

Lemma settles_finallyT {A} S (Q : Outcome A -> InsvFrameProvider -> Prop)
      (t : Task A) fin :
  settles S (fun o p => Q o (fin p)) t -> settles S Q (finallyT t fin).
Proof.
  induction t as [o p | R c p k IH]; simpl; auto.
  intros [Hp Hk]. split; [exact Hp | intro r; apply IH, Hk].
Qed.

(** What [settles] promises holds of every run... *)
Lemma settles_run {A} S (Q : Outcome A -> InsvFrameProvider -> Prop) (t : Task A) :
  settles S Q t ->
  forall env n tr o p, run t env n = (tr, o, p) -> Q o p.
Proof.
  induction t as [o0 p0 | R c p0 k IH]; simpl; intros H env n tr o p Hrun.
  - inversion Hrun; subst; exact H.
  - destruct H as [_ Hk].
    destruct (run (k (env n R c) p0) env (Datatypes.S n)) as [[tr' o'] p'] eqn:E.
    inversion Hrun; subst. eapply IH; eauto.
Qed.

(** ... and of every state in which the call can be found suspended. *)
Lemma settles_inflight {A} S (Q : Outcome A -> InsvFrameProvider -> Prop) (t : Task A) :
  settles S Q t -> forall p', inflight t p' -> S p'.
Proof.
  induction t as [o0 p0 | R c p0 k IH]; simpl; intros H p' Hin.
  - contradiction.
  - destruct H as [Hp Hk]. destruct Hin as [<- | [r Hr]]; [exact Hp|].
    eapply IH; eauto.
Qed.

(** Runs of composed calls. *)
Lemma run_bindT {A B} (t : Task A) (f : A -> Async B) env n :
  run (bindT t f) env n =
  let '(tr, o, p) := run t env n in
  match o with
  | Resolved a =>
      let '(tr2, o2, p2) := run (f a p) env (n + List.length tr) in
      ((tr ++ tr2)%list, o2, p2)
  | Rejected e => (tr, Rejected e, p)
  end.
Proof.
  revert n. induction t as [[a | e] p | R c p k IH]; intro n; simpl.
  - rewrite Nat.add_0_r. now destruct (run (f a p) env n) as [[? ?] ?].
  - reflexivity.
  - rewrite IH.
    destruct (run (k (env n R c) p) env (Datatypes.S n)) as [[tr o] p'].
    destruct o as [a | e]; [|reflexivity].
    simpl. rewrite Nat.add_succ_r.
    now destruct (run (f a p') env (Datatypes.S (n + List.length tr))) as [[? ?] ?].
Qed.

Lemma run_catchT {A} (t : Task A) (h : JsError -> Async A) env n :
  run (catchT t h) env n =
  let '(tr, o, p) := run t env n in
  match o with
  | Resolved a => (tr, Resolved a, p)
  | Rejected e =>
      let '(tr2, o2, p2) := run (h e p) env (n + List.length tr) in
      ((tr ++ tr2)%list, o2, p2)
  end.
Proof.
  revert n. induction t as [[a | e] p | R c p k IH]; intro n; simpl.
  - reflexivity.
  - rewrite Nat.add_0_r. now destruct (run (h e p) env n) as [[? ?] ?].
  - rewrite IH.
    destruct (run (k (env n R c) p) env (Datatypes.S n)) as [[tr o] p'].
    destruct o as [a | e]; [reflexivity|].
    simpl. rewrite Nat.add_succ_r.
    now destruct (run (h e p') env (Datatypes.S (n + List.length tr))) as [[? ?] ?].
Qed.

Lemma run_finallyT {A} (t : Task A) fin env n :
  run (finallyT t fin) env n =
  let '(tr, o, p) := run t env n in (tr, o, fin p).
Proof.
  revert n. induction t as [o p | R c p k IH]; intro n; simpl.
  - reflexivity.
  - rewrite IH.
    now destruct (run (k (env n R c) p) env (Datatypes.S n)) as [[tr o] p'].
Qed.

(** *** Calls that leave an invariant of the provider alone *)

Section Preserves.

Variable P : InsvFrameProvider -> Prop.

Lemma preserves_ret {A} (a : A) : preserves P (ret a).
Proof. intros p Hp. exact Hp. Qed.

Lemma preserves_throw {A} e : preserves P (@throw A e).
Proof. intros p Hp. exact Hp. Qed.

Lemma preserves_this : preserves P this.
Proof. intros p Hp. exact Hp. Qed.

Lemma preserves_await {R} (c : Call R) : preserves P (await c).
Proof. intros p Hp. simpl. split; [exact Hp | intro r; exact Hp]. Qed.

Lemma preserves_assign f :
  (forall p, P p -> P (f p)) -> preserves P (assign f).
Proof. intros Hf p Hp. apply Hf, Hp. Qed.

Lemma preserves_bind {A B} (m : Async A) (f : A -> Async B) :
  preserves P m -> (forall a, preserves P (f a)) -> preserves P (bind m f).
Proof.
  intros Hm Hf p Hp. apply settles_bindT.
  eapply settles_weaken; [| | apply Hm, Hp]; [auto|].
  intros [a | e] p' Hp'; [apply Hf, Hp' | exact Hp'].
Qed.

Lemma preserves_try_catch {A} (m : Async A) h :
  preserves P m -> (forall e, preserves P (h e)) -> preserves P (try_catch m h).
Proof.
  intros Hm Hh p Hp. apply settles_catchT.
  eapply settles_weaken; [| | apply Hm, Hp]; [auto|].
  intros [a | e] p' Hp'; [exact Hp' | apply Hh, Hp'].
Qed.

Lemma preserves_on_ffmpeg {R} (m : FFmpeg -> Call R) : preserves P (on_ffmpeg m).
Proof.
  apply preserves_bind; [apply preserves_this|].
  intros p. destruct (ffmpeg p); [apply preserves_await | apply preserves_throw].
Qed.

Lemma preserves_on_source {R} (m : Source -> Async R) :
  (forall src, preserves P (m src)) -> preserves P (on_source m).
Proof.
  intro Hm. apply preserves_bind; [apply preserves_this|].
  intros p. destruct (source p); [apply Hm | apply preserves_throw].
Qed.

Lemma preserves_readImage f : preserves P (readImage f).
Proof.
  apply preserves_try_catch; [|intro; apply preserves_ret].
  apply preserves_bind; [apply preserves_on_ffmpeg|].
  intros [d | s]; [|apply preserves_ret].
  apply preserves_bind; [apply preserves_await | intro; apply preserves_ret].
Qed.

Lemma preserves_loadCore ff : preserves P (loadCore ff).
Proof.
  apply preserves_bind; [apply preserves_await | intro].
  apply preserves_bind; [apply preserves_await | intro].
  apply preserves_await.
Qed.

Lemma preserves_readBack : preserves P readBack.
Proof.
  apply preserves_bind; [apply preserves_readImage | intro b].
  apply preserves_bind.
  { apply preserves_try_catch; [apply preserves_on_ffmpeg | intro; apply preserves_ret]. }
  intro. destruct b; [apply preserves_ret | apply preserves_throw].
Qed.

(** [P] does not depend on which backend is mounted under which name. *)
Hypothesis P_set_name : forall v p, P p -> P (set_name v p).
Hypothesis P_new_FFmpeg :
  forall p, P p ->
    P (mkProvider (Some (allocated p)) (name p) (_isProcessing p) (source p)
                  (originalName p) (lastProcessedKey p)
                  (lastProcessedResult p) (Datatypes.S (allocated p))).

Lemma preserves_new_FFmpeg : preserves P new_FFmpeg.
Proof. intros p Hp. apply P_new_FFmpeg, Hp. Qed.

Lemma preserves_mountSource : preserves P mountSource.
Proof.
  apply preserves_bind; [apply preserves_this|]. intro p.
  destruct (ffmpeg p); [|apply preserves_ret].
  destruct (source p); [|apply preserves_ret].
  apply preserves_try_catch.
  - apply preserves_bind; [apply preserves_on_ffmpeg | intro].
    apply preserves_bind.
    { apply preserves_on_source. intro.
      apply preserves_bind; [apply preserves_this | intro; apply preserves_ret]. }
    intro. apply preserves_bind; [apply preserves_on_ffmpeg | intro].
    apply preserves_on_source. intro.
    apply preserves_bind; [apply preserves_this | intro].
    apply preserves_assign. intros; now apply P_set_name.
  - intro. apply preserves_bind.
    { apply preserves_on_source. intro. apply preserves_await. }
    intro. apply preserves_bind; [apply preserves_this | intro].
    apply preserves_bind; [apply preserves_on_ffmpeg | intro].
    apply preserves_bind; [apply preserves_this | intro].
    apply preserves_assign. intros; now apply P_set_name.
Qed.

Lemma preserves_reinit : preserves P reinit.
Proof.
  apply preserves_bind.
  { apply preserves_try_catch; [|intro; apply preserves_ret].
    apply preserves_bind; [apply preserves_this|]. intro p.
    destruct (ffmpeg p); [apply preserves_await | apply preserves_ret]. }
  intro. apply preserves_bind; [apply preserves_new_FFmpeg | intro].
  apply preserves_bind; [apply preserves_loadCore | intro].
  apply preserves_mountSource.
Qed.

Lemma preserves_reproject ff nm ts a w h :
  preserves P (reproject ff nm ts a w h).
Proof.
  apply preserves_try_catch.
  - apply preserves_bind; [apply preserves_await | intro; apply preserves_ret].
  - intro e. destruct (fatal e); [|apply preserves_ret].
    apply preserves_bind; [apply preserves_reinit | intro; apply preserves_throw].
Qed.

Lemma preserves_extract ff nm ts a w h :
  preserves P (extract ff nm ts a w h).
Proof.
  apply preserves_bind; [apply preserves_reproject | intro].
  apply preserves_readBack.
Qed.

End Preserves.

(** ** The frame provider *)

Lemma settles_any {A} (t : Task A) :
  settles (fun _ => True) (fun _ _ => True) t.
Proof. induction t as [o p | R c p k IH]; simpl; auto. Qed.

(** The four ways a [frameAt] call begins. *)
Lemma frameAt_not_loaded canvas ts a w h p :
  loaded p = false ->
  frameAt canvas ts a w h p = Done (Rejected (Error "FFmpeg not loaded")) p.
Proof.
  unfold loaded, frameAt, bind, this; simpl.
  destruct (ffmpeg p); [|reflexivity].
  destruct (name p) as [[|c nm]|]; simpl; try reflexivity; discriminate.
Qed.

Lemma frameAt_cached canvas ts a w h p r :
  loaded p = true -> cached p (cacheKey ts a w h) = Some r ->
  frameAt canvas ts a w h p = Done (Resolved r) p.
Proof.
  unfold loaded, frameAt, bind, this; simpl.
  destruct (ffmpeg p); [|discriminate].
  destruct (name p) as [[|c nm]|]; simpl; try discriminate.
  intros _ ->. reflexivity.
Qed.

Lemma frameAt_busy canvas ts a w h p :
  loaded p = true -> cached p (cacheKey ts a w h) = None ->
  _isProcessing p = true ->
  frameAt canvas ts a w h p = Done (Rejected (Error "FFmpeg is busy")) p.
Proof.
  unfold loaded, frameAt, bind, this; simpl.
  destruct (ffmpeg p); [|discriminate].
  destruct (name p) as [[|c nm]|]; simpl; try discriminate.
  intros _ -> ->. reflexivity.
Qed.

Lemma frameAt_starts canvas ts a w h p ff nm :
  ffmpeg p = Some ff -> name p = Some nm -> Js.falsy (Some nm) = false ->
  cached p (cacheKey ts a w h) = None -> _isProcessing p = false ->
  frameAt canvas ts a w h p =
  bindT (finallyT (catchT (extract ff nm ts a w h (set_isProcessing true p))
                          (fun e => throw e))
                  (set_isProcessing false))
        (encode canvas (cacheKey ts a w h) ts w h).
Proof.
  unfold frameAt, bind, this; simpl.
  intros -> -> Hnm -> ->. destruct nm; [discriminate|]. reflexivity.
Qed.

(** A [frameAt] call begins in one of these four ways. *)
Lemma frameAt_cases canvas ts a w h p :
  frameAt canvas ts a w h p = Done (Rejected (Error "FFmpeg not loaded")) p \/
  (exists r, loaded p = true /\ cached p (cacheKey ts a w h) = Some r /\
             frameAt canvas ts a w h p = Done (Resolved r) p) \/
  frameAt canvas ts a w h p = Done (Rejected (Error "FFmpeg is busy")) p \/
  (exists ff nm,
      ffmpeg p = Some ff /\ name p = Some nm /\ Js.falsy (Some nm) = false /\
      cached p (cacheKey ts a w h) = None /\ _isProcessing p = false /\
      frameAt canvas ts a w h p =
      bindT (finallyT (catchT (extract ff nm ts a w h (set_isProcessing true p))
                              (fun e => throw e))
                      (set_isProcessing false))
            (encode canvas (cacheKey ts a w h) ts w h)).
Proof.
  destruct (loaded p) eqn:Hl; [|left; now apply frameAt_not_loaded].
  destruct (cached p (cacheKey ts a w h)) as [r|] eqn:Hc.
  { right; left. exists r. now rewrite (frameAt_cached _ _ _ _ _ _ r). }
  destruct (_isProcessing p) eqn:Hb.
  { right; right; left. now apply frameAt_busy. }
  right; right; right. unfold loaded in Hl.
  destruct (ffmpeg p) as [ff|] eqn:Hff; [|discriminate].
  destruct (name p) as [nm|] eqn:Hnm; [|discriminate].
  exists ff, nm. apply negb_true_iff in Hl.
  repeat split; auto. now apply frameAt_starts.
Qed.

Lemma frameAt_suspensions canvas ts a w h p :
  settles (processing_since p) (fun _ _ => True) (frameAt canvas ts a w h p).
Proof.
  destruct (frameAt_cases canvas ts a w h p)
    as [-> | [(r & _ & _ & ->) | [-> | (ff & nm & Hff & Hnm & Hf & Hc & Hb & ->)]]];
    [exact I | exact I | exact I |].
  apply settles_bindT, settles_finallyT, settles_catchT.
  eapply settles_weaken;
    [ intros q Hq; exact Hq | |
      apply (preserves_extract (processing_since p)) ].
  - intros [b | e] q _; simpl; auto.
    unfold encode. destruct (canvas b w h); simpl; auto.
  - intros v q (H1 & H2 & H3). repeat split; simpl; auto; apply H3.
  - intros q (H1 & H2 & H3). repeat split; simpl; auto; try apply H3.
    discriminate.
  - repeat split; simpl; auto. rewrite Hff; discriminate.
Qed.

Lemma frameAt_inflight canvas ts a w h p p' :
  inflight (frameAt canvas ts a w h p) p' -> processing_since p p'.
Proof. apply settles_inflight with (Q := fun _ _ => True), frameAt_suspensions. Qed.

(** C1 (as amended).  While a [frameAt] call is in flight on a loaded
    provider, a second [frameAt] call settles at once, without awaiting
    anything and without touching the provider: with the cached frame when
    its key is the cached one, with the error 'FFmpeg is busy' otherwise. *)
Theorem second_frameAt_while_processing
        canvas ts1 a1 w1 h1 p p' ts2 a2 w2 h2 :
  inflight (frameAt canvas ts1 a1 w1 h1 p) p' ->
  loaded p' = true ->
  busy p' = true /\
  frameAt canvas ts2 a2 w2 h2 p' =
  match cached p' (cacheKey ts2 a2 w2 h2) with
  | Some r => Done (Resolved r) p'
  | None => Done (Rejected (Error "FFmpeg is busy")) p'
  end.
Proof.
  intros Hin Hl. apply frameAt_inflight in Hin. destruct Hin as (Hb & _ & _).
  split; [exact Hb|].
  destruct (cached p' (cacheKey ts2 a2 w2 h2)) as [r|] eqn:Hc.
  - now apply frameAt_cached.
  - now apply frameAt_busy.
Qed.

Lemma second_frameAt_while_processing_witness :
  busy Scenario.processing = true /\
  frameAt Scenario.canvas (5 # 2) Scenario.front 240 135 Scenario.processing =
  Done (Rejected (Error "FFmpeg is busy")) Scenario.processing.
Proof.
  apply (second_frameAt_while_processing
           Scenario.canvas 2 Scenario.left 240 135 Scenario.warm
           Scenario.processing (5 # 2) Scenario.front 240 135).
  - left. reflexivity.
  - reflexivity.
Defined.

(** C1 as stated fails: with the frame for (1.5, front, 240x135) cached and
    a call for another angle in flight, a second call for the cached key is
    not rejected as busy; it is served from the cache. *)
Lemma busy_rejection_counterexample :
  inflight (frameAt Scenario.canvas 2 Scenario.left 240 135 Scenario.warm)
           Scenario.processing /\
  loaded Scenario.processing = true /\
  busy Scenario.processing = true /\
  frameAt Scenario.canvas (3 # 2) Scenario.front 240 135 Scenario.processing =
    Done (Resolved Scenario.cached_frame) Scenario.processing /\
  frameAt Scenario.canvas (3 # 2) Scenario.front 240 135 Scenario.processing <>
    Done (Rejected (Error "FFmpeg is busy")) Scenario.processing.
Proof.
  split; [left; reflexivity|].
  split; [reflexivity|]. split; [reflexivity|].
  split; [reflexivity | discriminate].
Qed.

(** A run of [frameAt] that reaches the backend is a run of [extract] on
    the provider flagged busy, the flag cleared, then [encode]. *)
Lemma frameAt_run canvas ts a w h p ff nm env n :
  ffmpeg p = Some ff -> name p = Some nm -> Js.falsy (Some nm) = false ->
  cached p (cacheKey ts a w h) = None -> _isProcessing p = false ->
  run (frameAt canvas ts a w h p) env n =
  let '(tr, o, q) := run (extract ff nm ts a w h (set_isProcessing true p)) env n in
  match o with
  | Resolved b =>
      match canvas b w h with
      | Resolved url =>
          (tr, Resolved (mkFrame ts url w h),
           set_lastProcessed (Some (cacheKey ts a w h))
                             (Some (mkFrame ts url w h))
                             (set_isProcessing false q))
      | Rejected e => (tr, Rejected e, set_isProcessing false q)
      end
  | Rejected e => (tr, Rejected e, set_isProcessing false q)
  end.
Proof.
  intros Hff Hnm Hf Hc Hb.
  rewrite (frameAt_starts _ _ _ _ _ _ ff nm) by assumption.
  rewrite run_bindT, run_finallyT, run_catchT.
  destruct (run (extract ff nm ts a w h (set_isProcessing true p)) env n)
    as [[tr o] q].
  destruct o as [b | e]; simpl.
  - unfold encode. destruct (canvas b w h); simpl; now rewrite app_nil_r.
  - now rewrite app_nil_r.
Qed.

(** [extract] only changes the provider on the way to a rejection. *)
Lemma extract_resolved ff nm ts a w h p :
  settles (fun _ => True)
          (fun o q => match o with Resolved _ => q = p | Rejected _ => True end)
          (extract ff nm ts a w h p).
Proof.
  unfold extract, bind. apply settles_bindT. simpl. split; [exact I|].
  assert (Hrest :
             settles (fun _ => True)
               (fun o q => match o with Resolved _ => q = p | Rejected _ => True end)
               (readBack p)).
  { eapply settles_weaken with (S := fun q => q = p) (Q := fun _ q => q = p).
    - auto.
    - intros [b | e] q Hq; auto.
    - now apply (preserves_readBack (fun q => q = p)). }
  intros [z | e]; simpl; [exact Hrest|].
  destruct (fatal e); simpl; [|exact Hrest].
  unfold bind. apply settles_bindT.
  eapply settles_weaken; [| | apply settles_any]; auto.
  intros [u | e'] q _; simpl; exact I.
Qed.

(** C2.  When [frameAt] has resolved with a frame, the same call on the
    provider as it was left resolves at once with that very frame: it awaits
    nothing, so the backend is not invoked again, and the provider is left
    as it is. *)
Theorem frameAt_idempotent canvas ts a w h p env n tr r p' :
  run (frameAt canvas ts a w h p) env n = (tr, Resolved r, p') ->
  frameAt canvas ts a w h p' = Done (Resolved r) p' /\
  forall env' n', run (frameAt canvas ts a w h p') env' n' = ([], Resolved r, p').
Proof.
  intro Hrun.
  assert (H : frameAt canvas ts a w h p' = Done (Resolved r) p');
    [|split; [exact H | intros; now rewrite H]].
  destruct (frameAt_cases canvas ts a w h p)
    as [E | [(r0 & Hl & Hc & E) | [E | (ff & nm & Hff & Hnm & Hf & Hc & Hb & _)]]].
  - rewrite E in Hrun. discriminate.
  - rewrite E in Hrun. inversion Hrun; subst. exact E.
  - rewrite E in Hrun. discriminate.
  - rewrite (frameAt_run _ _ _ _ _ _ ff nm) in Hrun by assumption.
    destruct (run (extract ff nm ts a w h (set_isProcessing true p)) env n)
      as [[tr1 o1] q] eqn:E.
    pose proof (settles_run _ _ _ (extract_resolved ff nm ts a w h _) _ _ _ _ _ E) as Hq.
    destruct o1 as [b | e]; [|discriminate].
    destruct (canvas b w h) as [url | e]; [|discriminate].
    inversion Hrun; subst. apply frameAt_cached.
    + unfold loaded; simpl. rewrite Hff, Hnm, Hf. reflexivity.
    + unfold cached; simpl. now rewrite String.eqb_refl.
Qed.

Lemma frameAt_idempotent_witness :
  frameAt Scenario.canvas (3 # 2) Scenario.front 240 135 Scenario.warm =
    Done (Resolved Scenario.cached_frame) Scenario.warm /\
  forall env' n',
    run (frameAt Scenario.canvas (3 # 2) Scenario.front 240 135 Scenario.warm) env' n' =
    ([], Resolved Scenario.cached_frame, Scenario.warm).
Proof.
  apply (frameAt_idempotent Scenario.canvas (3 # 2) Scenario.front 240 135
                            Scenario.ready Scenario.all_ok 0
                            (fst (fst (run (frameAt Scenario.canvas (3 # 2) Scenario.front
                                                    240 135 Scenario.ready)
                                           Scenario.all_ok 0)))).
  vm_compute. reflexivity.
Defined.

(** C4.  A [frameAt] call that ends in an error leaves [lastProcessedKey]
    and [lastProcessedResult] as they were when it began. *)
Theorem failed_frameAt_keeps_cache canvas ts a w h p env n tr e p' :
  run (frameAt canvas ts a w h p) env n = (tr, Rejected e, p') ->
  lastProcessedKey p' = lastProcessedKey p /\
  lastProcessedResult p' = lastProcessedResult p.
Proof.
  intro Hrun.
  destruct (frameAt_cases canvas ts a w h p)
    as [E | [(r0 & Hl & Hc & E) | [E | (ff & nm & Hff & Hnm & Hf & Hc & Hb & _)]]].
  - rewrite E in Hrun. inversion Hrun; subst. now split.
  - rewrite E in Hrun. discriminate.
  - rewrite E in Hrun. inversion Hrun; subst. now split.
  - rewrite (frameAt_run _ _ _ _ _ _ ff nm) in Hrun by assumption.
    destruct (run (extract ff nm ts a w h (set_isProcessing true p)) env n)
      as [[tr1 o1] q] eqn:E.
    assert (Hq : same_cache p q).
    { refine (settles_run _ _ _ (preserves_extract (same_cache p) _ _
                                   ff nm ts a w h _ _) _ _ _ _ _ E).
      - intros v q' Hq'. exact Hq'.
      - intros q' Hq'. exact Hq'.
      - split; reflexivity. }
    destruct o1 as [b | e1].
    + destruct (canvas b w h) as [url | e2]; [discriminate|].
      inversion Hrun; subst. exact Hq.
    + inversion Hrun; subst. exact Hq.
Qed.

(** *** Which promises a call awaits *)

Lemma awaits_only_bindT {A B} C (t : Task A) (f : A -> Async B) :
  awaits_only C t -> (forall a p, awaits_only C (f a p)) ->
  awaits_only C (bindT t f).
Proof.
  intros Ht Hf. induction t as [[a | e] p | R c p k IH]; simpl; auto.
  destruct Ht as [Hc Hk]. split; [exact Hc | intros r p'; apply IH, Hk].
Qed.

Lemma awaits_only_catchT {A} C (t : Task A) (h : JsError -> Async A) :
  awaits_only C t -> (forall e p, awaits_only C (h e p)) ->
  awaits_only C (catchT t h).
Proof.
  intros Ht Hh. induction t as [[a | e] p | R c p k IH]; simpl; auto.
  destruct Ht as [Hc Hk]. split; [exact Hc | intros r p'; apply IH, Hk].
Qed.

Lemma awaits_only_run {A} C (t : Task A) :
  awaits_only C t ->
  forall env n tr o p, run t env n = (tr, o, p) ->
                       Forall (fun c => C _ (projT2 c)) tr.
Proof.
  induction t as [o0 p0 | R c p0 k IH]; simpl; intros H env n tr o p Hrun.
  - inversion Hrun; subst; constructor.
  - destruct H as [Hc Hk].
    destruct (run (k (env n R c) p0) env (S n)) as [[tr' o'] p'] eqn:E.
    inversion Hrun; subst. constructor; [exact Hc | eapply IH; eauto].
Qed.

Section Issues.

Variable C : forall R, Call R -> Prop.

Lemma issues_ret {A} (a : A) : issues C (ret a).
Proof. intro p; exact I. Qed.

Lemma issues_throw {A} e : issues C (@throw A e).
Proof. intro p; exact I. Qed.

Lemma issues_this : issues C this.
Proof. intro p; exact I. Qed.

Lemma issues_assign f : issues C (assign f).
Proof. intro p; exact I. Qed.

Lemma issues_new_FFmpeg : issues C new_FFmpeg.
Proof. intro p; exact I. Qed.

Lemma issues_await {R} (c : Call R) : C _ c -> issues C (await c).
Proof. intros Hc p. simpl. split; [exact Hc | intros; exact I]. Qed.

Lemma issues_bind {A B} (m : Async A) (f : A -> Async B) :
  issues C m -> (forall a, issues C (f a)) -> issues C (bind m f).
Proof. intros Hm Hf p. apply awaits_only_bindT; [apply Hm | intros; apply Hf]. Qed.

Lemma issues_try_catch {A} (m : Async A) h :
  issues C m -> (forall e, issues C (h e)) -> issues C (try_catch m h).
Proof. intros Hm Hh p. apply awaits_only_catchT; [apply Hm | intros; apply Hh]. Qed.

Lemma issues_on_ffmpeg {R} (m : FFmpeg -> Call R) :
  (forall ff, C _ (m ff)) -> issues C (on_ffmpeg m).
Proof.
  intro Hm. apply issues_bind; [apply issues_this|]. intro p.
  destruct (ffmpeg p); [apply issues_await, Hm | apply issues_throw].
Qed.

Lemma issues_on_source {R} (m : Source -> Async R) :
  (forall src, issues C (m src)) -> issues C (on_source m).
Proof.
  intro Hm. apply issues_bind; [apply issues_this|]. intro p.
  destruct (source p); [apply Hm | apply issues_throw].
Qed.

End Issues.

Lemma reinit_issues : issues (@reinit_call) reinit.
Proof.
  apply issues_bind.
  { apply issues_try_catch; [|intro; apply issues_ret].
    apply issues_bind; [apply issues_this|]. intro p.
    destruct (ffmpeg p); [now apply issues_await | apply issues_ret]. }
  intro. apply issues_bind; [apply issues_new_FFmpeg | intro ff].
  apply issues_bind.
  { apply issues_bind; [now apply issues_await | intro].
    apply issues_bind; [now apply issues_await | intro].
    now apply issues_await. }
  intro. apply issues_bind; [apply issues_this|]. intro p.
  destruct (ffmpeg p); [|apply issues_ret].
  destruct (source p); [|apply issues_ret].
  apply issues_try_catch.
  - apply issues_bind; [now apply issues_on_ffmpeg | intro].
    apply issues_bind.
    { apply issues_on_source. intro.
      apply issues_bind; [apply issues_this | intro; apply issues_ret]. }
    intro. apply issues_bind; [now apply issues_on_ffmpeg | intro].
    apply issues_on_source. intro.
    apply issues_bind; [apply issues_this | intro; apply issues_assign].
  - intro. apply issues_bind.
    { apply issues_on_source. intro. now apply issues_await. }
    intro. apply issues_bind; [apply issues_this | intro].
    apply issues_bind; [now apply issues_on_ffmpeg | intro].
    apply issues_bind; [apply issues_this | intro; apply issues_assign].
Qed.

Lemma readBack_issues : issues (@readBack_call) readBack.
Proof.
  apply issues_bind.
  { apply issues_try_catch; [|intro; apply issues_ret].
    apply issues_bind; [now apply issues_on_ffmpeg|].
    intros [d | s]; [|apply issues_ret].
    apply issues_bind; [now apply issues_await | intro; apply issues_ret]. }
  intro b. apply issues_bind.
  { apply issues_try_catch; [now apply issues_on_ffmpeg | intro; apply issues_ret]. }
  intro. destruct b; [apply issues_ret | apply issues_throw].
Qed.

(** A run only consults the environment from its starting position on. *)
Lemma run_env_ext {A} (t : Task A) env env' n :
  (forall m R (c : Call R), (n <= m)%nat -> env m R c = env' m R c) ->
  run t env n = run t env' n.
Proof.
  revert n. induction t as [o p | R c p k IH]; intros n Henv; simpl; [reflexivity|].
  rewrite (Henv n R c (le_n n)).
  rewrite (IH (env' n R c) p (S n)); [reflexivity|].
  intros m R' c' Hm. apply Henv. lia.
Qed.

(** *** Runs of the pieces of [frameAt] *)

Lemma reproject_run ff nm ts a w h p env n :
  run (reproject ff nm ts a w h p) env n =
  match env n _ (Exec ff (args ts nm a w h)) with
  | Resolved _ => ([anyCall (Exec ff (args ts nm a w h))], Resolved tt, p)
  | Rejected e =>
      if fatal e
      then let '(tr, o, q) := run (reinit p) env (S n) in
           (anyCall (Exec ff (args ts nm a w h)) :: tr,
            Rejected (match o with Resolved _ => e | Rejected e' => e' end), q)
      else ([anyCall (Exec ff (args ts nm a w h))], Resolved tt, p)
  end.
Proof.
  unfold reproject, try_catch, bind, await, ret. simpl.
  destruct (env n Z (Exec ff (args ts nm a w h))) as [z | e]; simpl; [reflexivity|].
  destruct (fatal e); simpl; [|reflexivity].
  rewrite run_bindT.
  destruct (run (reinit p) env (S n)) as [[tr o] q].
  destruct o as [u | e']; simpl; [now rewrite app_nil_r | reflexivity].
Qed.

(** Reading the still back leaves the provider alone. *)
Lemma readBack_run_state p env n tr o q :
  run (readBack p) env n = (tr, o, q) -> q = p.
Proof.
  apply (settles_run (fun q => q = p) (fun _ q => q = p)).
  now apply (preserves_readBack (fun q => q = p)).
Qed.

Lemma readBack_run_failed p ff env n :
  ffmpeg p = Some ff -> read_fails env n ff ->
  exists tr,
    run (readBack p) env n =
      (anyCall (ReadFile ff outName) :: tr,
       Rejected (Error "Failed to extract reprojected frame"), p) /\
    (tr = [anyCall (DeleteFile ff outName)] \/
     exists d, tr = [anyCall (CreateImageBitmap d); anyCall (DeleteFile ff outName)]).
Proof.
  intros Hff Hfail. unfold read_fails in Hfail.
  cbv [readBack readImage bind try_catch on_ffmpeg this await ret throw].
  simpl. rewrite Hff. simpl.
  destruct (env n FileData (ReadFile ff outName)) as [[d | s] | e]; simpl.
  - destruct (env (S n) ImageBitmap (CreateImageBitmap d)) as [b | e];
      [contradiction|]. simpl. rewrite Hff. simpl.
    eexists. split; [|right; exists d; reflexivity].
    now destruct (env (S (S n)) unit (DeleteFile ff outName)).
  - rewrite Hff. simpl.
    eexists. split; [|left; reflexivity].
    now destruct (env (S n) unit (DeleteFile ff outName)).
  - rewrite Hff. simpl.
    eexists. split; [|left; reflexivity].
    now destruct (env (S n) unit (DeleteFile ff outName)).
Qed.

Lemma reinit_settles p :
  settles (fun _ => True) (fun _ q => reinitialized p q) (reinit p).
Proof.
  assert (Hrest : forall u : unit,
             settles (fun _ => True) (fun _ q => reinitialized p q)
                     ((ff <- new_FFmpeg ;; loadCore ff ;; mountSource) p)).
  { intros _. unfold bind at 1, new_FFmpeg. cbn [bindT].
    eapply settles_weaken with (S := reinitialized p)
                               (Q := fun _ q => reinitialized p q); auto.
    apply (preserves_bind (reinitialized p)).
    - apply preserves_loadCore.
    - intro. apply preserves_mountSource.
      intros v q (H1 & H2 & H3 & H4 & H5 & H6). repeat split; simpl; auto; apply H4.
    - repeat split; reflexivity. }
  unfold reinit. unfold bind at 1. apply settles_bindT.
  cbv [try_catch bind this]. simpl.
  destruct (ffmpeg p); simpl; [|exact (Hrest tt)].
  split; [exact I|]. intros [u | e]; simpl; exact (Hrest tt).
Qed.

Lemma reinit_run_state p env n tr o q :
  run (reinit p) env n = (tr, o, q) -> reinitialized p q.
Proof. apply (settles_run _ _ _ (reinit_settles p)). Qed.

(** A reinitialization all of whose promises resolve: the old backend is
    terminated, the core is fetched and loaded into a new backend object and
    the source is mounted there again. *)
Lemma reinit_run_resolved p (env : Env) n ff src u1 u2 :
  ffmpeg p = Some ff -> source p = Some src ->
  env (1 + n)%nat _ (ToBlobURL (baseURL ++ "/ffmpeg-core.js") "text/javascript")
    = Resolved u1 ->
  env (2 + n)%nat _ (ToBlobURL (baseURL ++ "/ffmpeg-core.wasm") "application/wasm")
    = Resolved u2 ->
  env (3 + n)%nat _ (Load (allocated p) u1 u2) = Resolved tt ->
  env (4 + n)%nat _ (CreateDir (allocated p) "/mnt") = Resolved tt ->
  env (5 + n)%nat _ (Mount (allocated p) (mountConfig src (originalName p)) "/mnt")
    = Resolved tt ->
  run (reinit p) env n =
  ([ anyCall (Terminate ff);
     anyCall (ToBlobURL (baseURL ++ "/ffmpeg-core.js") "text/javascript");
     anyCall (ToBlobURL (baseURL ++ "/ffmpeg-core.wasm") "application/wasm");
     anyCall (Load (allocated p) u1 u2);
     anyCall (CreateDir (allocated p) "/mnt");
     anyCall (Mount (allocated p) (mountConfig src (originalName p)) "/mnt") ],
   Resolved tt,
   mkProvider (Some (allocated p))
              (Some ("/mnt/" ++ template (mountedAs src (originalName p))))
              (_isProcessing p) (source p) (originalName p)
              (lastProcessedKey p) (lastProcessedResult p) (S (allocated p))).
Proof.
  intros Hff Hsrc H1 H2 H3 H4 H5.
  cbv [reinit loadCore mountSource bind try_catch on_ffmpeg on_source this
       await ret throw assign new_FFmpeg].
  simpl in *. rewrite Hff. simpl.
  destruct (env n unit (Terminate ff)) as [[] | e]; simpl;
    rewrite H1; simpl; rewrite H2; simpl; rewrite H3; simpl;
    rewrite Hsrc; simpl; rewrite H4; simpl; rewrite H5; simpl;
    unfold set_name; simpl; try rewrite Hsrc; reflexivity.
Qed.

Lemma reinit_run_head p env n ff tr o q :
  ffmpeg p = Some ff -> run (reinit p) env n = (tr, o, q) ->
  exists tr', tr = anyCall (Terminate ff) :: tr'.
Proof.
  intros Hff. unfold reinit. unfold bind at 1. rewrite run_bindT.
  cbv [try_catch bind this await ret]. simpl. rewrite Hff. simpl.
  destruct (env n unit (Terminate ff)) as [[] | e]; simpl;
    match goal with
    | |- context [run ?t env ?m] => destruct (run t env m) as [[tr2 o2] q2]
    end;
    intros H; inversion H; subst; eexists; reflexivity.
Qed.

Lemma extract_run ff nm ts a w h p (env : Env) n :
  match env n _ (Exec ff (args ts nm a w h)) with
  | Resolved _ => True
  | Rejected e => fatal e = false
  end ->
  run (extract ff nm ts a w h p) env n =
  let '(tr, o, q) := run (readBack p) env (S n) in
  (anyCall (Exec ff (args ts nm a w h)) :: tr, o, q).
Proof.
  intro Hexec. unfold extract. unfold bind at 1.
  rewrite run_bindT, reproject_run.
  destruct (env n Z (Exec ff (args ts nm a w h))) as [z | e];
    [|rewrite Hexec]; simpl; rewrite Nat.add_1_r;
    now destruct (run (readBack p) env (S n)) as [[tr o] q].
Qed.

Lemma extract_run_fatal ff nm ts a w h p (env : Env) n e :
  env n _ (Exec ff (args ts nm a w h)) = Rejected e -> fatal e = true ->
  run (extract ff nm ts a w h p) env n =
  let '(tr, o, q) := run (reinit p) env (S n) in
  (anyCall (Exec ff (args ts nm a w h)) :: tr,
   Rejected (match o with Resolved _ => e | Rejected e' => e' end), q).
Proof.
  intros Hexec Hfatal. unfold extract. unfold bind at 1.
  rewrite run_bindT, reproject_run, Hexec, Hfatal.
  now destruct (run (reinit p) env (S n)) as [[tr o] q].
Qed.

(** C3 (as amended).  When the backend invocation of [frameAt] fails with
    a message containing 'out of bounds' or 'Aborted', the provider awaits a
    reinitialization and nothing else: it terminates the old backend first,
    never invokes [exec] again and never reads an output file; a new backend
    object replaces the old one.  If the reinitialization completes, the
    caller gets the original error; if the reinitialization itself fails,
    the caller gets that failure instead.  When every promise of the
    reinitialization resolves, it consists of terminating the old backend,
    fetching and loading the core into the new one and mounting the source
    there again. *)
Theorem fatal_exec_error_reinitializes canvas ts a w h p ff nm (env : Env) e :
  ffmpeg p = Some ff -> name p = Some nm -> Js.falsy (Some nm) = false ->
  cached p (cacheKey ts a w h) = None -> _isProcessing p = false ->
  env 0%nat _ (Exec ff (args ts nm a w h)) = Rejected e ->
  fatal e = true ->
  exists tr o q,
    run (reinit (set_isProcessing true p)) env 1 = (tr, o, q) /\
    run (frameAt canvas ts a w h p) env 0 =
      (anyCall (Exec ff (args ts nm a w h)) :: tr,
       Rejected (match o with Resolved _ => e | Rejected e' => e' end),
       set_isProcessing false q) /\
    Forall (fun c => reinit_call (projT2 c)) tr /\
    (exists tr', tr = anyCall (Terminate ff) :: tr') /\
    ffmpeg q = Some (allocated p) /\
    (forall src u1 u2,
        source p = Some src ->
        env 2%nat _ (ToBlobURL (baseURL ++ "/ffmpeg-core.js") "text/javascript")
          = Resolved u1 ->
        env 3%nat _ (ToBlobURL (baseURL ++ "/ffmpeg-core.wasm") "application/wasm")
          = Resolved u2 ->
        env 4%nat _ (Load (allocated p) u1 u2) = Resolved tt ->
        env 5%nat _ (CreateDir (allocated p) "/mnt") = Resolved tt ->
        env 6%nat _ (Mount (allocated p) (mountConfig src (originalName p)) "/mnt")
          = Resolved tt ->
        o = Resolved tt /\
        tr = [ anyCall (Terminate ff);
               anyCall (ToBlobURL (baseURL ++ "/ffmpeg-core.js") "text/javascript");
               anyCall (ToBlobURL (baseURL ++ "/ffmpeg-core.wasm") "application/wasm");
               anyCall (Load (allocated p) u1 u2);
               anyCall (CreateDir (allocated p) "/mnt");
               anyCall (Mount (allocated p) (mountConfig src (originalName p)) "/mnt") ] /\
        name q = Some ("/mnt/" ++ template (mountedAs src (originalName p)))).
Proof.
  intros Hff Hnm Hf Hc Hb Hexec Hfatal.
  destruct (run (reinit (set_isProcessing true p)) env 1) as [[tr o] q] eqn:E.
  exists tr, o, q. split; [reflexivity|]. split; [|split; [|split; [|split]]].
  - rewrite (frameAt_run _ _ _ _ _ _ ff nm) by assumption.
    rewrite (extract_run_fatal _ _ _ _ _ _ _ _ _ e) by assumption.
    rewrite E. reflexivity.
  - exact (awaits_only_run _ _ (reinit_issues _) _ _ _ _ _ E).
  - eapply reinit_run_head; [|exact E]. exact Hff.
  - apply reinit_run_state in E. apply E.
  - intros src u1 u2 Hsrc H2 H3 H4 H5 H6.
    rewrite (reinit_run_resolved _ env 1 ff src u1 u2) in E by assumption.
    inversion E; subst. auto.
Qed.

Lemma fatal_exec_error_reinitializes_witness :
  exists tr o q,
    run (reinit (set_isProcessing true Scenario.ready))
        (Scenario.exec_fails (Error "RuntimeError: Aborted()")) 1 = (tr, o, q) /\
    run (frameAt Scenario.canvas 2 Scenario.left 240 135 Scenario.ready)
        (Scenario.exec_fails (Error "RuntimeError: Aborted()")) 0 =
      (anyCall (Exec 0%nat (args 2 "/mnt/clip.insv" Scenario.left 240 135)) :: tr,
       Rejected (Error "RuntimeError: Aborted()"),
       set_isProcessing false q) /\
    Forall (fun c => reinit_call (projT2 c)) tr /\
    ffmpeg q = Some 1%nat /\
    o = Resolved tt /\
    tr = [ anyCall (Terminate 0%nat);
           anyCall (ToBlobURL (baseURL ++ "/ffmpeg-core.js") "text/javascript");
           anyCall (ToBlobURL (baseURL ++ "/ffmpeg-core.wasm") "application/wasm");
           anyCall (Load 1%nat ("blob:" ++ baseURL ++ "/ffmpeg-core.js")
                         ("blob:" ++ baseURL ++ "/ffmpeg-core.wasm"));
           anyCall (CreateDir 1%nat "/mnt");
           anyCall (Mount 1%nat (files [Scenario.video]) "/mnt") ] /\
    name q = Some "/mnt/clip.insv".
Proof.
  destruct (fatal_exec_error_reinitializes
              Scenario.canvas 2 Scenario.left 240 135 Scenario.ready 0%nat
              "/mnt/clip.insv"
              (Scenario.exec_fails (Error "RuntimeError: Aborted()"))
              (Error "RuntimeError: Aborted()"))
    as (tr & o & q & H1 & H2 & H3 & _ & H5 & H6); try reflexivity.
  destruct (H6 Scenario.video ("blob:" ++ baseURL ++ "/ffmpeg-core.js")
               ("blob:" ++ baseURL ++ "/ffmpeg-core.wasm"))
    as (Ho & Htr & Hname); try reflexivity.
  exists tr, o, q. rewrite Ho in H2.
  repeat split; assumption.
Defined.

(** C3 as stated fails: an 'out of bounds' failure of [exec] followed by a
    failure to load the backend again leaves the caller with the load error,
    not with the original one. *)
Lemma reinit_failure_counterexample :
  fatal (Error "RuntimeError: memory access out of bounds") = true /\
  Scenario.exec_fails_load_fails
    (Error "RuntimeError: memory access out of bounds")
    (Error "failed to import ffmpeg-core.js") 0%nat _
    (Exec 0%nat (args 2 "/mnt/clip.insv" Scenario.left 240 135))
  = Rejected (Error "RuntimeError: memory access out of bounds") /\
  snd (fst (run (frameAt Scenario.canvas 2 Scenario.left 240 135 Scenario.ready)
                (Scenario.exec_fails_load_fails
                   (Error "RuntimeError: memory access out of bounds")
                   (Error "failed to import ffmpeg-core.js")) 0))
  = Rejected (Error "failed to import ffmpeg-core.js") /\
  Error "failed to import ffmpeg-core.js"
  <> Error "RuntimeError: memory access out of bounds".
Proof.
  split; [reflexivity|]. split; [reflexivity|].
  split; [vm_compute; reflexivity | discriminate].
Qed.

Lemma failed_frameAt_keeps_cache_witness :
  lastProcessedKey Scenario.after_failure = lastProcessedKey Scenario.warm /\
  lastProcessedResult Scenario.after_failure = lastProcessedResult Scenario.warm.
Proof.
  apply (failed_frameAt_keeps_cache
           Scenario.canvas 2 Scenario.left 240 135 Scenario.warm
           (Scenario.exec_fails_no_output (Error "exec timed out")) 0
           (fst (fst (run (frameAt Scenario.canvas 2 Scenario.left 240 135 Scenario.warm)
                          (Scenario.exec_fails_no_output (Error "exec timed out")) 0)))
           (Error "Failed to extract reprojected frame")).
  vm_compute. reflexivity.
Defined.

(** C10.  When the backend invocation of [frameAt] fails with a message
    containing neither 'out of bounds' nor 'Aborted', the call goes on
    exactly as if the invocation had succeeded: its run is the run it has
    when [exec] resolves, so the exec error reaches nobody; it awaits, after
    [exec], only the read-back of the output file (no reinitialization) and
    keeps its backend object.  If then no still can be read back, the call
    fails with 'Failed to extract reprojected frame' and leaves the provider
    as it was. *)
Theorem nonfatal_exec_error_is_swallowed
        canvas ts a w h p ff nm (env : Env) e :
  ffmpeg p = Some ff -> name p = Some nm -> Js.falsy (Some nm) = false ->
  cached p (cacheKey ts a w h) = None -> _isProcessing p = false ->
  env 0%nat _ (Exec ff (args ts nm a w h)) = Rejected e ->
  fatal e = false ->
  (forall (env' : Env) z,
      env' 0%nat _ (Exec ff (args ts nm a w h)) = Resolved z ->
      (forall m R (c : Call R), (1 <= m)%nat -> env m R c = env' m R c) ->
      run (frameAt canvas ts a w h p) env 0 =
      run (frameAt canvas ts a w h p) env' 0) /\
  (exists tr o q,
      run (frameAt canvas ts a w h p) env 0 =
        (anyCall (Exec ff (args ts nm a w h)) :: tr, o, q) /\
      Forall (fun c => readBack_call (projT2 c)) tr /\
      ffmpeg q = Some ff /\ allocated q = allocated p) /\
  (read_fails env 1 ff ->
   exists tr,
     run (frameAt canvas ts a w h p) env 0 =
       (anyCall (Exec ff (args ts nm a w h)) :: anyCall (ReadFile ff outName) :: tr,
        Rejected (Error "Failed to extract reprojected frame"), p)).
Proof.
  intros Hff Hnm Hf Hc Hb Hexec Hfatal.
  assert (Hrun :
            run (frameAt canvas ts a w h p) env 0 =
            let '(tr, o, q) := run (readBack (set_isProcessing true p)) env 1 in
            match o with
            | Resolved b =>
                match canvas b w h with
                | Resolved url =>
                    (anyCall (Exec ff (args ts nm a w h)) :: tr,
                     Resolved (mkFrame ts url w h),
                     set_lastProcessed (Some (cacheKey ts a w h))
                                       (Some (mkFrame ts url w h))
                                       (set_isProcessing false q))
                | Rejected e' =>
                    (anyCall (Exec ff (args ts nm a w h)) :: tr, Rejected e',
                     set_isProcessing false q)
                end
            | Rejected e' =>
                (anyCall (Exec ff (args ts nm a w h)) :: tr, Rejected e',
                 set_isProcessing false q)
            end).
  { rewrite (frameAt_run _ _ _ _ _ _ ff nm) by assumption.
    rewrite extract_run by (rewrite Hexec; exact Hfatal).
    now destruct (run (readBack (set_isProcessing true p)) env 1) as [[tr o] q]. }
  split; [|split].
  - intros env' z Hexec' Hagree.
    rewrite Hrun.
    rewrite (frameAt_run _ _ _ _ _ _ ff nm) by assumption.
    rewrite extract_run by (now rewrite Hexec').
    rewrite (run_env_ext _ env env' 1 Hagree).
    now destruct (run (readBack (set_isProcessing true p)) env' 1) as [[tr o] q].
  - rewrite Hrun.
    destruct (run (readBack (set_isProcessing true p)) env 1) as [[tr o] q] eqn:E.
    pose proof (awaits_only_run _ _ (readBack_issues _) _ _ _ _ _ E) as Htr.
    apply readBack_run_state in E. subst q.
    destruct o as [b | e']; [destruct (canvas b w h) as [url | e']|];
      eexists _, _, _; (split; [reflexivity|]); auto.
  - intro Hread. rewrite Hrun.
    destruct (readBack_run_failed (set_isProcessing true p) ff env 1 Hff Hread)
      as (tr & -> & _).
    exists tr. f_equal. destruct p; simpl in *; subst; reflexivity.
Qed.

Lemma nonfatal_exec_error_is_swallowed_witness :
  run (frameAt Scenario.canvas 2 Scenario.left 240 135 Scenario.warm)
      (Scenario.exec_fails_no_output (Error "exec timed out")) 0 =
  run (frameAt Scenario.canvas 2 Scenario.left 240 135 Scenario.warm)
      (Scenario.exec_resolves
         (Scenario.exec_fails_no_output (Error "exec timed out"))) 0 /\
  (exists tr o q,
      run (frameAt Scenario.canvas 2 Scenario.left 240 135 Scenario.warm)
          (Scenario.exec_fails_no_output (Error "exec timed out")) 0 =
        (anyCall (Exec 0%nat (args 2 "/mnt/clip.insv" Scenario.left 240 135)) :: tr,
         o, q) /\
      Forall (fun c => readBack_call (projT2 c)) tr /\
      ffmpeg q = Some 0%nat /\ allocated q = allocated Scenario.warm) /\
  (exists tr,
     run (frameAt Scenario.canvas 2 Scenario.left 240 135 Scenario.warm)
         (Scenario.exec_fails_no_output (Error "exec timed out")) 0 =
       (anyCall (Exec 0%nat (args 2 "/mnt/clip.insv" Scenario.left 240 135))
          :: anyCall (ReadFile 0%nat outName) :: tr,
        Rejected (Error "Failed to extract reprojected frame"), Scenario.warm)).
Proof.
  destruct (nonfatal_exec_error_is_swallowed
              Scenario.canvas 2 Scenario.left 240 135 Scenario.warm 0%nat
              "/mnt/clip.insv"
              (Scenario.exec_fails_no_output (Error "exec timed out"))
              (Error "exec timed out")) as (Ha & Hb & Hc); try reflexivity.
  split; [|split; [exact Hb|]].
  - apply (Ha _ 0%Z); [reflexivity|].
    intros [|m] R c Hm; [inversion Hm | reflexivity].
  - apply Hc. vm_compute. exact I.
Defined.

(** *** The cache key *)

Lemma append_inv_l (s a b : string) : s ++ a = s ++ b -> a = b.
Proof. induction s as [|c s IH]; simpl; [auto | intros [= H]; auto]. Qed.

Lemma length_append (a b : string) :
  String.length (a ++ b) = (String.length a + String.length b)%nat.
Proof. induction a as [|c a IH]; simpl; [reflexivity | now rewrite IH]. Qed.

Lemma append_inv_r (a b s : string) : a ++ s = b ++ s -> a = b.
Proof.
  revert b. induction a as [|c a IH]; intros [|c' b] H; simpl in H.
  - reflexivity.
  - apply (f_equal String.length) in H. simpl in H. rewrite length_append in H. lia.
  - apply (f_equal String.length) in H. simpl in H. rewrite length_append in H. lia.
  - injection H as -> H. f_equal. now apply IH.
Qed.

Lemma string_of_Z_inj (x y : Z) : Js.string_of_Z x = Js.string_of_Z y -> x = y.
Proof.
  unfold Js.string_of_Z. intro H.
  assert (Hn : forall z, Z.to_int z <> Decimal.Pos Decimal.Nil /\
                         Z.to_int z <> Decimal.Neg Decimal.Nil).
  { intros [|p|p]; simpl; split; try discriminate;
      intros [= E]; now apply (DecimalPos.Unsigned.to_uint_nonnil p). }
  apply DecimalZ.to_int_inj.
  assert (E : Some (Z.to_int x) = Some (Z.to_int y)).
  { rewrite <- (NilZero.isi (Z.to_int x)), <- (NilZero.isi (Z.to_int y));
      try apply Hn. now rewrite H. }
  now injection E.
Qed.

Lemma substring_split k s :
  (k <= String.length s)%nat ->
  substring 0 k s ++ substring k (String.length s - k) s = s.
Proof.
  revert k. induction s as [|c s IH]; intros [|k] H; simpl in *; try lia.
  - reflexivity.
  - f_equal. clear. induction s; simpl; [reflexivity | now f_equal].
  - f_equal. apply IH. lia.
Qed.

Lemma substring_length k f s :
  (k + f <= String.length s)%nat -> String.length (substring k f s) = f.
Proof.
  revert k f. induction s as [|c s IH]; intros [|k] [|f] H; simpl in *; try lia.
  - f_equal. apply (IH 0%nat). simpl. lia.
  - apply IH. lia.
  - apply IH. lia.
Qed.

Lemma append_inj_length a a' b b' :
  String.length a = String.length a' -> a ++ b = a' ++ b' -> a = a' /\ b = b'.
Proof.
  revert a'. induction a as [|c a IH]; intros [|c' a'] Hl H; simpl in *; try lia.
  - now split.
  - injection H as -> H. destruct (IH a') as [-> ->]; auto.
Qed.

Lemma length_zeros k : String.length (Js.zeros k) = k.
Proof. induction k; simpl; auto. Qed.

Lemma padded_length f m : (f + 1 <= String.length (Js.padded f m))%nat.
Proof.
  unfold Js.padded. destruct (Nat.leb_spec (String.length m) f).
  - rewrite length_append, length_zeros. lia.
  - lia.
Qed.

Lemma place_point_inj f m1 m2 :
  f <> 0%nat -> Js.place_point f m1 = Js.place_point f m2 -> Js.padded f m1 = Js.padded f m2.
Proof.
  intros Hf. unfold Js.place_point.
  destruct (Nat.eqb_spec f 0); [contradiction|].
  fold (Js.padded f m1). fold (Js.padded f m2).
  pose proof (padded_length f m1) as L1. pose proof (padded_length f m2) as L2.
  set (p1 := Js.padded f m1) in *. set (p2 := Js.padded f m2) in *.
  intro H.
  assert (B1 : String.length (substring (String.length p1 - f) f p1) = f)
    by (apply substring_length; lia).
  assert (B2 : String.length (substring (String.length p2 - f) f p2) = f)
    by (apply substring_length; lia).
  assert (A1 : String.length (substring 0 (String.length p1 - f) p1) = (String.length p1 - f)%nat)
    by (apply substring_length; lia).
  assert (A2 : String.length (substring 0 (String.length p2 - f) p2) = (String.length p2 - f)%nat)
    by (apply substring_length; lia).
  assert (Hlen : String.length p1 = String.length p2).
  { apply (f_equal String.length) in H. rewrite !length_append in H. simpl in H.
    rewrite A1, A2, B1, B2 in H. lia. }
  apply append_inj_length in H; [|rewrite A1, A2, Hlen; reflexivity].
  destruct H as [HA HB]. injection HB as HB.
  rewrite <- (substring_split (String.length p1 - f) p1) by lia.
  rewrite <- (substring_split (String.length p2 - f) p2) by lia.
  replace (String.length p1 - (String.length p1 - f))%nat with f by lia.
  replace (String.length p2 - (String.length p2 - f))%nat with f by lia.
  now rewrite HA, HB.
Qed.

Lemma denoted_zeros k s : Js.denoted (Js.zeros k ++ s) = Js.denoted s.
Proof.
  induction k as [|k IH]; [reflexivity|].
  unfold Js.denoted in *. simpl.
  destruct (NilEmpty.uint_of_string (Js.zeros k ++ s)) as [d|];
    destruct (NilEmpty.uint_of_string s) as [d'|]; simpl in *; congruence.
Qed.

Lemma denoted_digits n : Js.denoted (Js.digits n) = Some (Z.to_N n).
Proof.
  unfold Js.denoted, Js.digits, NilZero.string_of_uint.
  destruct (N.to_uint (Z.to_N n)) eqn:E;
    try (rewrite <- E, NilEmpty.usu; simpl; now rewrite DecimalN.Unsigned.of_to).
  exfalso. destruct (Z.to_N n); simpl in E; [discriminate|].
  revert E. apply DecimalPos.Unsigned.to_uint_nonnil.
Qed.

Lemma denoted_padded f n : Js.denoted (Js.padded f (Js.digits n)) = Some (Z.to_N n).
Proof.
  unfold Js.padded. destruct (Nat.leb _ _); [rewrite denoted_zeros|]; apply denoted_digits.
Qed.

Lemma scaled_nonneg f (x : Q) : (0 <= x)%Q -> (0 <= Js.scaled f x)%Z.
Proof.
  intro H. unfold Js.scaled. change 0%Z with (Qfloor 0). apply Qfloor_resp_le.
  assert (0 <= x * inject_Z (10 ^ Z.of_nat f))%Q.
  { apply Qmult_le_0_compat; [exact H|].
    change 0%Q with (inject_Z 0). rewrite <- Zle_Qle. apply Z.pow_nonneg. lia. }
  Lqa.lra.
Qed.

(** On non-negative numbers [toFixed(f)] tells apart exactly the numbers
    whose roundings to [f] decimals differ. *)
Lemma toFixed_inj f (x y : Q) :
  f <> 0%nat -> (0 <= x)%Q -> (0 <= y)%Q ->
  Js.toFixed f x = Js.toFixed f y -> Js.scaled f x = Js.scaled f y.
Proof.
  intros Hf Hx Hy. unfold Js.toFixed.
  destruct (Qlt_le_dec x 0) as [Hlt | _]; [exfalso; revert Hlt; now apply Qle_not_lt|].
  destruct (Qlt_le_dec y 0) as [Hlt | _]; [exfalso; revert Hlt; now apply Qle_not_lt|].
  intro H. apply place_point_inj in H; [|exact Hf].
  apply (f_equal Js.denoted) in H. rewrite !denoted_padded in H.
  injection H as H. apply scaled_nonneg with (f := f) in Hx, Hy. lia.
Qed.

Lemma cacheKey_differs q q' :
  differs_in_one q q' -> keyOf q <> keyOf q'.
Proof.
  unfold keyOf, cacheKey.
  destruct q as [t [pi ya ro] w h], q' as [t' [pi' ya' ro'] w' h']; simpl.
  intros [Hd E1 E2 E3 | Hd E1 E2 E3 E4 E5 | Hd E1 E2 E3 E4 E5
          | Hd E1 E2 E3 E4 E5 | Hd E1 E2 E3 | Hd E1 E2 E3] K;
    simpl in *; apply Hd; clear Hd;
    repeat match goal with
           | H : mkAngle _ _ _ = mkAngle _ _ _ |- _ => injection H as ? ? ?
           end;
    subst;
    repeat match goal with
           | H : Js.toFixed 3 _ = Js.toFixed 3 _ |- _ => rewrite H in K; clear H
           end.
  - now apply append_inv_r in K.
  - apply append_inv_l in K. injection K as K.
    apply append_inv_r in K. now apply string_of_Z_inj.
  - do 2 (apply append_inv_l in K; injection K as K).
    apply append_inv_r in K. now apply string_of_Z_inj.
  - do 3 (apply append_inv_l in K; injection K as K).
    apply append_inv_r in K. now apply string_of_Z_inj.
  - do 4 (apply append_inv_l in K; injection K as K).
    apply append_inv_r in K. now apply string_of_Z_inj.
  - do 5 (apply append_inv_l in K; injection K as K).
    now apply string_of_Z_inj.
Qed.

(** C5.  With a result cached under the key of a request, a request that
    differs from it in exactly one of timestamp (as rounded to 1 ms by
    [toFixed(3)]), pitch, yaw, roll, width and height has another key and
    misses the cache; on an idle provider the call goes on to invoke the
    backend for the new request.  The key depends on a (non-negative)
    timestamp only through its rounding to whole milliseconds: two keys
    that otherwise agree are equal exactly when the roundings are. *)
Theorem cache_key_sensitivity canvas p q q' ff nm :
  ffmpeg p = Some ff -> name p = Some nm -> Js.falsy (Some nm) = false ->
  lastProcessedKey p = Some (keyOf q) ->
  differs_in_one q q' ->
  keyOf q' <> keyOf q /\
  cached p (keyOf q') = None /\
  (_isProcessing p = false ->
   exists k,
     frameAt canvas (at_time q') (at_angle q') (out_width q') (out_height q') p =
     Await (Exec ff (args (at_time q') nm (at_angle q') (out_width q') (out_height q')))
           (set_isProcessing true p) k) /\
  (forall ts ts' a w h,
      0 <= ts -> 0 <= ts' ->
      (cacheKey ts a w h = cacheKey ts' a w h <->
       Js.scaled 3 ts = Js.scaled 3 ts')).
Proof.
  intros Hff Hnm Hf Hkey Hd.
  pose proof (cacheKey_differs q q' Hd) as Hne.
  assert (Hmiss : cached p (keyOf q') = None).
  { unfold cached. rewrite Hkey.
    destruct (String.eqb_spec (keyOf q) (keyOf q')); [contradiction | reflexivity]. }
  split; [congruence|]. split; [exact Hmiss|]. split.
  - intro Hb. eexists.
    rewrite (frameAt_starts _ _ _ _ _ _ ff nm) by assumption.
    cbv [extract reproject bind try_catch await]. simpl. reflexivity.
  - intros ts ts' a w h Hts Hts'. split.
    + unfold cacheKey. intro K. apply append_inv_r in K.
      now apply (toFixed_inj 3).
    + intro E. unfold cacheKey, Js.toFixed.
      destruct (Qlt_le_dec ts 0) as [Hlt | _];
        [exfalso; revert Hlt; apply Qle_not_lt, Hts|].
      destruct (Qlt_le_dec ts' 0) as [Hlt | _];
        [exfalso; revert Hlt; apply Qle_not_lt, Hts'|].
      now rewrite E.
Qed.

Lemma cache_key_sensitivity_witness :
  keyOf Scenario.turned_request <> keyOf Scenario.cached_request /\
  cached Scenario.warm (keyOf Scenario.turned_request) = None /\
  (exists k,
      frameAt Scenario.canvas (3 # 2) Scenario.left 240 135 Scenario.warm =
      Await (Exec 0%nat (args (3 # 2) "/mnt/clip.insv" Scenario.left 240 135))
            Scenario.processing k) /\
  cacheKey (15004 # 10000) Scenario.front 240 135 =
  cacheKey (3 # 2) Scenario.front 240 135.
Proof.
  destruct (cache_key_sensitivity
              Scenario.canvas Scenario.warm Scenario.cached_request
              Scenario.turned_request 0%nat "/mnt/clip.insv")
    as (H1 & H2 & H3 & H4); try reflexivity.
  - apply differs_yaw; try reflexivity. discriminate.
  - split; [exact H1|]. split; [exact H2|]. split.
    + apply H3. reflexivity.
    + apply (H4 (15004 # 10000) (3 # 2) Scenario.front 240%Z 135%Z);
        [discriminate | discriminate | reflexivity].
Defined.

(** ** Projection math *)

Section Rotation.
Import Projection.
Open Scope R_scope.

Lemma trig_one (a : R) : cos a * cos a + sin a * sin a = 1.
Proof. pose proof (sin2_cos2 a) as H. unfold Rsqr in H. lra. Qed.

Lemma Ry_is_rotation a : is_rotation (Ry a).
Proof.
  pose proof (trig_one a) as H.
  split; unfold mul, transpose, identity, det, dot, Ry; simpl;
    [repeat f_equal|]; nra.
Qed.

Lemma Rx_is_rotation a : is_rotation (Rx a).
Proof.
  pose proof (trig_one a) as H.
  split; unfold mul, transpose, identity, det, dot, Rx; simpl;
    [repeat f_equal|]; nra.
Qed.

Lemma Rz_is_rotation a : is_rotation (Rz a).
Proof.
  pose proof (trig_one a) as H.
  split; unfold mul, transpose, identity, det, dot, Rz; simpl;
    [repeat f_equal|]; nra.
Qed.

Lemma apply_mul a b v : apply (mul a b) v = apply a (apply b v).
Proof.
  destruct a as [[? ? ?] [? ? ?] [? ? ?]], b as [[? ? ?] [? ? ?] [? ? ?]], v.
  unfold apply, mul, transpose, dot; simpl. f_equal; ring.
Qed.

Lemma toRad_0 : toRad 0 = 0.
Proof. unfold toRad. field. Qed.

(** C6.  [rotateVec] applies the yaw rotation about the vertical axis,
    then the pitch rotation about the horizontal axis, then the roll
    rotation about the optical axis: it is the product Rz(roll) Rx(pitch)
    Ry(yaw) of the three standard rotation matrices applied to the vector,
    each of them orthogonal of determinant one; with all three angles zero
    it returns the vector itself (exactly so over the reals). *)
Theorem rotateVec_yaw_pitch_roll vx vy vz yawDeg pitchDeg rollDeg :
  rotateVec vx vy vz yawDeg pitchDeg rollDeg =
    rotate_spec (mkVec vx vy vz) yawDeg pitchDeg rollDeg /\
  rotateVec vx vy vz yawDeg pitchDeg rollDeg =
    apply (mul (Rz (toRad rollDeg)) (mul (Rx (toRad pitchDeg)) (Ry (toRad yawDeg))))
          (mkVec vx vy vz) /\
  is_rotation (Ry (toRad yawDeg)) /\
  is_rotation (Rx (toRad pitchDeg)) /\
  is_rotation (Rz (toRad rollDeg)) /\
  rotateVec vx vy vz 0 0 0 = mkVec vx vy vz.
Proof.
  assert (E : rotateVec vx vy vz yawDeg pitchDeg rollDeg =
              rotate_spec (mkVec vx vy vz) yawDeg pitchDeg rollDeg).
  { unfold rotateVec, rotate_spec, apply, dot, Rx, Ry, Rz; simpl.
    f_equal; ring. }
  split; [exact E|]. split.
  { rewrite E. unfold rotate_spec. now rewrite !apply_mul. }
  split; [apply Ry_is_rotation|]. split; [apply Rx_is_rotation|].
  split; [apply Rz_is_rotation|].
  unfold rotateVec. rewrite toRad_0, cos_0, sin_0. f_equal; ring.
Qed.

End Rotation.

Section Sampling.
Import Projection.
Open Scope Q_scope.

Lemma blend_comp p00 p10 p01 p11 dx dx' dy dy' :
  dx == dx' -> dy == dy' ->
  blend p00 p10 p01 p11 dx dy = blend p00 p10 p01 p11 dx' dy'.
Proof.
  intros Hx Hy. unfold blend, Math_round.
  destruct p00, p10, p01, p11; try reflexivity.
  f_equal. apply Qfloor_comp. now rewrite Hx, Hy.
Qed.

(** The sample depends on [u] only through [u - floor(u)] and on [v] only
    through its clamping to [0, 1]. *)
Lemma bilinearSample_comp img u u' v v' out o :
  u - inject_Z (Qfloor u) == u' - inject_Z (Qfloor u') ->
  Qmax 0 (Qmin 1 v) == Qmax 0 (Qmin 1 v') ->
  bilinearSample img u v out o = bilinearSample img u' v' out o.
Proof.
  intros Hu Hv. unfold bilinearSample. cbv zeta.
  set (U := u - inject_Z (Qfloor u)) in *.
  set (U' := u' - inject_Z (Qfloor u')) in *.
  set (V := Qmax 0 (Qmin 1 v)) in *.
  set (V' := Qmax 0 (Qmin 1 v')) in *.
  assert (Hx : Qfloor (U * inject_Z (width img - 1)) =
               Qfloor (U' * inject_Z (width img - 1)))
    by (apply Qfloor_comp; now rewrite Hu).
  assert (Hy : Qfloor (V * inject_Z (height img - 1)) =
               Qfloor (V' * inject_Z (height img - 1)))
    by (apply Qfloor_comp; now rewrite Hv).
  rewrite Hx, Hy. simpl fold_left.
  assert (Hdx : U * inject_Z (width img - 1)
                - inject_Z (Qfloor (U' * inject_Z (width img - 1)))
                == U' * inject_Z (width img - 1)
                   - inject_Z (Qfloor (U' * inject_Z (width img - 1))))
    by now rewrite Hu.
  assert (Hdy : V * inject_Z (height img - 1)
                - inject_Z (Qfloor (V' * inject_Z (height img - 1)))
                == V' * inject_Z (height img - 1)
                   - inject_Z (Qfloor (V' * inject_Z (height img - 1))))
    by now rewrite Hv.
  now rewrite !(blend_comp _ _ _ _ _ _ _ _ Hdx Hdy).
Qed.

Lemma Qfloor_add_Z (x : Q) (k : Z) : Qfloor (x + inject_Z k) = (Qfloor x + k)%Z.
Proof.
  pose proof (Qfloor_le x) as H1. pose proof (Qlt_floor x) as H2.
  pose proof (Qfloor_le (x + inject_Z k)) as H3.
  pose proof (Qlt_floor (x + inject_Z k)) as H4.
  rewrite inject_Z_plus in H2, H4. simpl in H2, H4.
  assert (A : inject_Z (Qfloor (x + inject_Z k)) < inject_Z (Qfloor x + k + 1)).
  { rewrite !inject_Z_plus. simpl.
    eapply Qle_lt_trans; [exact H3|]. Lqa.lra. }
  assert (B : inject_Z (Qfloor x + k) < inject_Z (Qfloor (x + inject_Z k) + 1)).
  { rewrite !inject_Z_plus. simpl.
    eapply Qle_lt_trans; [|exact H4]. Lqa.lra. }
  rewrite <- Zlt_Qlt in A, B. lia.
Qed.

Lemma wrap_period (u : Q) (k : Z) :
  (u + inject_Z k) - inject_Z (Qfloor (u + inject_Z k)) == u - inject_Z (Qfloor u).
Proof. rewrite Qfloor_add_Z, inject_Z_plus. ring. Qed.

Lemma wrap_range (u : Q) : 0 <= u - inject_Z (Qfloor u) /\ u - inject_Z (Qfloor u) < 1.
Proof.
  pose proof (Qfloor_le u) as H1. pose proof (Qlt_floor u) as H2.
  rewrite inject_Z_plus in H2. change (inject_Z 1) with 1 in H2.
  split; Lqa.lra.
Qed.

Lemma clamp_range (v : Q) : 0 <= Qmax 0 (Qmin 1 v) /\ Qmax 0 (Qmin 1 v) <= 1.
Proof.
  split; [apply Q.le_max_l|].
  apply Q.max_lub; [discriminate | apply Q.le_min_l].
Qed.

Lemma clamp_below (v : Q) : v <= 0 -> Qmax 0 (Qmin 1 v) == 0.
Proof.
  intro H. apply Q.max_l. eapply Qle_trans; [apply Q.le_min_r | exact H].
Qed.

Lemma clamp_above (v : Q) : 1 <= v -> Qmax 0 (Qmin 1 v) == 1.
Proof.
  intro H. rewrite (Q.min_l 1 v H). apply Q.max_r. discriminate.
Qed.

(** C7.  [bilinearSample] wraps [u] into [0, 1) as [u - floor(u)] and
    clamps [v] into [0, 1], and its result depends on the coordinates only
    through these: shifting [u] by a whole number changes nothing, so
    sampling at u = -0.001 gives what sampling at u = 0.999 gives; sampling
    at [v <= 0] gives what sampling at [v = 0] gives, and sampling at
    [1 <= v] what sampling at [v = 1] gives. *)
Theorem bilinearSample_wrap_and_clamp img u v out o :
  (0 <= u - inject_Z (Qfloor u) /\ u - inject_Z (Qfloor u) < 1) /\
  (0 <= Qmax 0 (Qmin 1 v) /\ Qmax 0 (Qmin 1 v) <= 1) /\
  (forall u' v',
      u - inject_Z (Qfloor u) == u' - inject_Z (Qfloor u') ->
      Qmax 0 (Qmin 1 v) == Qmax 0 (Qmin 1 v') ->
      bilinearSample img u v out o = bilinearSample img u' v' out o) /\
  (forall k : Z,
      bilinearSample img (u + inject_Z k) v out o = bilinearSample img u v out o) /\
  bilinearSample img (-1 # 1000) v out o = bilinearSample img (999 # 1000) v out o /\
  (v <= 0 -> bilinearSample img u v out o = bilinearSample img u 0 out o) /\
  (1 <= v -> bilinearSample img u v out o = bilinearSample img u 1 out o).
Proof.
  split; [apply wrap_range|]. split; [apply clamp_range|].
  split; [intros; now apply bilinearSample_comp|].
  split; [intro k; apply bilinearSample_comp; [apply wrap_period | reflexivity]|].
  split; [apply bilinearSample_comp; reflexivity|].
  split; intro H; (apply bilinearSample_comp; [reflexivity|]).
  - rewrite (clamp_below v H). reflexivity.
  - rewrite (clamp_above v H). reflexivity.
Qed.

End Sampling.

Lemma bilinearSample_wrap_and_clamp_witness :
  Projection.bilinearSample Scenario.checker (1 # 4) (-1 # 2) Scenario.blank 1 =
    Projection.bilinearSample Scenario.checker (1 # 4) 0 Scenario.blank 1 /\
  Projection.bilinearSample Scenario.checker (1 # 4) (3 # 2) Scenario.blank 1 =
    Projection.bilinearSample Scenario.checker (1 # 4) 1 Scenario.blank 1 /\
  Projection.bilinearSample Scenario.checker (-1 # 1000) (1 # 2) Scenario.blank 1 =
    Projection.bilinearSample Scenario.checker (999 # 1000) (1 # 2) Scenario.blank 1 /\
  Projection.bilinearSample Scenario.checker (1 # 4) (1 # 2) Scenario.blank 1 =
    Projection.bilinearSample Scenario.checker (-7 # 4) (1 # 2) Scenario.blank 1.
Proof.
  destruct (bilinearSample_wrap_and_clamp Scenario.checker (1 # 4) (-1 # 2)
                                          Scenario.blank 1)
    as (_ & _ & _ & _ & _ & Hlow & _).
  destruct (bilinearSample_wrap_and_clamp Scenario.checker (1 # 4) (3 # 2)
                                          Scenario.blank 1)
    as (_ & _ & _ & _ & _ & _ & Hhigh).
  destruct (bilinearSample_wrap_and_clamp Scenario.checker (1 # 4) (1 # 2)
                                          Scenario.blank 1)
    as (_ & _ & Hcomp & _ & Hseam & _).
  split; [apply Hlow; discriminate|].
  split; [apply Hhigh; discriminate|].
  split; [exact Hseam|].
  apply Hcomp; vm_compute; reflexivity.
Defined.

(** ** Binary64 rounding *)

Section Binary64.
Open Scope Q_scope.

Lemma pow2_pos (k : Z) : 0 < 2 ^ k.
Proof. apply Qpower_0_lt. reflexivity. Qed.

Lemma pow2_succ (k : Z) : 2 ^ (k + 1) == 2 * 2 ^ k.
Proof. rewrite Qpower_plus by discriminate. change (2 ^ 1) with 2. ring. Qed.

Lemma pow2_le (n m : Z) : (n <= m)%Z -> 2 ^ n <= 2 ^ m.
Proof. intro H. apply Qpower_le_compat_l; [exact H | discriminate]. Qed.

Lemma pow2_lt (n m : Z) : (n < m)%Z -> 2 ^ n < 2 ^ m.
Proof. intro H. apply Qpower_lt_compat_l; [exact H | reflexivity]. Qed.

Lemma pow2_Z (n : Z) : (0 <= n)%Z -> inject_Z (2 ^ n) == 2 ^ n.
Proof. intro H. apply (Zpower_Qpower 2 n H). Qed.

(** [ilog2] is the floor of the binary logarithm. *)
Lemma ilog2_spec (x : Q) :
  0 < x -> 2 ^ Js.ilog2 x <= x /\ x < 2 ^ (Js.ilog2 x + 1).
Proof.
  intros Hx. unfold Js.ilog2.
  destruct x as [a b]. cbn [Qnum Qden].
  assert (Ha : (0 < a)%Z) by (unfold Qlt in Hx; simpl in Hx; lia).
  pose proof (Z.log2_spec a Ha) as [A1 A2].
  pose proof (Z.log2_spec (Zpos b) (Pos2Z.is_pos b)) as [B1 B2].
  pose proof (Z.log2_nonneg a) as La. pose proof (Z.log2_nonneg (Zpos b)) as Lb.
  set (la := Z.log2 a) in *. set (lb := Z.log2 (Zpos b)) in *.
  assert (E : forall n m : Z, (0 <= n)%Z -> (0 <= m)%Z ->
                2 ^ (n - m) == inject_Z (2 ^ n) / inject_Z (2 ^ m)).
  { intros n m Hn Hm. rewrite Qpower_minus by discriminate.
    rewrite !pow2_Z by assumption. reflexivity. }
  assert (Q1 : forall n : Z, (0 <= n)%Z -> 0 < inject_Z (2 ^ n)).
  { intros n Hn. rewrite pow2_Z by exact Hn. apply pow2_pos. }
  assert (Lo : 2 ^ (la - lb - 1) <= a # b).
  { replace (la - lb - 1)%Z with (la - (lb + 1))%Z by ring.
    rewrite E by lia.
    apply Qle_shift_div_r; [apply Q1; lia|].
    replace (Z.succ lb) with (lb + 1)%Z in B2 by lia.
    set (P := (2 ^ la)%Z) in *. set (R := (2 ^ (lb + 1))%Z) in *.
    clearbody P R. unfold Qle, Qmult, inject_Z; simpl.
    rewrite ?Pos.mul_1_r. nia. }
  assert (Hi : a # b < 2 ^ (la - lb + 1)).
  { replace (la - lb + 1)%Z with ((la + 1) - lb)%Z by ring.
    rewrite E by lia.
    apply Qlt_shift_div_l; [apply Q1; lia|].
    replace (Z.succ la) with (la + 1)%Z in A2 by lia.
    set (P := (2 ^ (la + 1))%Z) in *. set (R := (2 ^ lb)%Z) in *.
    clearbody P R. unfold Qlt, Qmult, inject_Z; simpl.
    rewrite ?Pos.mul_1_r. nia. }
  destruct (Qle_bool (2 ^ (la - lb)) (a # b)) eqn:C.
  - apply Qle_bool_iff in C. split; assumption.
  - replace (la - lb - 1 + 1)%Z with (la - lb)%Z by ring. split; [exact Lo|].
    apply Qnot_le_lt. intro H. apply Qle_bool_iff in H. congruence.
Qed.

Lemma ilog2_unique (x : Q) (k : Z) :
  2 ^ k <= x -> x < 2 ^ (k + 1) -> Js.ilog2 x = k.
Proof.
  intros L U.
  assert (Hx : 0 < x) by (eapply Qlt_le_trans; [apply (pow2_pos k) | exact L]).
  destruct (ilog2_spec x Hx) as [L' U'].
  assert (A : (Js.ilog2 x < k + 1)%Z).
  { apply (Qpower_lt_compat_l_inv 2); [|reflexivity].
    eapply Qle_lt_trans; [exact L' | exact U]. }
  assert (B : (k < Js.ilog2 x + 1)%Z).
  { apply (Qpower_lt_compat_l_inv 2); [|reflexivity].
    eapply Qle_lt_trans; [exact L | exact U']. }
  lia.
Qed.

Lemma ilog2_comp (x y : Q) : 0 < x -> x == y -> Js.ilog2 x = Js.ilog2 y.
Proof.
  intros Hx E. symmetry.
  destruct (ilog2_spec x Hx) as [L U].
  apply ilog2_unique; rewrite <- E; assumption.
Qed.

Lemma ilog2_le (x : Q) (K : Z) : 0 < x -> x <= 2 ^ K -> (Js.ilog2 x <= K)%Z.
Proof.
  intros Hx H. destruct (ilog2_spec x Hx) as [L _].
  apply (Qpower_le_compat_l_inv 2); [|reflexivity].
  eapply Qle_trans; eassumption.
Qed.

Lemma ilog2_ge (x : Q) (K : Z) : 2 ^ K <= x -> (K <= Js.ilog2 x)%Z.
Proof.
  intros H.
  assert (Hx : 0 < x) by (eapply Qlt_le_trans; [apply (pow2_pos K) | exact H]).
  destruct (ilog2_spec x Hx) as [_ U].
  assert (A : (K < Js.ilog2 x + 1)%Z).
  { apply (Qpower_lt_compat_l_inv 2); [|reflexivity].
    eapply Qle_lt_trans; eassumption. }
  lia.
Qed.

Lemma nearest_even_error (y : Q) :
  Qabs (inject_Z (Js.nearest_even y) - y) <= 1 # 2.
Proof.
  unfold Js.nearest_even.
  pose proof (Qfloor_le y) as H1. pose proof (Qlt_floor y) as H2.
  rewrite inject_Z_plus in H2. change (inject_Z 1) with 1 in H2.
  apply Qabs_Qle_condition.
  destruct (Qcompare (y - inject_Z (Qfloor y)) (1 # 2)) eqn:C.
  - apply Qeq_alt in C. destruct (Z.even (Qfloor y));
      [|rewrite inject_Z_plus; change (inject_Z 1) with 1]; split; Lqa.lra.
  - apply Qlt_alt in C. split; Lqa.lra.
  - apply Qgt_alt in C. rewrite inject_Z_plus. change (inject_Z 1) with 1.
    split; Lqa.lra.
Qed.

Lemma nearest_even_nonneg (y : Q) : 0 <= y -> (0 <= Js.nearest_even y)%Z.
Proof.
  intro H. unfold Js.nearest_even.
  assert (F : (0 <= Qfloor y)%Z)
    by (change 0%Z with (Qfloor 0); now apply Qfloor_resp_le).
  destruct (Qcompare _ _); [destruct (Z.even _)| |]; lia.
Qed.

Lemma nearest_even_comp (y y' : Q) :
  y == y' -> Js.nearest_even y = Js.nearest_even y'.
Proof.
  intro E. unfold Js.nearest_even. rewrite (Qfloor_comp _ _ E).
  assert (C : Qcompare (y - inject_Z (Qfloor y')) (1 # 2)
              = Qcompare (y' - inject_Z (Qfloor y')) (1 # 2))
    by (rewrite E; reflexivity).
  rewrite C. reflexivity.
Qed.

Lemma binary64_value (x : Q) :
  ~ x == 0 ->
  Js.binary64 x ==
  inject_Z (Js.nearest_even (x / 2 ^ (Js.exponent x - 52))) * 2 ^ (Js.exponent x - 52).
Proof.
  intro H. unfold Js.binary64.
  destruct (Qeq_bool x 0) eqn:E; [apply Qeq_bool_iff in E; contradiction|].
  apply Qred_correct.
Qed.

Lemma binary64_0 (x : Q) : x == 0 -> Js.binary64 x = 0.
Proof.
  intro H. unfold Js.binary64. apply Qeq_bool_iff in H. now rewrite H.
Qed.

Lemma binary64_ulp_error (x : Q) :
  ~ x == 0 -> Qabs (Js.binary64 x - x) <= 2 ^ (Js.exponent x - 53).
Proof.
  intro H. rewrite (binary64_value x H).
  set (u := 2 ^ (Js.exponent x - 52)).
  assert (U : 0 < u) by apply pow2_pos.
  assert (E : inject_Z (Js.nearest_even (x / u)) * u - x
              == (inject_Z (Js.nearest_even (x / u)) - x / u) * u)
    by (field; intro Z; rewrite Z in U; discriminate).
  rewrite E, Qabs_Qmult, (Qabs_pos u) by (apply Qlt_le_weak, U).
  assert (S : u == 2 * 2 ^ (Js.exponent x - 53)).
  { unfold u. replace (Js.exponent x - 52)%Z with (Js.exponent x - 53 + 1)%Z by ring.
    apply pow2_succ. }
  pose proof (nearest_even_error (x / u)) as N.
  pose proof (pow2_pos (Js.exponent x - 53)) as P.
  pose proof (Qabs_nonneg (inject_Z (Js.nearest_even (x / u)) - x / u)) as D.
  set (d := Qabs (inject_Z (Js.nearest_even (x / u)) - x / u)) in *.
  set (p := 2 ^ (Js.exponent x - 53)) in *.
  clearbody d p u.
  assert (M : 0 <= ((1 # 2) - d) * p) by (apply Qmult_le_0_compat; Lqa.lra).
  Lqa.nra.
Qed.

(** Absolute error: up to [2 ^ K] a rounding moves a number by at most
    [2 ^ (K - 53)]. *)
Lemma binary64_error (x : Q) (K : Z) :
  (-1022 <= K)%Z -> Qabs x <= 2 ^ K -> Qabs (Js.binary64 x - x) <= 2 ^ (K - 53).
Proof.
  intros HK Hx.
  destruct (Qeq_dec x 0) as [Z | NZ].
  - rewrite (binary64_0 x Z), Z. apply Qlt_le_weak, pow2_pos.
  - eapply Qle_trans; [apply (binary64_ulp_error x NZ)|].
    apply pow2_le. unfold Js.exponent.
    assert (P : 0 < Qabs x).
    { destruct (Qlt_le_dec 0 (Qabs x)) as [P | P]; [exact P|].
      exfalso. apply NZ.
      pose proof (Qabs_nonneg x) as N.
      assert (A : Qabs x == 0) by Lqa.lra.
      apply Qabs_Qle_condition in P. Lqa.lra. }
    pose proof (ilog2_le (Qabs x) K P Hx). lia.
Qed.

(** Relative error: at and above [2 ^ -1022] a rounding moves a number by
    at most the fraction [2 ^ -53] of it. *)
Lemma binary64_relative_error (x : Q) :
  2 ^ (-1022) <= x -> Qabs (Js.binary64 x - x) <= 2 ^ (-53) * x.
Proof.
  intros Hx.
  assert (P : 0 < x) by (eapply Qlt_le_trans; [apply (pow2_pos (-1022)) | exact Hx]).
  assert (NZ : ~ x == 0) by (intro Z; rewrite Z in P; discriminate).
  eapply Qle_trans; [apply (binary64_ulp_error x NZ)|].
  unfold Js.exponent.
  assert (A : Js.ilog2 (Qabs x) = Js.ilog2 x).
  { apply ilog2_comp; [|apply Qabs_pos; Lqa.lra].
    rewrite Qabs_pos by Lqa.lra. exact P. }
  rewrite A.
  pose proof (ilog2_ge x (-1022) Hx) as G.
  rewrite Z.max_l by exact G.
  destruct (ilog2_spec x P) as [L _].
  replace (Js.ilog2 x - 53)%Z with (-53 + Js.ilog2 x)%Z by ring.
  rewrite Qpower_plus by discriminate.
  pose proof (pow2_pos (-53)).
  set (a := 2 ^ (-53)) in *. set (b := 2 ^ Js.ilog2 x) in *. Lqa.nra.
Qed.

Lemma binary64_nonneg (x : Q) : 0 <= x -> 0 <= Js.binary64 x.
Proof.
  intro H. destruct (Qeq_dec x 0) as [Z | NZ].
  - rewrite (binary64_0 x Z). apply Qle_refl.
  - rewrite (binary64_value x NZ).
    pose proof (pow2_pos (Js.exponent x - 52)) as U.
    apply Qmult_le_0_compat; [|apply Qlt_le_weak, U].
    change 0 with (inject_Z 0). rewrite <- Zle_Qle.
    apply nearest_even_nonneg. apply Qle_shift_div_l; [exact U | Lqa.lra].
Qed.

(** The rounding depends on the value only, and its result is in lowest
    terms. *)
Lemma binary64_comp (x y : Q) : x == y -> Js.binary64 x = Js.binary64 y.
Proof.
  intro E. unfold Js.binary64.
  assert (B : Qeq_bool x 0 = Qeq_bool y 0).
  { destruct (Qeq_bool x 0) eqn:X, (Qeq_bool y 0) eqn:Y; try reflexivity.
    - apply Qeq_bool_iff in X. rewrite E in X. apply Qeq_bool_iff in X. congruence.
    - apply Qeq_bool_iff in Y. rewrite <- E in Y. apply Qeq_bool_iff in Y. congruence. }
  rewrite <- B. destruct (Qeq_bool x 0) eqn:X; [reflexivity|].
  assert (NZ : ~ x == 0) by (intro Z; apply Qeq_bool_iff in Z; congruence).
  assert (P : 0 < Qabs x).
  { destruct (Qlt_le_dec 0 (Qabs x)) as [P | P]; [exact P|].
    exfalso. apply NZ. apply Qabs_Qle_condition in P. Lqa.lra. }
  assert (A : Qabs x == Qabs y) by (rewrite E; reflexivity).
  cbv zeta. unfold Js.exponent. rewrite <- (ilog2_comp (Qabs x) (Qabs y) P A).
  set (u := 2 ^ (Z.max (Js.ilog2 (Qabs x)) (-1022) - 52)).
  apply Qred_complete.
  rewrite (nearest_even_comp (x / u) (y / u)); [reflexivity|].
  rewrite E. reflexivity.
Qed.

End Binary64.

(** [Js.binary64] against the binary64 arithmetic of the machine, on
    quotients and sums the program forms: 333 / (6 / 17),
    0.999999 + 1e-6, 0.1 + 0.2, a tie (2^53 + 1), and a quotient in the
    subnormal range. *)
Lemma binary64_on_hardware :
  Js.Q_of_float
    (PrimFloat.div (Js.float_of 333 0)
                   (PrimFloat.div (Js.float_of 6 0) (Js.float_of 17 0)))
  = Some (Js.fdiv 333 (Js.fdiv 6 17)) /\
  Js.Q_of_float
    (PrimFloat.add (PrimFloat.div (Js.float_of 999999 0) (Js.float_of 1000000 0))
                   (PrimFloat.div (Js.float_of 1 0) (Js.float_of 1000000 0)))
  = Some (Js.fadd (Js.fdiv 999999 1000000) (Js.fdiv 1 1000000)) /\
  Js.Q_of_float
    (PrimFloat.add (PrimFloat.div (Js.float_of 1 0) (Js.float_of 10 0))
                   (PrimFloat.div (Js.float_of 2 0) (Js.float_of 10 0)))
  = Some (Js.fadd (Js.fdiv 1 10) (Js.fdiv 2 10)) /\
  Js.Q_of_float (PrimFloat.add (Js.float_of 1 53) (Js.float_of 1 0))
  = Some (Js.fadd (2 ^ 53) 1) /\
  Js.Q_of_float (PrimFloat.div (Js.float_of 3 (-1022)) (Js.float_of 1 52))
  = Some (Js.fdiv (3 * 2 ^ (-1022)) (2 ^ 52)).
Proof. repeat split; vm_compute; reflexivity. Qed.

(** ** The export loop *)

Section ExportTimes.
Import ExportJob.
Open Scope Q_scope.

Variables duration step : Q.

Lemma advanced_succ k t :
  advanced (S k) t step = advanced k (Js.fadd t step) step.
Proof. unfold advanced. now rewrite Nat.iter_succ_r. Qed.

(** When the loop condition holds for the first [m] values of the loop
    variable and fails for the next, the loop pushes exactly these [m]
    values, clamped, whatever fuel above [m] it is given. *)
Lemma times_from_exact m : forall fuel t,
  (m < fuel)%nat ->
  (forall j, (j < m)%nat -> advanced j t step <= Js.fadd duration epsilon) ->
  ~ advanced m t step <= Js.fadd duration epsilon ->
  times_from fuel t duration step =
  map (fun j => Qmin (advanced j t step) duration) (seq 0 m).
Proof.
  induction m as [|m IH]; intros [|fuel] t Hf Hin Hout; try lia; simpl.
  - destruct (Qle_bool t (Js.fadd duration epsilon)) eqn:E; [|reflexivity].
    apply Qle_bool_iff in E. contradiction.
  - assert (E : Qle_bool t (Js.fadd duration epsilon) = true)
      by (apply Qle_bool_iff, (Hin 0%nat); lia).
    rewrite E. f_equal. rewrite <- seq_shift, map_map.
    rewrite (IH fuel (Js.fadd t step)); [| lia | |].
    + apply map_ext. intro j. now rewrite advanced_succ.
    + intros j Hj. rewrite <- advanced_succ. apply Hin. lia.
    + now rewrite <- advanced_succ.
Qed.

End ExportTimes.

Lemma first_false (p : nat -> bool) (N : nat) :
  (forall j, (j < N)%nat -> p j = true) \/
  exists m, (m < N)%nat /\ p m = false /\ forall j, (j < m)%nat -> p j = true.
Proof.
  induction N as [|N [IH | (m & Hm & Hp & Hb)]].
  - left. intros j Hj. lia.
  - destruct (p N) eqn:E.
    + left. intros j Hj. destruct (Nat.eq_dec j N) as [-> | Hne]; [exact E|].
      apply IH. lia.
    + right. exists N. split; [lia|]. split; [exact E | exact IH].
  - right. exists m. split; [lia|]. split; assumption.
Qed.

Lemma epsilon_bounds : 0 < ExportJob.epsilon /\ ExportJob.epsilon <= 1 # 500000.
Proof. split; vm_compute; [reflexivity | discriminate]. Qed.

Lemma step_nonneg sps : 0 <= ExportJob.step sps.
Proof.
  unfold ExportJob.step, Js.fdiv. apply binary64_nonneg.
  assert (H : 1 <= Qmax 1 sps) by apply Q.le_max_l.
  apply Qle_shift_div_l; Lqa.lra.
Qed.

Lemma step_at_most sps : ExportJob.step sps <= 5 # 4.
Proof.
  unfold ExportJob.step, Js.fdiv.
  assert (H : 1 <= Qmax 1 sps) by apply Q.le_max_l.
  set (x := 1 / Qmax 1 sps).
  assert (X0 : 0 <= x) by (apply Qle_shift_div_l; Lqa.lra).
  assert (X1 : x <= 1) by (apply Qle_shift_div_r; Lqa.lra).
  pose proof (binary64_error x 0) as E.
  assert (A : Qabs x <= 2 ^ 0) by (rewrite Qabs_pos by exact X0; exact X1).
  specialize (E ltac:(lia) A).
  apply Qabs_diff_Qle_condition in E. destruct E as [E _].
  assert (P : 2 ^ (0 - 53) <= 1 # 4) by (vm_compute; discriminate).
  Lqa.lra.
Qed.

Section ExportRange.
Import ExportJob.
Open Scope Q_scope.

Variables duration step : Q.
Variable K : Z.
Hypothesis Hd : 0 < duration.
Hypothesis HK : duration + 3 <= 2 ^ K.
Hypothesis Hlo : 2 ^ (K - 52) <= step.
Hypothesis Hhi : step <= 5 # 4.

Let B := Js.fadd duration epsilon.
Let E := 2 ^ (K - 53).
Let t := fun k : nat => advanced k 0 step.

Lemma range_exponent : (2 <= K)%Z.
Proof.
  destruct (Z_le_gt_dec 2 K) as [H | H]; [exact H|]. exfalso.
  assert (P : 2 ^ K <= 2 ^ 1) by (apply pow2_le; lia).
  change (2 ^ 1) with 2 in P. Lqa.lra.
Qed.

Lemma range_half_step : 0 < E /\ 2 * E <= step.
Proof.
  split; [apply pow2_pos|]. unfold E.
  rewrite <- pow2_succ. replace (K - 53 + 1)%Z with (K - 52)%Z by ring. exact Hlo.
Qed.

Lemma range_bound : 0 <= B /\ B <= duration + 1.
Proof.
  destruct epsilon_bounds as [E0 E1]. destruct range_half_step as [E2 E3].
  pose proof range_exponent as HK2.
  split.
  - unfold B, Js.fadd. apply binary64_nonneg. Lqa.lra.
  - pose proof (binary64_error (duration + epsilon) K) as H.
    assert (A : Qabs (duration + epsilon) <= 2 ^ K)
      by (rewrite Qabs_pos by Lqa.lra; Lqa.lra).
    specialize (H ltac:(lia) A). fold E in H.
    apply Qabs_diff_Qle_condition in H. destruct H as [H _].
    unfold B, Js.fadd. Lqa.lra.
Qed.

Lemma range_step_error x :
  0 <= x -> x <= B -> Qabs (Js.fadd x step - (x + step)) <= E.
Proof.
  intros X0 X1. destruct range_bound as [_ B1]. destruct range_half_step as [E2 E3].
  pose proof range_exponent as HK2.
  apply binary64_error; [lia|].
  rewrite Qabs_pos by Lqa.lra. Lqa.lra.
Qed.

Lemma range_sums k :
  (forall j, (j < k)%nat -> t j <= B) ->
  0 <= t k /\
  Qabs (t k - inject_Z (Z.of_nat k) * step) <= inject_Z (Z.of_nat k) * E.
Proof.
  destruct range_half_step as [E2 E3].
  induction k as [|k IH]; intros Hb.
  - change (t 0%nat) with 0. change (inject_Z (Z.of_nat 0)) with 0.
    split; [apply Qle_refl|].
    apply Qabs_Qle_condition. split; Lqa.lra.
  - destruct IH as [T0 T1]; [intros j Hj; apply Hb; lia|].
    assert (Tb : t k <= B) by (apply Hb; lia).
    pose proof (range_step_error (t k) T0 Tb) as R.
    assert (S : t (S k) = Js.fadd (t k) step) by reflexivity.
    rewrite S. split.
    + unfold Js.fadd. apply binary64_nonneg. Lqa.lra.
    + rewrite Nat2Z.inj_succ. unfold Z.succ. rewrite inject_Z_plus.
      change (inject_Z 1) with 1.
      apply Qabs_Qle_condition in T1. apply Qabs_Qle_condition in R.
      apply Qabs_Qle_condition. split; Lqa.lra.
Qed.

(** In the range of the hypotheses every increment gains at least half a
    step, so the loop condition fails within [iterations] iterations. *)
Lemma range_terminates :
  exists m, (1 <= m)%nat /\ (S m < iterations duration step)%nat /\
            (forall j, (j < m)%nat -> t j <= B) /\ ~ t m <= B.
Proof.
  destruct range_half_step as [E2 E3]. destruct range_bound as [B0 B1].
  assert (S0 : 0 < step) by Lqa.lra.
  set (n := Z.to_nat (Qfloor (2 * B / step))).
  assert (F : (0 <= Qfloor (2 * B / step))%Z).
  { change 0%Z with (Qfloor 0). apply Qfloor_resp_le.
    apply Qle_shift_div_l; [exact S0 | Lqa.lra]. }
  destruct (first_false (fun j => Qle_bool (t j) B) (S (S n)))
    as [All | (m & Hm & Hp & Hb)].
  - exfalso.
    assert (Hb : forall j, (j < S n)%nat -> t j <= B)
      by (intros j Hj; apply Qle_bool_iff, All; lia).
    destruct (range_sums (S n) Hb) as [_ R].
    assert (Tn : t (S n) <= B) by (apply Qle_bool_iff, All; lia).
    apply Qabs_Qle_condition in R. destruct R as [R _].
    pose proof (Qlt_floor (2 * B / step)) as L.
    assert (N : inject_Z (Z.of_nat (S n)) == inject_Z (Qfloor (2 * B / step) + 1)).
    { unfold n. rewrite Nat2Z.inj_succ, Z2Nat.id by exact F. reflexivity. }
    rewrite <- N in L.
    assert (M : 2 * B < inject_Z (Z.of_nat (S n)) * step).
    { assert (Q : 2 * B == 2 * B / step * step)
        by (field; intro Z; rewrite Z in S0; discriminate).
      rewrite Q. apply (proj2 (Qmult_lt_r _ _ _ S0)). exact L. }
    set (c := inject_Z (Z.of_nat (S n))) in *.
    assert (C0 : 0 <= c)
      by (unfold c; change 0 with (inject_Z 0); rewrite <- Zle_Qle; lia).
    assert (P : 0 <= c * (step - 2 * E)) by (apply Qmult_le_0_compat; Lqa.lra).
    Lqa.nra.
  - exists m.
    assert (M1 : (1 <= m)%nat).
    { destruct m as [|m]; [|lia]. exfalso.
      assert (Z0 : Qle_bool (t 0%nat) B = true) by (apply Qle_bool_iff; exact B0).
      congruence. }
    split; [exact M1|]. split; [unfold iterations; fold B; fold n; lia|].
    split.
    + intros j Hj. apply Qle_bool_iff, Hb, Hj.
    + intro H. apply Qle_bool_iff in H. congruence.
Qed.

End ExportRange.

Lemma times_complete duration sps K :
  0 < duration -> duration + 3 <= 2 ^ K -> 2 ^ (K - 52) <= ExportJob.step sps ->
  exists m,
    (1 <= m)%nat /\
    ExportJob.times duration sps =
    map (fun k => Qmin (ExportJob.advanced k 0 (ExportJob.step sps)) duration)
        (seq 0 m) /\
    (forall j, (j < m)%nat ->
       ExportJob.advanced j 0 (ExportJob.step sps)
       <= Js.fadd duration ExportJob.epsilon) /\
    ~ ExportJob.advanced m 0 (ExportJob.step sps)
      <= Js.fadd duration ExportJob.epsilon /\
    forall k, (k <= m)%nat ->
      Qabs (ExportJob.advanced k 0 (ExportJob.step sps)
            - inject_Z (Z.of_nat k) * ExportJob.step sps)
      <= inject_Z (Z.of_nat k) * 2 ^ (K - 53).
Proof.
  intros Hd HK Hlo.
  destruct (range_terminates duration (ExportJob.step sps) K Hd HK Hlo
                             (step_at_most sps)) as (m & M1 & Mf & Hb & Hout).
  exists m. split; [exact M1|]. split; [|split; [exact Hb | split; [exact Hout|]]].
  - unfold ExportJob.times. apply times_from_exact; [lia | exact Hb | exact Hout].
  - intros k Hk.
    apply (range_sums duration (ExportJob.step sps) K Hd HK Hlo (step_at_most sps)).
    intros j Hj. apply Hb. lia.
Qed.

(** C8 (as amended).  For a positive duration the export visits the
    timestamps min(t_k, duration) for k = 0, 1, 2, ... as long as
    t_k <= duration + 1e-6, where t_0 = 0, t_(k+1) = t_k + step and
    step = 1 / max(1, samplesPerSecond), which is 1 / samplesPerSecond when
    samplesPerSecond is at least 1; sums and quotients are those of
    binary64 arithmetic.  The loop ends by its own condition once a sum
    exceeds the bound, whatever larger iteration bound it is given; it
    does so whenever duration + 3 <= 2^K and 2^(K-52) <= step for some K,
    and then t_k differs from k * step by at most k * 2^(K-53).  For a
    duration of 2 s, one sample per second and one camera the export
    visits exactly the three cells at 0, 1 and 2 s. *)
Theorem export_timestamps duration sps :
  0 < duration ->
  let step := ExportJob.step sps in
  let bound := Js.fadd duration ExportJob.epsilon in
  let t := fun k : nat => ExportJob.advanced k 0 step in
  step = Js.fdiv 1 (Qmax 1 sps) /\
  (1 <= sps -> step = Js.fdiv 1 sps) /\
  t 0%nat = 0 /\
  (forall k, t (S k) = Js.fadd (t k) step) /\
  (forall m fuel,
      (m < fuel)%nat ->
      (forall j, (j < m)%nat -> t j <= bound) -> ~ t m <= bound ->
      ExportJob.times_from fuel 0 duration step =
      map (fun k => Qmin (t k) duration) (seq 0 m)) /\
  (forall K,
      duration + 3 <= 2 ^ K -> 2 ^ (K - 52) <= step ->
      exists m,
        (1 <= m)%nat /\
        ExportJob.times duration sps =
        map (fun k => Qmin (t k) duration) (seq 0 m) /\
        (forall j, (j < m)%nat -> t j <= bound) /\
        ~ t m <= bound /\
        forall k, (k <= m)%nat ->
          Qabs (t k - inject_Z (Z.of_nat k) * step)
          <= inject_Z (Z.of_nat k) * 2 ^ (K - 53)) /\
  (forall cam,
      ExportJob.extractFrames true (Some 2) 1 [cam] =
      inr [(0, cam); (1, cam); (2, cam)]).
Proof.
  intros Hd step bound t.
  split; [reflexivity|]. split; [|split; [reflexivity|split; [reflexivity|]]].
  - intro H. unfold step, ExportJob.step, Js.fdiv. apply binary64_comp.
    now rewrite (Q.max_r 1 sps H).
  - split; [|split].
    + intros m fuel Hf Hin Hout. now apply times_from_exact.
    + intros K HK Hlo. exact (times_complete duration sps K Hd HK Hlo).
    + intro cam. vm_compute. reflexivity.
Qed.

Lemma export_timestamps_witness :
  ExportJob.times_from 20 0 (5 # 2) (ExportJob.step 2) =
  map (fun k => Qmin (ExportJob.advanced k 0 (ExportJob.step 2)) (5 # 2))
      (seq 0 6) /\
  (exists m,
      (1 <= m)%nat /\
      ExportJob.times (5 # 2) 2 =
      map (fun k => Qmin (ExportJob.advanced k 0 (ExportJob.step 2)) (5 # 2))
          (seq 0 m) /\
      (forall j, (j < m)%nat ->
         ExportJob.advanced j 0 (ExportJob.step 2)
         <= Js.fadd (5 # 2) ExportJob.epsilon) /\
      ~ ExportJob.advanced m 0 (ExportJob.step 2)
        <= Js.fadd (5 # 2) ExportJob.epsilon /\
      forall k, (k <= m)%nat ->
        Qabs (ExportJob.advanced k 0 (ExportJob.step 2)
              - inject_Z (Z.of_nat k) * ExportJob.step 2)
        <= inject_Z (Z.of_nat k) * 2 ^ (3 - 53)) /\
  ExportJob.step 2 = Js.fdiv 1 2 /\
  ExportJob.times (5 # 2) 2 = [0; 1 # 2; 1; 3 # 2; 2; 5 # 2] /\
  ExportJob.times (Js.fdiv 999999 1000000) 1 = [0; Js.fdiv 999999 1000000] /\
  ExportJob.extractFrames true (Some 2) 1 [Scenario.cam1] =
  inr [(0, Scenario.cam1); (1, Scenario.cam1); (2, Scenario.cam1)].
Proof.
  pose proof (export_timestamps (5 # 2) 2 eq_refl) as H. cbv zeta in H.
  destruct H as (_ & H2 & _ & _ & H5 & H6 & H7).
  split.
  { apply (H5 6%nat 20%nat); [lia | |].
    - intros j Hj.
      do 6 (destruct j as [|j]; [vm_compute; discriminate|]). lia.
    - intro H. vm_compute in H. apply H. reflexivity. }
  split.
  { apply (H6 3%Z); vm_compute; discriminate. }
  split; [apply H2; discriminate|].
  split; [vm_compute; reflexivity|].
  split; [vm_compute; reflexivity | exact (H7 Scenario.cam1)].
Defined.

(** C8 as stated fails in three ways.  With half a sample per second the
    step is not 1 / samplesPerSecond = 2 s but 1 s, and a 2 s clip is
    sampled at 0, 1 and 2 s rather than at 0 and 2 s.  The last timestamp
    is not the duration in general: a 2.5 s clip at one sample per second
    ends at 2 s.  And the timestamps are rounded sums, not multiples of the
    step: at ten samples per second the eleventh timestamp of a 1 s clip
    is 1 - 2^-53, which is neither ten times the step nor the duration. *)
Lemma step_counterexample :
  (ExportJob.times 2 (1 # 2) = [0; 1; 2] /\
   ExportJob.step (1 # 2) == 1 /\
   ~ ExportJob.step (1 # 2) == 1 / (1 # 2)) /\
  (ExportJob.times (5 # 2) 1 = [0; 1; 2] /\
   ~ last (ExportJob.times (5 # 2) 1) 0 == 5 # 2) /\
  (last (ExportJob.times 1 10) 0 = ExportJob.advanced 10 0 (ExportJob.step 10) /\
   ExportJob.advanced 10 0 (ExportJob.step 10) == 1 - 2 ^ (-53) /\
   ~ ExportJob.advanced 10 0 (ExportJob.step 10) == 10 * ExportJob.step 10 /\
   ~ ExportJob.advanced 10 0 (ExportJob.step 10) == 1).
Proof.
  split; [|split].
  - split; [vm_compute; reflexivity|].
    split; [vm_compute; reflexivity | vm_compute; discriminate].
  - split; [vm_compute; reflexivity | vm_compute; discriminate].
  - split; [vm_compute; reflexivity|].
    split; [vm_compute; reflexivity|].
    split; vm_compute; discriminate.
Qed.

(** ** File names of the export *)

Lemma replace_runs_word_chars b s :
  Js.all_chars Js.word_char (Js.replace_runs b s) = true.
Proof.
  revert b. induction s as [|c s IH]; intro b; simpl; [reflexivity|].
  destruct (Js.word_char c) eqn:E; simpl.
  - now rewrite E, IH.
  - destruct b; simpl; [apply IH | now rewrite IH].
Qed.

Lemma replace_runs_nonempty c s : Js.replace_runs false (String c s) <> EmptyString.
Proof. simpl. destruct (Js.word_char c); discriminate. Qed.

Lemma replace_runs_id b w :
  Js.all_chars Js.word_char w = true -> Js.replace_runs b w = w.
Proof.
  revert b. induction w as [|c w IH]; intros b H; simpl in *; [reflexivity|].
  apply andb_true_iff in H. destruct H as [Hc Hw].
  now rewrite Hc, IH.
Qed.

Lemma replace_runs_prefix b w s :
  Js.all_chars Js.word_char w = true -> w <> EmptyString ->
  Js.replace_runs b (w ++ s) = w ++ Js.replace_runs false s.
Proof.
  revert b. induction w as [|c w IH]; intros b H Hne; [contradiction|].
  simpl in *. apply andb_true_iff in H. destruct H as [Hc Hw]. rewrite Hc.
  f_equal. destruct w as [|c' w]; [reflexivity|]. apply IH; [exact Hw | discriminate].
Qed.

Lemma replace_runs_inside r s :
  Js.all_chars (fun c => negb (Js.word_char c)) r = true ->
  Js.run_ends_before s = true ->
  Js.replace_runs true (r ++ s) = Js.replace_runs false s.
Proof.
  intros Hr Hs. induction r as [|c r IH]; simpl in *.
  - destruct s as [|c s]; simpl in *; [reflexivity | now rewrite Hs].
  - apply andb_true_iff in Hr. destruct Hr as [Hc Hr].
    apply negb_true_iff in Hc. rewrite Hc. now apply IH.
Qed.

Lemma replace_runs_run r s :
  Js.all_chars (fun c => negb (Js.word_char c)) r = true -> r <> EmptyString ->
  Js.run_ends_before s = true ->
  Js.replace_runs false (r ++ s) = "_" ++ Js.replace_runs false s.
Proof.
  intros Hr Hne Hs. destruct r as [|c r]; [contradiction|]. simpl in *.
  apply andb_true_iff in Hr. destruct Hr as [Hc Hr].
  apply negb_true_iff in Hc. rewrite Hc. f_equal. now apply replace_runs_inside.
Qed.

Lemma replace_dots_no_dot s :
  Js.all_chars (fun c => negb (Ascii.eqb c ".")) (Js.replace_dots s) = true.
Proof.
  induction s as [|c s IH]; simpl; [reflexivity|].
  rewrite IH, andb_true_r. now destruct (Ascii.eqb c ".") eqn:E; [|rewrite E].
Qed.

(** C9 (as amended).  The image of a cell is named
    [{safeLabel}_{tsStr}.jpg], where [tsStr] is the timestamp printed with
    two decimals and its point replaced by an underscore, and [safeLabel] is
    the camera label in which every maximal run of characters outside
    [a-zA-Z0-9-_] is replaced by one underscore (characters of the class
    are kept as they are), or [Angle_{id}] when that is empty, which is the
    case for the empty label only. *)
Theorem export_file_name cam ts :
  ExportJob.fname cam ts =
    ExportJob.safeLabel cam ++ "_" ++ ExportJob.tsStr ts ++ ".jpg" /\
  ExportJob.tsStr ts = Js.replace_dots (Js.toFixed 2 ts) /\
  Js.all_chars (fun c => negb (Ascii.eqb c ".")) (ExportJob.tsStr ts) = true /\
  Js.all_chars Js.word_char (Js.replace_runs false (label cam)) = true /\
  (label cam = EmptyString ->
   ExportJob.safeLabel cam = "Angle_" ++ Js.string_of_Z (id cam)) /\
  (label cam <> EmptyString ->
   ExportJob.safeLabel cam = Js.replace_runs false (label cam) /\
   ExportJob.safeLabel cam <> EmptyString) /\
  (forall w, Js.all_chars Js.word_char w = true -> Js.replace_runs false w = w) /\
  (forall w s,
      Js.all_chars Js.word_char w = true -> w <> EmptyString ->
      Js.replace_runs false (w ++ s) = w ++ Js.replace_runs false s) /\
  (forall r s,
      Js.all_chars (fun c => negb (Js.word_char c)) r = true -> r <> EmptyString ->
      Js.run_ends_before s = true ->
      Js.replace_runs false (r ++ s) = "_" ++ Js.replace_runs false s).
Proof.
  split; [reflexivity|]. split; [reflexivity|].
  split; [apply replace_dots_no_dot|].
  split; [apply replace_runs_word_chars|].
  split; [|split; [|split; [|split]]].
  - unfold ExportJob.safeLabel. now intros ->.
  - unfold ExportJob.safeLabel. destruct (label cam) as [|c s] eqn:E; [congruence|].
    intros _. pose proof (replace_runs_nonempty c s) as Hne.
    destruct (Js.replace_runs false (String c s)); [contradiction|].
    split; [reflexivity | discriminate].
  - intros w Hw. now apply replace_runs_id.
  - intros w s Hw Hne. now apply replace_runs_prefix.
  - intros r s Hr Hne Hs. now apply replace_runs_run.
Qed.

Lemma export_file_name_witness :
  ExportJob.fname Scenario.cam1 (3 # 2) = "Angle_1_1_50.jpg" /\
  ExportJob.safeLabel Scenario.unnamed = "Angle_7" /\
  ExportJob.safeLabel Scenario.spaced = "a_b" /\
  Js.replace_runs false "view" = "view" /\
  Js.replace_runs false ("a" ++ "  b") = "a" ++ Js.replace_runs false "  b" /\
  Js.replace_runs false ("  " ++ "b") = "_" ++ Js.replace_runs false "b".
Proof.
  split; [exact (proj1 (export_file_name Scenario.cam1 (3 # 2)))|].
  destruct (export_file_name Scenario.unnamed 0)
    as (_ & _ & _ & _ & H1 & _ & H3 & H4 & H5).
  destruct (export_file_name Scenario.spaced 0)
    as (_ & _ & _ & _ & _ & H2 & _).
  split; [apply H1; reflexivity|].
  split; [apply H2; discriminate|].
  split; [apply H3; reflexivity|].
  split; [apply H4; [reflexivity | discriminate]|].
  apply H5; [reflexivity | discriminate | reflexivity].
Defined.

(** C9 as stated fails: in the label "a  b" the two spaces are not replaced
    by an underscore each; the run of two becomes a single underscore. *)
Lemma sanitize_counterexample :
  ExportJob.safeLabel Scenario.spaced = "a_b" /\
  ExportJob.replace_each (label Scenario.spaced) = "a__b" /\
  ExportJob.safeLabel Scenario.spaced <> ExportJob.replace_each (label Scenario.spaced).
Proof.
  split; [reflexivity|]. split; [reflexivity | discriminate].
Qed.

(** * Further properties of the code *)

Import ProviderNotions.

(** ** The provider beyond [frameAt]'s cache and errors *)

Lemma reinit_call_not_exec (c : AnyCall) : reinit_call (projT2 c) -> not_exec c.
Proof. destruct c as [R []]; unfold not_exec; simpl; auto. Qed.

Lemma readBack_call_not_exec (c : AnyCall) : readBack_call (projT2 c) -> not_exec c.
Proof. destruct c as [R []]; unfold not_exec; simpl; auto. Qed.

(** X1.  However the backend behaves, a [frameAt] call ends with the busy
    flag as it found it, so an idle provider is idle again after every call,
    failed or not; the source and its name are never touched. *)
Theorem frameAt_restores_busy_flag canvas ts a w h p env n tr o p' :
  run (frameAt canvas ts a w h p) env n = (tr, o, p') ->
  _isProcessing p' = _isProcessing p /\
  source p' = source p /\ originalName p' = originalName p.
Proof.
  intro Hrun.
  destruct (frameAt_cases canvas ts a w h p)
    as [E | [(r0 & Hl & Hc & E) | [E | (ff & nm & Hff & Hnm & Hf & Hc & Hb & _)]]];
    try (rewrite E in Hrun; inversion Hrun; subst; now repeat split).
  rewrite (frameAt_run _ _ _ _ _ _ ff nm) in Hrun by assumption.
  destruct (run (extract ff nm ts a w h (set_isProcessing true p)) env n)
    as [[tr1 o1] q] eqn:E.
  assert (Hq : source q = source p /\ originalName q = originalName p).
  { refine (settles_run _ _ _
              (preserves_extract
                 (fun q => source q = source p /\ originalName q = originalName p)
                 _ _ ff nm ts a w h _ _) _ _ _ _ _ E).
    - intros v q' Hq'. exact Hq'.
    - intros q' Hq'. exact Hq'.
    - split; reflexivity. }
  destruct o1 as [b | e1]; [destruct (canvas b w h) as [url | e2]|];
    inversion Hrun; subst; simpl; rewrite Hb; split; auto.
Qed.

Lemma frameAt_restores_busy_flag_witness :
  _isProcessing Scenario.after_failure = _isProcessing Scenario.warm /\
  source Scenario.after_failure = source Scenario.warm /\
  originalName Scenario.after_failure = originalName Scenario.warm.
Proof.
  apply (frameAt_restores_busy_flag
           Scenario.canvas 2 Scenario.left 240 135 Scenario.warm
           (Scenario.exec_fails_no_output (Error "exec timed out")) 0
           (fst (fst (run (frameAt Scenario.canvas 2 Scenario.left 240 135 Scenario.warm)
                          (Scenario.exec_fails_no_output (Error "exec timed out")) 0)))
           (Rejected (Error "Failed to extract reprojected frame"))).
  vm_compute. reflexivity.
Defined.

(** X2.  A [frameAt] call invokes the backend at most once: either it awaits
    nothing at all (not loaded, cache hit, busy), or the first promise it
    awaits is the [exec] for its own request on the provider's backend and no
    later promise is an [exec]. *)
Theorem frameAt_invokes_exec_once canvas ts a w h p env n tr o p' :
  run (frameAt canvas ts a w h p) env n = (tr, o, p') ->
  tr = [] \/
  exists ff nm tr',
    ffmpeg p = Some ff /\ name p = Some nm /\
    tr = anyCall (Exec ff (args ts nm a w h)) :: tr' /\
    Forall not_exec tr'.
Proof.
  intro Hrun.
  destruct (frameAt_cases canvas ts a w h p)
    as [E | [(r0 & Hl & Hc & E) | [E | (ff & nm & Hff & Hnm & Hf & Hc & Hb & _)]]];
    try (rewrite E in Hrun; inversion Hrun; subst; now left).
  right. exists ff, nm.
  rewrite (frameAt_run _ _ _ _ _ _ ff nm) in Hrun by assumption.
  assert (Hex : exists tr1 o1 q tr',
             run (extract ff nm ts a w h (set_isProcessing true p)) env n = (tr1, o1, q) /\
             tr1 = anyCall (Exec ff (args ts nm a w h)) :: tr' /\ Forall not_exec tr').
  { destruct (env n Z (Exec ff (args ts nm a w h))) as [z | e] eqn:Hexec;
      [|destruct (fatal e) eqn:Hfatal].
    - rewrite extract_run by now rewrite Hexec.
      destruct (run (readBack (set_isProcessing true p)) env (S n)) as [[tr2 o2] q2] eqn:E2.
      eexists _, _, _, _. split; [reflexivity|]. split; [reflexivity|].
      eapply Forall_impl; [apply readBack_call_not_exec|].
      exact (awaits_only_run _ _ (readBack_issues _) _ _ _ _ _ E2).
    - rewrite (extract_run_fatal _ _ _ _ _ _ _ _ _ e) by assumption.
      destruct (run (reinit (set_isProcessing true p)) env (S n)) as [[tr2 o2] q2] eqn:E2.
      eexists _, _, _, _. split; [reflexivity|]. split; [reflexivity|].
      eapply Forall_impl; [apply reinit_call_not_exec|].
      exact (awaits_only_run _ _ (reinit_issues _) _ _ _ _ _ E2).
    - rewrite extract_run by (rewrite Hexec; exact Hfatal).
      destruct (run (readBack (set_isProcessing true p)) env (S n)) as [[tr2 o2] q2] eqn:E2.
      eexists _, _, _, _. split; [reflexivity|]. split; [reflexivity|].
      eapply Forall_impl; [apply readBack_call_not_exec|].
      exact (awaits_only_run _ _ (readBack_issues _) _ _ _ _ _ E2). }
  destruct Hex as (tr1 & o1 & q & tr' & E & -> & Hall).
  rewrite E in Hrun. exists tr'.
  destruct o1 as [b | e1]; [destruct (canvas b w h) as [url | e2]|];
    inversion Hrun; subst; auto.
Qed.

Lemma frameAt_invokes_exec_once_witness :
  fst (fst (run (frameAt Scenario.canvas 2 Scenario.left 240 135 Scenario.ready)
                (Scenario.exec_fails (Error "RuntimeError: Aborted()")) 0)) = [] \/
  exists ff nm tr',
    ffmpeg Scenario.ready = Some ff /\ name Scenario.ready = Some nm /\
    fst (fst (run (frameAt Scenario.canvas 2 Scenario.left 240 135 Scenario.ready)
                  (Scenario.exec_fails (Error "RuntimeError: Aborted()")) 0)) =
      anyCall (Exec ff (args 2 nm Scenario.left 240 135)) :: tr' /\
    Forall not_exec tr'.
Proof.
  apply (frameAt_invokes_exec_once
           Scenario.canvas 2 Scenario.left 240 135 Scenario.ready
           (Scenario.exec_fails (Error "RuntimeError: Aborted()")) 0 _
           (snd (fst (run (frameAt Scenario.canvas 2 Scenario.left 240 135 Scenario.ready)
                          (Scenario.exec_fails (Error "RuntimeError: Aborted()")) 0)))
           (snd (run (frameAt Scenario.canvas 2 Scenario.left 240 135 Scenario.ready)
                     (Scenario.exec_fails (Error "RuntimeError: Aborted()")) 0))).
  vm_compute. reflexivity.
Defined.

Ltac settle_all :=
  repeat (cbn -[Js.startsWith];
          match goal with
          | |- True /\ _ => split; [exact I|]
          | |- forall r : Outcome _, _ => intros [?|?]
          | H : ffmpeg ?p = _ |- context [ffmpeg ?p] => rewrite H
          | |- context [if ?b then _ else _] => destruct b
          end).

Lemma close_settles p :
  settles (fun _ => True) (fun o q => o = Resolved tt /\ q = closed p) (close p).
Proof.
  cbv [close bind try_catch on_ffmpeg this await ret throw assign].
  cbn -[Js.startsWith].
  destruct (ffmpeg p) as [ff|] eqn:Hff; cbn -[Js.startsWith]; [|now split].
  destruct (name p) as [[|c nm]|] eqn:Hnm; settle_all; now split.
Qed.

Lemma close_terminates p ff env n tr o q :
  ffmpeg p = Some ff -> run (close p) env n = (tr, o, q) ->
  In (anyCall (Terminate ff)) tr.
Proof.
  intros Hff.
  cbv [close bind try_catch on_ffmpeg this await ret throw assign].
  cbn -[Js.startsWith]. rewrite Hff. cbn -[Js.startsWith].
  destruct (name p) as [[|c nm]|] eqn:Hnm; cbn -[Js.startsWith]; rewrite ?Hff;
    [| destruct (Js.startsWith (String c nm) "/mnt/") |];
    cbn -[Js.startsWith]; rewrite ?Hff; cbn -[Js.startsWith];
    repeat match goal with
           | |- context [env ?m ?R ?c] =>
               destruct (env m R c); cbn -[Js.startsWith]; rewrite ?Hff;
               cbn -[Js.startsWith]
           end;
    intros H; inversion H; subst; simpl; auto.
Qed.

(** X3.  [close] never fails: whatever unmounting, deleting and terminating
    do, it resolves and leaves the provider without backend, without name and
    idle, the cache and the source as they were; a provider that has a
    backend gets it terminated; and a second [close] awaits nothing and
    changes nothing. *)
Theorem close_always_resolves p env n :
  exists tr,
    run (close p) env n = (tr, Resolved tt, closed p) /\
    (ffmpeg p = None -> tr = []) /\
    (forall ff, ffmpeg p = Some ff -> In (anyCall (Terminate ff)) tr) /\
    (forall env' n', run (close (closed p)) env' n' = ([], Resolved tt, closed p)).
Proof.
  destruct (run (close p) env n) as [[tr o] q] eqn:E.
  destruct (settles_run _ _ _ (close_settles p) _ _ _ _ _ E) as [-> ->].
  exists tr. split; [reflexivity|]. split; [|split].
  - intro Hff. revert E.
    cbv [close bind try_catch on_ffmpeg this await ret throw assign].
    cbn -[Js.startsWith]. rewrite Hff. cbn. now intros [= <-].
  - intros ff Hff. eapply close_terminates; eauto.
  - intros env' n'. reflexivity.
Qed.

Lemma close_always_resolves_witness :
  exists tr,
    run (close Scenario.warm) Scenario.all_ok 0 = (tr, Resolved tt, Cases.closed) /\
    In (anyCall (Terminate 0%nat)) tr /\
    run (close Cases.closed) Scenario.all_ok 0 = ([], Resolved tt, Cases.closed).
Proof.
  destruct (close_always_resolves Scenario.warm Scenario.all_ok 0)
    as (tr & H1 & _ & H3 & H4).
  exists tr. split; [exact H1|]. split; [apply H3; reflexivity | apply H4].
Defined.

(** X4.  After [close], every [frameAt] is rejected with 'FFmpeg not loaded'
    at once, also for the request whose frame is still in the cache. *)
Theorem frameAt_after_close p env n tr o p' canvas ts a w h :
  run (close p) env n = (tr, o, p') ->
  frameAt canvas ts a w h p' = Done (Rejected (Error "FFmpeg not loaded")) p'.
Proof.
  intro E. destruct (settles_run _ _ _ (close_settles p) _ _ _ _ _ E) as [_ ->].
  apply frameAt_not_loaded. reflexivity.
Qed.

Lemma frameAt_after_close_witness :
  lastProcessedKey Cases.closed = Some (cacheKey (3 # 2) Scenario.front 240 135) /\
  frameAt Scenario.canvas (3 # 2) Scenario.front 240 135 Cases.closed =
  Done (Rejected (Error "FFmpeg not loaded")) Cases.closed.
Proof.
  split; [reflexivity|].
  apply (frameAt_after_close Scenario.warm Scenario.all_ok 0
           (fst (fst (run (close Scenario.warm) Scenario.all_ok 0))) (Resolved tt)).
  reflexivity.
Defined.

Lemma load_settles nm src p :
  settles (fun _ => True)
          (fun o q => match o with
                      | Resolved _ =>
                          q = loaded_as nm src
                                ("/mnt/" ++ template (mountedAs src (Some nm))) p \/
                          q = loaded_as nm src nm p
                      | Rejected _ =>
                          ffmpeg q = Some (allocated p) /\ name q = name p
                      end)
          (load nm src p).
Proof.
  cbv [load loadCore mountSource bind try_catch on_ffmpeg on_source this
       await ret throw assign new_FFmpeg].
  settle_all; simpl; unfold loaded_as, set_name; simpl; auto.
Qed.

(** X5.  When [load name source] resolves, the provider holds a new backend
    object, the source and its name, and is mounted either under
    '/mnt/' followed by the file name (for a [Blob], the given name) or,
    after the fallback, under the given name itself; busy flag and cache are
    as before.  So it passes the guard of [frameAt] unless the given name is
    empty.  When [load] rejects, the new backend object stays in place under
    the old name. *)
Theorem load_outcome nm src p env n tr o p' :
  run (load nm src p) env n = (tr, o, p') ->
  match o with
  | Resolved _ =>
      (p' = loaded_as nm src ("/mnt/" ++ template (mountedAs src (Some nm))) p \/
       p' = loaded_as nm src nm p) /\
      (nm <> EmptyString -> loaded p' = true)
  | Rejected _ => ffmpeg p' = Some (allocated p) /\ name p' = name p
  end.
Proof.
  intro E. pose proof (settles_run _ _ _ (load_settles nm src p) _ _ _ _ _ E) as H.
  destruct o as [u | e]; [|exact H]. split; [exact H|].
  intro Hnm. destruct H as [-> | ->]; unfold loaded; simpl; [reflexivity|].
  destruct nm; [contradiction | reflexivity].
Qed.

Lemma load_outcome_witness :
  (Scenario.ready = loaded_as "clip.insv" Scenario.video "/mnt/clip.insv" fresh \/
   Scenario.ready = loaded_as "clip.insv" Scenario.video "clip.insv" fresh) /\
  loaded Scenario.ready = true.
Proof.
  pose proof (load_outcome "clip.insv" Scenario.video fresh Scenario.all_ok 0
                (fst (fst (run (load "clip.insv" Scenario.video fresh) Scenario.all_ok 0)))
                (Resolved tt) Scenario.ready) as H.
  simpl in H. destruct H as [H1 H2]; [vm_compute; reflexivity|].
  split; [exact H1 | apply H2; discriminate].
Defined.

(** X6.  When the core loads and the directory is created but mounting
    rejects, [load] falls back: it reads the whole source into memory, writes
    it into the backend under the given name and resolves with the provider
    named so. *)
Theorem load_falls_back_to_writeFile nm src p (env : Env) n u1 u2 e bytes :
  env n _ (ToBlobURL (baseURL ++ "/ffmpeg-core.js") "text/javascript")
    = Resolved u1 ->
  env (1 + n)%nat _ (ToBlobURL (baseURL ++ "/ffmpeg-core.wasm") "application/wasm")
    = Resolved u2 ->
  env (2 + n)%nat _ (Load (allocated p) u1 u2) = Resolved tt ->
  env (3 + n)%nat _ (CreateDir (allocated p) "/mnt") = Resolved tt ->
  env (4 + n)%nat _ (Mount (allocated p) (mountConfig src (Some nm)) "/mnt")
    = Rejected e ->
  env (5 + n)%nat _ (ArrayBuffer src) = Resolved bytes ->
  env (6 + n)%nat _ (WriteFile (allocated p) (Some nm) bytes) = Resolved tt ->
  run (load nm src p) env n =
  ([ anyCall (ToBlobURL (baseURL ++ "/ffmpeg-core.js") "text/javascript");
     anyCall (ToBlobURL (baseURL ++ "/ffmpeg-core.wasm") "application/wasm");
     anyCall (Load (allocated p) u1 u2);
     anyCall (CreateDir (allocated p) "/mnt");
     anyCall (Mount (allocated p) (mountConfig src (Some nm)) "/mnt");
     anyCall (ArrayBuffer src);
     anyCall (WriteFile (allocated p) (Some nm) bytes) ],
   Resolved tt, loaded_as nm src nm p).
Proof.
  intros H1 H2 H3 H4 H5 H6 H7.
  cbv [load loadCore mountSource bind try_catch on_ffmpeg on_source this
       await ret throw assign new_FFmpeg].
  simpl in *. rewrite H1. simpl. rewrite H2. simpl. rewrite H3. simpl.
  rewrite H4. simpl. rewrite H5. simpl. rewrite H6. simpl. rewrite H7. simpl.
  reflexivity.
Qed.

Lemma load_falls_back_to_writeFile_witness :
  run (load "clip.insv" Scenario.video fresh) Cases.no_mount 0 =
  ([ anyCall (ToBlobURL (baseURL ++ "/ffmpeg-core.js") "text/javascript");
     anyCall (ToBlobURL (baseURL ++ "/ffmpeg-core.wasm") "application/wasm");
     anyCall (Load 0%nat ("blob:" ++ baseURL ++ "/ffmpeg-core.js")
                   ("blob:" ++ baseURL ++ "/ffmpeg-core.wasm"));
     anyCall (CreateDir 0%nat "/mnt");
     anyCall (Mount 0%nat (files [Scenario.video]) "/mnt");
     anyCall (ArrayBuffer Scenario.video);
     anyCall (WriteFile 0%nat (Some "clip.insv") []) ],
   Resolved tt, Cases.written).
Proof.
  apply (load_falls_back_to_writeFile
           "clip.insv" Scenario.video fresh Cases.no_mount 0
           ("blob:" ++ baseURL ++ "/ffmpeg-core.js")
           ("blob:" ++ baseURL ++ "/ffmpeg-core.wasm")
           (Error "WORKERFS is not supported") []); reflexivity.
Defined.

(** ** The media element provider and the provider factory *)

(** X7.  For the stereoscopic layouts, the two crops taken from a frame have
    the same size, lie inside the frame and do not overlap.  Side by side,
    both have the full height, the left eye gets the columns left of the
    vertical middle line of the frame ([2 x + 1 < w]) and the right eye
    those right of it ([w < 2 x + 1]); over and under, both have the full
    width, the left eye gets the rows above the horizontal middle line and
    the right eye those below it.  So together they cover the frame except
    for the middle column (row) of a frame of odd width (height), which
    belongs to neither eye. *)
Theorem split_crops proj w h l r :
  (0 <= w)%Z -> (0 <= h)%Z ->
  MediaElement.split proj w h = Some (l, r) ->
  (MediaElement.sw l = MediaElement.sw r /\ MediaElement.sh l = MediaElement.sh r) /\
  (0 <= MediaElement.sx l /\ MediaElement.sx l + MediaElement.sw l <= w /\
   0 <= MediaElement.sy l /\ MediaElement.sy l + MediaElement.sh l <= h)%Z /\
  (0 <= MediaElement.sx r /\ MediaElement.sx r + MediaElement.sw r <= w /\
   0 <= MediaElement.sy r /\ MediaElement.sy r + MediaElement.sh r <= h)%Z /\
  (MediaElement.sx l + MediaElement.sw l <= MediaElement.sx r \/
   MediaElement.sy l + MediaElement.sh l <= MediaElement.sy r)%Z /\
  (forall x y, ~ (MediaElement.covers l x y /\ MediaElement.covers r x y)) /\
  (proj = MediaElement.StereoscopicSBS ->
   (MediaElement.sh l = h /\
    MediaElement.sw l + MediaElement.sw r = w - w mod 2)%Z /\
   forall x y, (0 <= x < w)%Z -> (0 <= y < h)%Z ->
     (MediaElement.covers l x y <-> (2 * x + 1 < w)%Z) /\
     (MediaElement.covers r x y <-> (w < 2 * x + 1)%Z)) /\
  (proj = MediaElement.StereoscopicOU ->
   (MediaElement.sw l = w /\
    MediaElement.sh l + MediaElement.sh r = h - h mod 2)%Z /\
   forall x y, (0 <= x < w)%Z -> (0 <= y < h)%Z ->
     (MediaElement.covers l x y <-> (2 * y + 1 < h)%Z) /\
     (MediaElement.covers r x y <-> (h < 2 * y + 1)%Z)).
Proof.
  intros Hw Hh. unfold MediaElement.split. destruct proj; try discriminate;
    intros [= <- <-]; unfold MediaElement.covers;
    cbn [MediaElement.sx MediaElement.sy MediaElement.sw MediaElement.sh].
  - split; [split; reflexivity|].
    split; [repeat apply conj; Z.div_mod_to_equations; lia|].
    split; [repeat apply conj; Z.div_mod_to_equations; lia|].
    split; [left; Z.div_mod_to_equations; lia|].
    split; [intros x y; Z.div_mod_to_equations; lia|].
    split; [|discriminate]. intros _.
    split; [split; [reflexivity | Z.div_mod_to_equations; lia]|].
    intros x y Hx Hy. split; split; intros H; Z.div_mod_to_equations; lia.
  - split; [split; reflexivity|].
    split; [repeat apply conj; Z.div_mod_to_equations; lia|].
    split; [repeat apply conj; Z.div_mod_to_equations; lia|].
    split; [right; Z.div_mod_to_equations; lia|].
    split; [intros x y; Z.div_mod_to_equations; lia|].
    split; [discriminate|]. intros _.
    split; [split; [reflexivity | Z.div_mod_to_equations; lia]|].
    intros x y Hx Hy. split; split; intros H; Z.div_mod_to_equations; lia.
Qed.

Lemma split_crops_witness :
  MediaElement.split MediaElement.StereoscopicSBS 3841 1920 =
    Some (MediaElement.mkCrop 0 0 1920 1920, MediaElement.mkCrop 1921 0 1920 1920) /\
  (1920 + 1920 = 3841 - 3841 mod 2)%Z /\
  (MediaElement.covers (MediaElement.mkCrop 0 0 1920 1920) 1919 0 /\
   MediaElement.covers (MediaElement.mkCrop 1921 0 1920 1920) 1921 0) /\
  (~ MediaElement.covers (MediaElement.mkCrop 0 0 1920 1920) 1920 0 /\
   ~ MediaElement.covers (MediaElement.mkCrop 1921 0 1920 1920) 1920 0).
Proof.
  destruct (split_crops MediaElement.StereoscopicSBS 3841 1920
                        (MediaElement.mkCrop 0 0 1920 1920)
                        (MediaElement.mkCrop 1921 0 1920 1920))
    as (_ & _ & _ & _ & _ & H & _);
    [discriminate | discriminate | reflexivity |].
  destruct (H eq_refl) as [[_ S] C].
  split; [reflexivity|]. split; [exact S|]. split; [split|split].
  - apply (C 1919%Z 0%Z); lia.
  - apply (C 1921%Z 0%Z); lia.
  - intro A. apply (C 1920%Z 0%Z) in A; lia.
  - intro A. apply (C 1920%Z 0%Z) in A; lia.
Defined.

Section Seeking.
Open Scope Q_scope.


End Seeking.


Lemma probe_true f configs :
  WebCodecs.probe f configs = true <->
  exists codec, In codec configs /\ f codec = Resolved (Some true).
Proof.
  induction configs as [|c l IH]; simpl.
  - split; [discriminate | intros (codec & [] & _)].
  - destruct (f c) as [[[|]|]|e] eqn:E.
    + split; [intros _; exists c; auto | reflexivity].
    + rewrite IH. split; intros (codec & Hin & Hf); exists codec;
        [auto | destruct Hin as [<- | Hin]; [congruence | auto]].
    + rewrite IH. split; intros (codec & Hin & Hf); exists codec;
        [auto | destruct Hin as [<- | Hin]; [congruence | auto]].
    + rewrite IH. split; intros (codec & Hin & Hf); exists codec;
        [auto | destruct Hin as [<- | Hin]; [congruence | auto]].
Qed.

Lemma load_cases vd :
  (WebCodecs.load vd = (true, Resolved tt) /\
   exists f codec, vd = Some f /\ In codec WebCodecs.maybeConfigs /\
                   f codec = Resolved (Some true)) \/
  (WebCodecs.load vd =
     (false, Rejected (Error "WebCodecs HEVC not supported on this system")) /\
   ~ exists f codec, vd = Some f /\ In codec WebCodecs.maybeConfigs /\
                     f codec = Resolved (Some true)).
Proof.
  unfold WebCodecs.load, WebCodecs.probeHevcSupport.
  destruct vd as [f|].
  - destruct (WebCodecs.probe f WebCodecs.maybeConfigs) eqn:E.
    + left. split; [reflexivity|].
      apply probe_true in E. destruct E as (codec & Hin & Hf).
      exists f, codec. auto.
    + right. split; [reflexivity|].
      intros (f' & codec & [= <-] & Hin & Hf).
      assert (T : WebCodecs.probe f WebCodecs.maybeConfigs = true)
        by (apply probe_true; exists codec; auto).
      congruence.
  - right. split; [reflexivity|]. intros (f' & codec & [=] & _).
Qed.

(** X9.  The factory hands out the WebCodecs provider exactly when the
    experiment flag is set and the decoder reports one of the two HEVC codecs
    as supported (rejections of the probe are passed over); in every other
    case its result is that of loading the media element provider.  A
    WebCodecs provider handed out never yields a frame: its [frameAt]
    rejects with 'not implemented yet'. *)
Theorem createProvider_selection useWc vd meLoad :
  (WebCodecs.createProvider useWc vd meLoad = Resolved WebCodecs.WebCodecsHevcProvider <->
   useWc = true /\
   exists f codec, vd = Some f /\ In codec WebCodecs.maybeConfigs /\
                   f codec = Resolved (Some true)) /\
  (WebCodecs.createProvider useWc vd meLoad <> Resolved WebCodecs.WebCodecsHevcProvider ->
   WebCodecs.createProvider useWc vd meLoad =
   match meLoad with
   | Resolved _ => Resolved WebCodecs.HevcMediaElementProvider
   | Rejected e => Rejected e
   end) /\
  (WebCodecs.createProvider useWc vd meLoad = Resolved WebCodecs.WebCodecsHevcProvider ->
   WebCodecs.frameAt (fst (WebCodecs.load vd)) =
   Rejected (Error "WebCodecsHevcProvider.frameAt not implemented yet")).
Proof.
  unfold WebCodecs.createProvider.
  destruct useWc.
  - destruct (load_cases vd) as [[-> Hex] | [-> Hno]]; cbn [fst snd WebCodecs.frameAt].
    + split; [|split]; [| intros H; exfalso; apply H; reflexivity | reflexivity].
      split; [intros _; split; [reflexivity | exact Hex] | reflexivity].
    + split; [|split]; [| reflexivity | destruct meLoad; discriminate].
      split; [destruct meLoad; discriminate | intros [_ H]; contradiction].
  - split; [|split]; [| reflexivity | destruct meLoad; discriminate].
    split; [destruct meLoad; discriminate | intros [[=] _]].
Qed.

Lemma createProvider_selection_witness :
  WebCodecs.createProvider true (Some Cases.hev1_only) (Resolved tt)
    = Resolved WebCodecs.WebCodecsHevcProvider /\
  WebCodecs.createProvider true None (Resolved tt)
    = Resolved WebCodecs.HevcMediaElementProvider /\
  WebCodecs.frameAt (fst (WebCodecs.load (Some Cases.hev1_only)))
  = Rejected (Error "WebCodecsHevcProvider.frameAt not implemented yet").
Proof.
  destruct (createProvider_selection true (Some Cases.hev1_only) (Resolved tt))
    as (_ & _ & H3).
  destruct (createProvider_selection true None (Resolved tt)) as (_ & H2 & _).
  split; [reflexivity|]. split; [apply H2; discriminate | apply H3; reflexivity].
Defined.

(** ** Sizes of the output, the thumbnail and the cover fit *)

Section Rounding.
Open Scope Q_scope.

Lemma Math_round_Z (z : Z) : Projection.Math_round (inject_Z z) = z.
Proof.
  unfold Projection.Math_round.
  assert (E : inject_Z z + (1 # 2) == (1 # 2) + inject_Z z) by ring.
  rewrite (Qfloor_comp _ _ E), Qfloor_add_Z. reflexivity.
Qed.

Lemma Math_round_le (x y : Q) :
  x <= y -> (Projection.Math_round x <= Projection.Math_round y)%Z.
Proof.
  intros H. apply Qfloor_resp_le. Lqa.lra.
Qed.

Lemma Math_round_bounds (x : Q) :
  inject_Z (Projection.Math_round x) - (1 # 2) <= x /\
  x < inject_Z (Projection.Math_round x) + (1 # 2).
Proof.
  unfold Projection.Math_round.
  pose proof (Qfloor_le (x + (1 # 2))) as H1.
  pose proof (Qlt_floor (x + (1 # 2))) as H2.
  rewrite inject_Z_plus in H2. change (inject_Z 1) with 1 in H2.
  split; Lqa.lra.
Qed.

Lemma Math_round_comp (x y : Q) :
  x == y -> Projection.Math_round x = Projection.Math_round y.
Proof.
  intros E. apply Qfloor_comp. rewrite E. reflexivity.
Qed.

Lemma Math_round_half (n : Z) :
  Projection.Math_round (inject_Z n / 2) = ((n + 1) / 2)%Z.
Proof.
  unfold Projection.Math_round.
  assert (E : inject_Z n / 2 + (1 # 2) == (n + 1) # 2).
  { unfold Qeq, Qdiv, Qplus, Qmult, Qinv, inject_Z. simpl. lia. }
  rewrite (Qfloor_comp _ _ E). reflexivity.
Qed.

Lemma nearest_even_Z (z : Z) : Js.nearest_even (inject_Z z) = z.
Proof.
  unfold Js.nearest_even. rewrite Qfloor_Z.
  assert (C : Qcompare (inject_Z z - inject_Z z) (1 # 2) = Lt).
  { apply Qlt_alt. assert (E : inject_Z z - inject_Z z == 0) by ring.
    rewrite E. reflexivity. }
  now rewrite C.
Qed.

(** Integers below [2 ^ 52] are binary64 numbers. *)
Lemma binary64_Z (n : Z) :
  (0 < n < 2 ^ 52)%Z -> Js.binary64 (inject_Z n) == inject_Z n.
Proof.
  intros [N0 N1].
  assert (P : 0 < inject_Z n) by (change 0 with (inject_Z 0); rewrite <- Zlt_Qlt; exact N0).
  assert (NZ : ~ inject_Z n == 0) by (intro Z; rewrite Z in P; discriminate).
  rewrite (binary64_value _ NZ). unfold Js.exponent.
  assert (A : Js.ilog2 (Qabs (inject_Z n)) = Js.ilog2 (inject_Z n)).
  { apply ilog2_comp; [|apply Qabs_pos; Lqa.lra].
    rewrite Qabs_pos by Lqa.lra. exact P. }
  rewrite A. clear A.
  destruct (ilog2_spec _ P) as [L U].
  set (e := Js.ilog2 (inject_Z n)) in *.
  assert (E0 : (0 <= e)%Z).
  { apply (ilog2_ge (inject_Z n) 0). change (2 ^ 0) with (inject_Z 1).
    rewrite <- Zle_Qle. lia. }
  assert (E1 : (e <= 51)%Z).
  { assert (H : (e < 52)%Z); [|lia].
    apply (Qpower_lt_compat_l_inv 2); [|reflexivity].
    eapply Qle_lt_trans; [exact L|].
    rewrite <- pow2_Z by lia. rewrite <- Zlt_Qlt. exact N1. }
  rewrite Z.max_l by lia.
  assert (D : inject_Z n / 2 ^ (e - 52) == inject_Z (n * 2 ^ (52 - e))).
  { rewrite inject_Z_mult, pow2_Z by lia.
    replace (e - 52)%Z with (- (52 - e))%Z by ring.
    rewrite Qpower_opp. field.
    apply Qpower_not_0. discriminate. }
  rewrite (nearest_even_comp _ _ D), nearest_even_Z.
  rewrite inject_Z_mult, pow2_Z by lia.
  replace (e - 52)%Z with (- (52 - e))%Z by ring.
  rewrite Qpower_opp. field.
  apply Qpower_not_0. discriminate.
Qed.

Lemma exactRatio_positive preset cw ch : 0 < App.exactRatio preset cw ch.
Proof.
  unfold App.exactRatio.
  destruct preset; try reflexivity.
  destruct (Qlt_le_dec 0 cw) as [Hw|]; [|reflexivity].
  destruct (Qlt_le_dec 0 ch) as [Hh|]; [|reflexivity].
  apply Qlt_shift_div_l; [exact Hh | Lqa.lra].
Qed.

Lemma aspectRatioValue_rounds preset cw ch :
  App.aspectRatioValue preset cw ch = Js.binary64 (App.exactRatio preset cw ch).
Proof.
  unfold App.aspectRatioValue, App.exactRatio.
  destruct preset; try reflexivity.
  destruct (Qlt_le_dec 0 cw); [|reflexivity].
  destruct (Qlt_le_dec 0 ch); reflexivity.
Qed.

(** Two roundings in a row: what [W / binary64 r], rounded, can differ
    from [W / r] by. *)
Lemma quotient_error (W r : Q) :
  1 <= W -> 2 ^ (-1000) <= r -> r <= 2 ^ 1000 ->
  0 < Js.binary64 r /\
  Qabs (Js.binary64 r - r) <= 2 ^ (-53) * r /\
  Qabs (Js.fdiv W (Js.binary64 r) - W / r) <= 2 ^ (-51) * (W / r).
Proof.
  intros HW Hlo Hhi.
  assert (R0 : 0 < r) by (eapply Qlt_le_trans; [apply (pow2_pos (-1000)) | exact Hlo]).
  assert (Rn : 2 ^ (-1022) <= r)
    by (eapply Qle_trans; [apply (pow2_le (-1022) (-1000)); lia | exact Hlo]).
  pose proof (binary64_relative_error r Rn) as Er.
  assert (Eps : 2 ^ (-51) == 4 * 2 ^ (-53)) by reflexivity.
  assert (E4 : 2 ^ (-53) <= 1 # 4) by (vm_compute; discriminate).
  pose proof (pow2_pos (-53)) as E0.
  set (eps := 2 ^ (-53)) in *.
  set (r' := Js.binary64 r) in *.
  apply Qabs_diff_Qle_condition in Er. destruct Er as [Er1 Er2].
  assert (Pe : 0 <= eps * r) by (apply Qmult_le_0_compat; Lqa.lra).
  assert (Q4 : eps * r <= (1 # 4) * r) by (apply Qmult_le_compat_r; Lqa.lra).
  assert (R'0 : 0 < r') by Lqa.lra.
  split; [exact R'0|]. split; [apply Qabs_diff_Qle_condition; split; assumption|].
  assert (NZr : ~ r == 0) by (intro Z; rewrite Z in R0; discriminate).
  assert (NZr' : ~ r' == 0) by (intro Z; rewrite Z in R'0; discriminate).
  set (q := W / r'). set (X := W / r).
  assert (Qr : q * r' == W) by (unfold q; field; exact NZr').
  assert (Xr : X * r == W) by (unfold X; field; exact NZr).
  assert (Q0 : 0 < q) by (apply Qlt_shift_div_l; [exact R'0 | Lqa.lra]).
  assert (X0 : 0 < X) by (apply Qlt_shift_div_l; [exact R0 | Lqa.lra]).
  assert (Qn : 2 ^ (-1022) <= q).
  { apply Qle_shift_div_l; [exact R'0|].
    assert (U : r' <= 2 ^ 1001).
    { assert (T : 2 ^ 1001 == 2 * 2 ^ 1000) by reflexivity. rewrite T. Lqa.lra. }
    assert (V : 2 ^ (-1022) * 2 ^ 1001 <= 1) by (vm_compute; discriminate).
    pose proof (pow2_pos (-1022)) as P.
    assert (M : 2 ^ (-1022) * r' <= 2 ^ (-1022) * 2 ^ 1001)
      by (apply (proj2 (Qmult_le_l _ _ _ P)); exact U).
    Lqa.lra. }
  pose proof (binary64_relative_error q Qn) as Eq.
  fold eps in Eq. unfold Js.fdiv. fold q. fold X.
  set (x := Js.binary64 q) in *.
  apply Qabs_diff_Qle_condition in Eq. destruct Eq as [Eq1 Eq2].
  rewrite Eps.
  apply Qabs_diff_Qle_condition.
  clearbody eps r' q X x.
  (* q between X / (1 + eps) and X / (1 - eps) *)
  assert (A1 : q * (r * (1 - eps)) <= X * r).
  { rewrite Xr, <- Qr. apply (proj2 (Qmult_le_l _ _ _ Q0)). Lqa.lra. }
  assert (A2 : X * r <= q * (r * (1 + eps))).
  { rewrite Xr, <- Qr. apply (proj2 (Qmult_le_l _ _ _ Q0)). Lqa.lra. }
  assert (B1 : q * (1 - eps) <= X).
  { apply (proj1 (Qmult_le_r _ _ r R0)). Lqa.lra. }
  assert (B2 : X <= q * (1 + eps)).
  { apply (proj1 (Qmult_le_r _ _ r R0)). Lqa.lra. }
  assert (Pq : 0 <= eps * q) by (apply Qmult_le_0_compat; Lqa.lra).
  assert (Px : 0 <= eps * X) by (apply Qmult_le_0_compat; Lqa.lra).
  assert (Qq : eps * q <= (1 # 4) * q) by (apply Qmult_le_compat_r; Lqa.lra).
  assert (C1 : eps * q <= 2 * (eps * X)).
  { assert (H : q <= 2 * X) by Lqa.lra.
    assert (H' : eps * q <= eps * (2 * X))
      by (apply (proj2 (Qmult_le_l _ _ _ E0)); exact H).
    Lqa.lra. }
  split; Lqa.lra.
Qed.

(** X10.  [computeOutputSize] gives a width between 320 and 1920 and a
    height of at least 320: the width is the video width when that lies in
    this range, 1920 when the video is wider or its width is unknown, and
    the height equals the width for the 1:1 preset.  The ratio it divides
    by is the binary64 rounding of a positive quotient [r] (that of the
    preset, or of the custom sides); for [r] between 2^-1000 and 2^1000 it
    is positive and within [r * 2^-53] of [r], and a height above the floor
    of 320 is within half a pixel plus [(w / r) * 2^-51] of [w / r].  Only
    the width is capped: for 9:16 a 1920 wide output is 3413 high. *)
Theorem computeOutputSize_bounds preset cw ch vw :
  let w := fst (App.computeOutputSize preset cw ch vw) in
  let h := snd (App.computeOutputSize preset cw ch vw) in
  let r := App.exactRatio preset cw ch in
  let ratio := App.aspectRatioValue preset cw ch in
  (320 <= w <= 1920)%Z /\ (320 <= h)%Z /\
  (forall v, vw = Some v -> (320 <= v <= 1920)%Z -> w = v) /\
  (forall v, vw = Some v -> (1920 <= v)%Z -> w = 1920%Z) /\
  (vw = None -> w = 1920%Z) /\
  (preset = App.P1_1 -> h = w) /\
  0 < r /\ ratio = Js.binary64 r /\
  (2 ^ (-1000) <= r -> r <= 2 ^ 1000 ->
   0 < ratio /\
   Qabs (ratio - r) <= 2 ^ (-53) * r /\
   ((320 < h)%Z ->
    Qabs (inject_Z h - inject_Z w / r)
    <= (1 # 2) + 2 ^ (-51) * (inject_Z w / r))).
Proof.
  intros w h r ratio.
  assert (Hw : (320 <= w <= 1920)%Z).
  { subst w. unfold App.computeOutputSize. cbn [fst]. split; [apply Z.le_max_l|].
    apply Z.max_lub; [lia|].
    rewrite <- (Math_round_Z 1920). apply Math_round_le. apply Q.le_min_l. }
  assert (Hh : h = Z.max 320 (Projection.Math_round (Js.fdiv (inject_Z w) ratio)))
    by reflexivity.
  split; [exact Hw|]. split; [apply Z.le_max_l|].
  split; [|split; [|split; [|split; [|split; [|split]]]]].
  - intros v -> Hv. subst w. unfold App.computeOutputSize. cbn [fst].
    destruct v as [|v|v]; try lia.
    rewrite (Math_round_comp _ (inject_Z (Z.pos v))), Math_round_Z; [lia|].
    apply Q.min_r. unfold Qle; simpl; lia.
  - intros v -> Hv. subst w. unfold App.computeOutputSize. cbn [fst].
    destruct v as [|v|v]; try lia.
    rewrite (Math_round_comp _ (inject_Z 1920)), Math_round_Z; [reflexivity|].
    apply Q.min_l. unfold Qle; simpl; lia.
  - intros ->. reflexivity.
  - intros P. rewrite Hh. unfold ratio. rewrite P.
    assert (One : App.aspectRatioValue App.P1_1 cw ch = 1)
      by (vm_compute; reflexivity).
    rewrite One. unfold Js.fdiv.
    assert (D : inject_Z w / 1 == inject_Z w) by (field).
    rewrite (binary64_comp _ _ D).
    rewrite (Math_round_comp _ (inject_Z w)), Math_round_Z; [lia|].
    apply binary64_Z. lia.
  - apply exactRatio_positive.
  - apply aspectRatioValue_rounds.
  - intros Hlo Hhi.
    assert (W1 : 1 <= inject_Z w)
      by (change 1 with (inject_Z 1); rewrite <- Zle_Qle; lia).
    destruct (quotient_error (inject_Z w) r W1 Hlo Hhi) as (P & Er & Eq).
    unfold ratio. rewrite aspectRatioValue_rounds. fold r.
    split; [exact P|]. split; [exact Er|].
    intros H320.
    assert (Hr : h = Projection.Math_round (Js.fdiv (inject_Z w) (Js.binary64 r))).
    { rewrite Hh in H320 |- *. unfold ratio in *.
      rewrite aspectRatioValue_rounds in *. fold r in H320 |- *. lia. }
    destruct (Math_round_bounds (Js.fdiv (inject_Z w) (Js.binary64 r))) as [M1 M2].
    rewrite <- Hr in M1, M2.
    apply Qabs_diff_Qle_condition in Eq. destruct Eq as [Eq1 Eq2].
    apply Qabs_diff_Qle_condition. split; Lqa.lra.
Qed.
(** X11.  The cover fit of the earlier export and previews draws the source
    so that it covers the whole canvas: the drawn rectangle starts at or
    before the canvas origin and ends at or after its far edges, and in one
    of the two dimensions it has exactly the size of the canvas. *)
Theorem coverFit_covers outW outH sW sH :
  (0 < sW)%Z -> (0 < sH)%Z ->
  let p := App.coverFit outW outH sW sH in
  (App.dx p <= 0 /\ outW <= App.dx p + App.dW p)%Z /\
  (App.dy p <= 0 /\ outH <= App.dy p + App.dH p)%Z /\
  (App.dW p = outW \/ App.dH p = outH).
Proof.
  intros HW HH p.
  assert (QW : 0 < inject_Z sW) by (unfold Qlt; simpl; lia).
  assert (QH : 0 < inject_Z sH) by (unfold Qlt; simpl; lia).
  set (a := inject_Z outW / inject_Z sW).
  set (b := inject_Z outH / inject_Z sH).
  assert (Ea : inject_Z sW * a == inject_Z outW) by (unfold a; field; Lqa.lra).
  assert (Eb : inject_Z sH * b == inject_Z outH) by (unfold b; field; Lqa.lra).
  assert (GW : (outW <= App.dW p)%Z).
  { subst p. unfold App.coverFit. cbn [App.dW]. fold a b.
    rewrite <- (Math_round_Z outW) at 1. apply Math_round_le.
    rewrite <- Ea. apply (proj2 (Qmult_le_l _ _ _ QW)). apply Q.le_max_l. }
  assert (GH : (outH <= App.dH p)%Z).
  { subst p. unfold App.coverFit. cbn [App.dH]. fold a b.
    rewrite <- (Math_round_Z outH) at 1. apply Math_round_le.
    rewrite <- Eb. apply (proj2 (Qmult_le_l _ _ _ QH)). apply Q.le_max_r. }
  assert (X : App.dx p = ((outW - App.dW p + 1) / 2)%Z)
    by (subst p; unfold App.coverFit; cbn [App.dx App.dW]; apply Math_round_half).
  assert (Y : App.dy p = ((outH - App.dH p + 1) / 2)%Z)
    by (subst p; unfold App.coverFit; cbn [App.dy App.dH]; apply Math_round_half).
  split; [rewrite X; split; Z.div_mod_to_equations; lia|].
  split; [rewrite Y; split; Z.div_mod_to_equations; lia|].
  subst p. unfold App.coverFit. cbn [App.dW App.dH]. fold a b.
  destruct (Qlt_le_dec a b) as [Hab | Hab].
  - right. rewrite (Math_round_comp _ (inject_Z outH)); [apply Math_round_Z|].
    rewrite Q.max_r by Lqa.lra. exact Eb.
  - left. rewrite (Math_round_comp _ (inject_Z outW)); [apply Math_round_Z|].
    rewrite Q.max_l by exact Hab. exact Ea.
Qed.

(** X12.  The thumbnail of the earlier [captureCurrentFrame] is never wider
    than 320 pixels and never enlarges the frame: its width is the smaller
    of the video width and 320, a video at most 320 wide keeps its size,
    and the height never exceeds the video height. *)
Theorem thumbnailSize_fits videoWidth videoHeight :
  (0 < videoWidth)%Z ->
  fst (App.thumbnailSize videoWidth videoHeight) = Z.min videoWidth 320 /\
  ((videoWidth <= 320)%Z -> snd (App.thumbnailSize videoWidth videoHeight) = videoHeight) /\
  ((0 <= videoHeight)%Z ->
   (0 <= snd (App.thumbnailSize videoWidth videoHeight) <= videoHeight)%Z).
Proof.
  intros HW. unfold App.thumbnailSize. cbn [fst snd].
  assert (QW : 0 < inject_Z videoWidth) by (unfold Qlt; simpl; lia).
  set (r := 320 / inject_Z videoWidth).
  assert (Er : inject_Z videoWidth * r == inject_Z 320) by (unfold r; field; Lqa.lra).
  assert (Hr : 0 < r) by (apply Qlt_shift_div_l; [exact QW | Lqa.lra]).
  assert (C : (videoWidth <= 320)%Z <-> 1 <= r).
  { split; intros H.
    - apply Qle_shift_div_l; [exact QW|]. rewrite Qmult_1_l.
      change 320 with (inject_Z 320). rewrite <- Zle_Qle. exact H.
    - assert (inject_Z videoWidth * 1 <= inject_Z videoWidth * r)
        by (apply (proj2 (Qmult_le_l _ _ _ QW)); assumption).
      rewrite Er in H0. rewrite Zle_Qle. Lqa.lra. }
  split; [|split].
  - destruct (Z_le_gt_dec videoWidth 320) as [Hle | Hgt].
    + rewrite Z.min_l by exact Hle.
      rewrite (Math_round_comp _ (inject_Z videoWidth)); [apply Math_round_Z|].
      rewrite Q.min_l by (apply C; exact Hle). ring.
    + rewrite Z.min_r by lia.
      rewrite (Math_round_comp _ (inject_Z 320)); [apply Math_round_Z|].
      rewrite Q.min_r; [exact Er|].
      destruct (Qlt_le_dec r 1) as [L | L]; [Lqa.lra|]. apply C in L. lia.
  - intros Hle.
    rewrite (Math_round_comp _ (inject_Z videoHeight)); [apply Math_round_Z|].
    rewrite Q.min_l by (apply C; exact Hle). ring.
  - intros HH.
    assert (QH : 0 <= inject_Z videoHeight) by (unfold Qle; simpl; lia).
    assert (S0 : 0 <= Qmin 1 r) by (apply Q.min_glb; Lqa.lra).
    assert (S1 : Qmin 1 r <= 1) by apply Q.le_min_l.
    split.
    + rewrite <- (Math_round_Z 0). apply Math_round_le.
      change (inject_Z 0) with 0. apply Qmult_le_0_compat; assumption.
    + rewrite <- (Math_round_Z videoHeight) at 2. apply Math_round_le.
      set (s := Qmin 1 r) in *. Lqa.nra.
Qed.
End Rounding.

Lemma computeOutputSize_bounds_witness :
  App.computeOutputSize App.Custom 6 17 (Some 333%Z) = (333, 943)%Z /\
  App.computeOutputSize App.P9_16 0 0 (Some 3840%Z) = (1920, 3413)%Z /\
  (Qabs (inject_Z 943 - inject_Z 333 / (6 / 17))
   <= (1 # 2) + 2 ^ (-51) * (inject_Z 333 / (6 / 17)))%Q /\
  snd (App.computeOutputSize App.P1_1 0 0 (Some 3840%Z)) =
  fst (App.computeOutputSize App.P1_1 0 0 (Some 3840%Z)).
Proof.
  pose proof (computeOutputSize_bounds App.Custom 6 17 (Some 333%Z)) as H.
  cbv zeta in H. destruct H as (_ & _ & _ & _ & _ & _ & _ & _ & H).
  destruct H as (_ & _ & H); [vm_compute; discriminate | vm_compute; discriminate|].
  pose proof (computeOutputSize_bounds App.P1_1 0 0 (Some 3840%Z)) as G.
  cbv zeta in G. destruct G as (_ & _ & _ & _ & _ & G & _).
  split; [vm_compute; reflexivity|]. split; [vm_compute; reflexivity|].
  split; [|apply G; reflexivity].
  assert (E : App.computeOutputSize App.Custom 6 17 (Some 333%Z) = (333, 943)%Z)
    by (vm_compute; reflexivity).
  rewrite E in H. apply H. reflexivity.
Defined.

Lemma coverFit_covers_witness :
  App.coverFit 1920 1080 1000 1000 = App.mkPlacement 0 (-420) 1920 1920 /\
  (App.dy (App.coverFit 1920 1080 1000 1000) <= 0 /\
   1080 <= App.dy (App.coverFit 1920 1080 1000 1000)
           + App.dH (App.coverFit 1920 1080 1000 1000))%Z.
Proof.
  pose proof (coverFit_covers 1920 1080 1000 1000 eq_refl eq_refl) as H.
  cbv zeta in H. destruct H as (_ & H & _).
  split; [reflexivity | exact H].
Defined.

Lemma thumbnailSize_fits_witness :
  App.thumbnailSize 3840 1920 = (320, 160)%Z /\
  fst (App.thumbnailSize 3840 1920) = Z.min 3840 320 /\
  snd (App.thumbnailSize 200 100) = 100%Z.
Proof.
  destruct (thumbnailSize_fits 3840 1920 eq_refl) as (H1 & _ & _).
  destruct (thumbnailSize_fits 200 100 eq_refl) as (_ & H2 & _).
  split; [reflexivity|]. split; [exact H1 | apply H2; lia].
Defined.

(** ** The preview throttle and the camera list *)

Lemma spaced_window gap last l t0 :
  (0 < gap)%Z -> App.spaced gap last l ->
  Forall (fun t => t0 <= t < t0 + gap)%Z l -> (List.length l <= 1)%nat.
Proof.
  intros Hg Hs Hf. destruct l as [|a [|b l]]; simpl; try lia.
  destruct Hs as (_ & Hab & _).
  inversion Hf as [|? ? Ha Hf']; subst. inversion Hf' as [|? ? Hb _]; subst. lia.
Qed.

Lemma previews_incl nows last : incl (App.previews nows last) nows.
Proof.
  revert last. induction nows as [|now rest IH]; intros last; simpl.
  - apply incl_refl.
  - unfold App.updateAnglePreview, App.PREVIEW_THROTTLE_MS.
    destruct (now - last <? 200)%Z.
    + apply incl_tl, IH.
    + apply incl_cons; [left; reflexivity | apply incl_tl, IH].
Qed.

(** X13.  Whatever the clock readings at which [updateAnglePreview] is
    called, two previews that go through are at least 200 ms apart (and the
    first at least 200 ms after the last tick): only calls made go through,
    so of the calls made within any window shorter than 200 ms - such as the
    one call per camera of a time update - at most one renders a preview;
    and a first call that comes 200 ms or more after the last tick does go
    through. *)
Theorem previews_throttled nows last :
  App.spaced App.PREVIEW_THROTTLE_MS last (App.previews nows last) /\
  incl (App.previews nows last) nows /\
  (forall t0, Forall (fun t => t0 <= t < t0 + App.PREVIEW_THROTTLE_MS)%Z nows ->
              (List.length (App.previews nows last) <= 1)%nat) /\
  (forall now rest, nows = now :: rest -> (last + App.PREVIEW_THROTTLE_MS <= now)%Z ->
                    exists l, App.previews nows last = now :: l).
Proof.
  assert (S : forall nows last,
             App.spaced App.PREVIEW_THROTTLE_MS last (App.previews nows last)).
  { clear. induction nows as [|now rest IH]; intros last; simpl; [exact I|].
    unfold App.updateAnglePreview.
    destruct (now - last <? App.PREVIEW_THROTTLE_MS)%Z eqn:E.
    - apply IH.
    - simpl. split; [apply Z.ltb_ge in E; lia | apply IH]. }
  split; [apply S|]. split; [apply previews_incl|]. split.
  - intros t0 Hf. apply (spaced_window App.PREVIEW_THROTTLE_MS last _ t0);
      [reflexivity | apply S|].
    rewrite Forall_forall in *. intros t Ht. apply Hf.
    apply (previews_incl nows last). exact Ht.
  - intros now rest -> Hnow. simpl. unfold App.updateAnglePreview.
    destruct (now - last <? App.PREVIEW_THROTTLE_MS)%Z eqn:E;
      [apply Z.ltb_lt in E; lia | eexists; reflexivity].
Qed.

Lemma previews_throttled_witness :
  App.previews [1000; 1100; 1250; 1300]%Z 0 = [1000; 1250]%Z /\
  (List.length (App.previews [1000; 1100; 1150]%Z 0) <= 1)%nat /\
  exists l, App.previews [1000; 1100; 1150]%Z 0 = 1000%Z :: l.
Proof.
  destruct (previews_throttled [1000; 1100; 1150]%Z 0) as (_ & _ & H3 & H4).
  split; [reflexivity|]. split.
  - apply (H3 1000%Z). unfold App.PREVIEW_THROTTLE_MS.
    repeat constructor; lia.
  - apply (H4 1000%Z [1100; 1150]%Z); [reflexivity|].
    unfold App.PREVIEW_THROTTLE_MS. lia.
Defined.

Lemma addCameraAngle_fresh time st :
  App.fresh_ids st -> App.fresh_ids (App.addCameraAngle time st).
Proof.
  intros [Hnd Hlt]. unfold App.fresh_ids, App.addCameraAngle. simpl. split.
  - rewrite map_app. simpl.
    rewrite <- (rev_involutive (map id (App.angles st) ++ [App.nextId st])).
    apply NoDup_rev. rewrite rev_app_distr. simpl. constructor.
    + rewrite <- in_rev. intros Hin. apply in_map_iff in Hin.
      destruct Hin as (cam & Hid & Hin).
      rewrite Forall_forall in Hlt. specialize (Hlt cam Hin). simpl in *. lia.
    + apply NoDup_rev. exact Hnd.
  - apply Forall_app. split.
    + eapply Forall_impl; [|exact Hlt]. simpl. intros; lia.
    + constructor; [simpl; lia | constructor].
Qed.

(** X14.  Adding cameras keeps their ids distinct: starting from a list
    whose ids are distinct and below [nextId] (the empty list the page
    opens with, or the one a newly loaded video resets to), any number of
    [addCameraAngle] calls gives a list with pairwise distinct ids, one
    camera longer per call, and [nextId] advanced once per call. *)
Theorem camera_ids_stay_distinct times st :
  App.fresh_ids st ->
  let st' := fold_left (fun s time => App.addCameraAngle time s) times st in
  App.fresh_ids st' /\
  List.length (App.angles st') = (List.length (App.angles st) + List.length times)%nat /\
  App.nextId st' = (App.nextId st + Z.of_nat (List.length times))%Z.
Proof.
  revert st. induction times as [|t rest IH]; intros st H; simpl.
  - repeat split; try apply H; lia.
  - destruct (IH _ (addCameraAngle_fresh t st H)) as (F & L & N).
    split; [exact F|]. split.
    + rewrite L. unfold App.addCameraAngle. simpl. rewrite List.length_app. simpl. lia.
    + rewrite N. unfold App.addCameraAngle. simpl. lia.
Qed.

Lemma camera_ids_stay_distinct_witness :
  App.fresh_ids (fold_left (fun s time => App.addCameraAngle time s)
                           [0; 3 # 2]%Q App.initial) /\
  map id (App.angles (fold_left (fun s time => App.addCameraAngle time s)
                                [0; 3 # 2]%Q App.initial)) = [1; 2]%Z.
Proof.
  pose proof (camera_ids_stay_distinct [0; 3 # 2]%Q App.initial
                (conj (NoDup_nil Z) (Forall_nil _))) as H.
  cbv zeta in H. destruct H as (H & _).
  split; [exact H | reflexivity].
Defined.

Lemma uint_word_chars d :
  Js.all_chars Js.word_char (NilEmpty.string_of_uint d) = true.
Proof. induction d; simpl; auto. Qed.

Lemma string_of_Z_word_chars z :
  Js.all_chars Js.word_char (Js.string_of_Z z) = true.
Proof.
  unfold Js.string_of_Z, NilZero.string_of_int, NilZero.string_of_uint.
  destruct (Z.to_int z) as [d | d]; destruct d; simpl; auto using uint_word_chars;
    try (rewrite uint_word_chars; reflexivity).
Qed.

Lemma default_safeLabel z :
  Js.replace_runs false ("Angle " ++ Js.string_of_Z z) =
  "Angle_" ++ Js.string_of_Z z.
Proof.
  change ("Angle " ++ Js.string_of_Z z)
    with ("Angle" ++ (" " ++ Js.string_of_Z z)).
  rewrite replace_runs_prefix by (reflexivity || discriminate).
  rewrite replace_runs_run; try reflexivity; try discriminate.
  - rewrite replace_runs_id by apply string_of_Z_word_chars. reflexivity.
  - pose proof (string_of_Z_word_chars z) as H.
    destruct (Js.string_of_Z z); simpl in *; [reflexivity|].
    apply andb_true_iff in H. apply H.
Qed.

(** X15.  The camera [addCameraAngle] appends carries the id [nextId] and
    the label 'Angle ' followed by that id.  Such a default label is
    exported as 'Angle_' followed by the id, so at one timestamp two
    cameras that still have their default labels never share a file name
    unless they share the id; two cameras given the same non-empty label do
    share it, whatever their ids. *)
Theorem default_labels_name_distinct_files :
  (forall time st,
      exists cam, App.angles (App.addCameraAngle time st) = (App.angles st ++ [cam])%list /\
                  id cam = App.nextId st /\
                  label cam = "Angle " ++ Js.string_of_Z (id cam)) /\
  (forall cam, label cam = "Angle " ++ Js.string_of_Z (id cam) ->
               ExportJob.safeLabel cam = "Angle_" ++ Js.string_of_Z (id cam)) /\
  (forall cam cam' ts,
      label cam = "Angle " ++ Js.string_of_Z (id cam) ->
      label cam' = "Angle " ++ Js.string_of_Z (id cam') ->
      ExportJob.fname cam ts = ExportJob.fname cam' ts -> id cam = id cam') /\
  (forall cam cam' ts,
      label cam = label cam' -> label cam <> EmptyString ->
      ExportJob.fname cam ts = ExportJob.fname cam' ts).
Proof.
  assert (L : forall cam, label cam = "Angle " ++ Js.string_of_Z (id cam) ->
               ExportJob.safeLabel cam = "Angle_" ++ Js.string_of_Z (id cam)).
  { intros cam H. unfold ExportJob.safeLabel. rewrite H, default_safeLabel.
    reflexivity. }
  split; [|split; [exact L | split]].
  - intros time st. eexists. split; [reflexivity|]. split; reflexivity.
  - intros cam cam' ts H H' E. unfold ExportJob.fname in E.
    rewrite (L cam H), (L cam' H') in E.
    apply append_inv_r in E. apply append_inv_l in E.
    apply string_of_Z_inj. exact E.
  - intros cam cam' ts E Hne. unfold ExportJob.fname, ExportJob.safeLabel.
    rewrite <- E. destruct (label cam) as [|c s]; [contradiction|].
    pose proof (replace_runs_nonempty c s) as N.
    destruct (Js.replace_runs false (String c s)); [contradiction | reflexivity].
Qed.

Lemma default_labels_name_distinct_files_witness :
  ExportJob.safeLabel Scenario.cam1 = "Angle_" ++ Js.string_of_Z 1 /\
  ExportJob.fname Scenario.cam1 (3 # 2) = "Angle_1_1_50.jpg" /\
  ExportJob.fname Scenario.spaced 0 =
  ExportJob.fname (mkCamera 4 "a  b" EmptyString 1 Scenario.left) 0.
Proof.
  destruct default_labels_name_distinct_files as (_ & H2 & _ & H4).
  split; [apply (H2 Scenario.cam1); reflexivity|].
  split; [reflexivity|].
  apply (H4 Scenario.spaced); [reflexivity | discriminate].
Defined.

(** ** The export loop *)

Lemma forCams_prefix flag ts cams done :
  let '(visited, done') := App.forCams flag ts cams done in
  visited = firstn (done' - done) (map (fun cam => (ts, cam)) cams) /\
  (done' = done + List.length visited)%nat /\
  (flag done' = false -> visited = map (fun cam => (ts, cam)) cams) /\
  (visited <> map (fun cam => (ts, cam)) cams -> flag done' = true).
Proof.
  revert done. induction cams as [|cam rest IH]; intros done; simpl.
  - rewrite Nat.sub_diag. repeat split; auto; try lia; try congruence.
  - destruct (flag done) eqn:F.
    + rewrite Nat.sub_diag. simpl. repeat split; auto; try lia; try congruence.
    + specialize (IH (S done)).
      destruct (App.forCams flag ts rest (S done)) as [visited done'].
      destruct IH as (P & D & A & B).
      assert (E : (done' - done = S (done' - S done))%nat) by lia.
      rewrite E. simpl. rewrite <- P.
      repeat split; try lia.
      * intros H. now rewrite (A H).
      * intros H. apply B. congruence.
Qed.

Lemma forTimes_stops flag times cams done :
  flag done = true -> App.forTimes flag times cams done = ([], done).
Proof. intros H. destruct times; simpl; [reflexivity | now rewrite H]. Qed.

Lemma forTimes_prefix flag times cams done :
  let '(visited, done') := App.forTimes flag times cams done in
  visited = firstn (done' - done) (ExportJob.cells times cams) /\
  (done' = done + List.length visited)%nat /\
  (flag done' = false -> visited = ExportJob.cells times cams).
Proof.
  revert done. induction times as [|ts rest IH]; intros done; simpl.
  - rewrite Nat.sub_diag. repeat split; auto; lia.
  - destruct (flag done) eqn:F.
    + rewrite Nat.sub_diag. simpl. repeat split; auto; try lia; try congruence.
    + pose proof (forCams_prefix flag ts cams done) as C.
      destruct (App.forCams flag ts cams done) as [v1 d1].
      destruct C as (P1 & D1 & A1 & B1).
      specialize (IH d1).
      destruct (App.forTimes flag rest cams d1) as [v2 d2] eqn:T.
      destruct IH as (P2 & D2 & A2).
      split; [|split].
      * destruct (flag d1) eqn:F1.
        -- rewrite (forTimes_stops _ _ _ _ F1) in T. injection T as <- <-.
           rewrite app_nil_r. rewrite P1 at 1.
           rewrite firstn_app.
           assert (Z0 : (d1 - done - List.length (map (fun cam => (ts, cam)) cams) = 0)%nat).
           { rewrite P1 in D1. rewrite length_firstn in D1. lia. }
           rewrite Z0. simpl. now rewrite app_nil_r.
        -- rewrite (A1 eq_refl) in *. unfold ExportJob.cells in *.
           assert (E : (d2 - done = List.length (map (fun cam => (ts, cam)) cams) + (d2 - d1))%nat) by lia.
           rewrite E, firstn_app_2. f_equal. exact P2.
      * rewrite length_app. lia.
      * intros H. rewrite (A2 H).
        destruct (flag d1) eqn:F1.
        -- rewrite (forTimes_stops _ _ _ _ F1) in T. injection T as <- <-. congruence.
        -- now rewrite (A1 eq_refl).
Qed.

Lemma cells_length times cams :
  List.length (ExportJob.cells times cams)
  = (List.length times * List.length cams)%nat.
Proof.
  unfold ExportJob.cells. induction times as [|t r IH]; simpl; [reflexivity|].
  rewrite length_app, length_map, IH. reflexivity.
Qed.

(** X16.  When cancel is requested during an export, the cells visited are
    an initial part of the full sequence of cells (timestamps outside,
    cameras inside), their number is the final [done], the archive is
    generated and downloaded only if every cell was visited, and an export
    that stopped short downloads nothing; without a cancel request every
    cell is visited and the archive is downloaded. *)
Theorem exportLoop_cancel flag times cams :
  let '(visited, done, download) := App.exportLoop flag times cams in
  visited = firstn done (ExportJob.cells times cams) /\
  done = List.length visited /\
  (done <= List.length times * List.length cams)%nat /\
  (download = true -> visited = ExportJob.cells times cams) /\
  (visited <> ExportJob.cells times cams -> download = false) /\
  ((forall k, flag k = false) ->
   visited = ExportJob.cells times cams /\ download = true).
Proof.
  unfold App.exportLoop.
  pose proof (forTimes_prefix flag times cams 0) as H.
  destruct (App.forTimes flag times cams 0) as [visited done].
  destruct H as (P & D & A). rewrite Nat.sub_0_r in P. simpl in D.
  pose proof (cells_length times cams) as Len.
  split; [exact P|]. split; [exact D|]. split.
  { rewrite D, P, length_firstn, Len. lia. }
  split; [|split].
  - intros H. apply A. now apply negb_true_iff.
  - intros H. destruct (flag done) eqn:F; [reflexivity|]. now elim H; apply A.
  - intros H. rewrite (H done). split; [now apply A | reflexivity].
Qed.

Lemma exportLoop_cancel_witness :
  App.exportLoop Cases.cancelled_in_second_cell [0; 1]%Q
                 [Scenario.cam1; Scenario.unnamed]
  = ([(0%Q, Scenario.cam1); (0%Q, Scenario.unnamed)], 2%nat, false) /\
  snd (App.exportLoop (fun _ => false) [0; 1]%Q [Scenario.cam1; Scenario.unnamed])
  = true.
Proof.
  split; [reflexivity|].
  pose proof (exportLoop_cancel (fun _ => false) [0; 1]%Q
                                [Scenario.cam1; Scenario.unnamed]) as H.
  destruct (App.exportLoop (fun _ => false) [0; 1]%Q
                           [Scenario.cam1; Scenario.unnamed]) as [[v d] dl].
  destruct H as (_ & _ & _ & _ & _ & H). apply H. reflexivity.
Defined.

Section Guards.
Open Scope Q_scope.

Lemma times_from_bounds fuel t d step :
  0 <= t -> 0 <= step -> 0 <= d ->
  Forall (fun x => 0 <= x /\ x <= d) (ExportJob.times_from fuel t d step).
Proof.
  revert t. induction fuel as [|fuel IH]; intros t Ht Hs Hd; simpl; [constructor|].
  destruct (Qle_bool t (Js.fadd d ExportJob.epsilon)); constructor.
  - split; [apply Q.min_glb; assumption | apply Q.le_min_r].
  - apply IH; [|exact Hs | exact Hd].
    unfold Js.fadd. apply binary64_nonneg. Lqa.lra.
Qed.

Lemma times_head d sps :
  0 < d -> exists t0 rest, ExportJob.times d sps = t0 :: rest /\ t0 == 0.
Proof.
  intros Hd. unfold ExportJob.times, ExportJob.iterations.
  destruct epsilon_bounds as [He _].
  rewrite Nat.add_comm. simpl.
  assert (B : Qle_bool 0 (Js.fadd d ExportJob.epsilon) = true).
  { apply Qle_bool_iff. unfold Js.fadd. apply binary64_nonneg. Lqa.lra. }
  rewrite B. eexists _, _. split; [reflexivity|].
  apply Q.min_l. Lqa.lra.
Qed.

(** X17.  [extractFrames] starts an export only with a provider and a video
    loaded, at least one camera and a finite positive duration, and reports
    an error otherwise.  An export it starts has one cell per timestamp and
    camera, begins with the first camera at time 0, and every cell has a
    timestamp between 0 and the duration and a camera of the list. *)
Theorem extractFrames_guards loaded videoDuration sps angles :
  match ExportJob.extractFrames loaded videoDuration sps angles with
  | inl _ =>
      loaded = false \/ angles = [] \/ videoDuration = None \/
      exists d, videoDuration = Some d /\ d <= 0
  | inr cells =>
      loaded = true /\
      exists d, videoDuration = Some d /\ 0 < d /\
        List.length cells =
          (List.length (ExportJob.times d sps) * List.length angles)%nat /\
        Forall (fun c => 0 <= fst c /\ fst c <= d /\ In (snd c) angles) cells /\
        exists t0 cam rest,
          cells = (t0, cam) :: rest /\ t0 == 0 /\ hd_error angles = Some cam
  end.
Proof.
  unfold ExportJob.extractFrames.
  destruct loaded; simpl; [|auto].
  destruct angles as [|cam cams]; [auto|].
  destruct videoDuration as [d|]; simpl; [|auto].
  destruct (Qle_bool d 0) eqn:E.
  - apply Qle_bool_iff in E. right; right; right. exists d. auto.
  - assert (Hd : 0 < d).
    { destruct (Qlt_le_dec 0 d) as [H | H]; [exact H|].
      apply Qle_bool_iff in H. congruence. }
    split; [reflexivity|]. exists d. split; [reflexivity|]. split; [exact Hd|].
    split; [apply cells_length|]. split.
    + apply Forall_forall. intros [ts c] Hin. unfold ExportJob.cells in Hin.
      apply in_flat_map in Hin. destruct Hin as (ts' & Hts & Hc).
      apply in_map_iff in Hc. destruct Hc as (c' & [= <- <-] & Hc). simpl.
      pose proof (times_from_bounds
                    (ExportJob.iterations d (ExportJob.step sps)) 0 d
                    (ExportJob.step sps)) as F.
      rewrite Forall_forall in F.
      destruct (F (Qle_refl 0) (step_nonneg sps)
                  (Qlt_le_weak _ _ Hd) ts' Hts) as [F1 F2].
      auto.
    + destruct (times_head d sps Hd) as (t0 & rest & -> & H0).
      exists t0, cam. eexists. split; [reflexivity|]. split; [exact H0 | reflexivity].
Qed.
End Guards.

(** ** Rotation and the pinhole camera *)

Section Turning.
Import Projection.
Open Scope R_scope.

Lemma toRad_plus a b : toRad (a + b) = toRad a + toRad b.
Proof. unfold toRad. field. Qed.

Lemma toRad_360 : toRad 360 = 2 * PI.
Proof. unfold toRad. field. Qed.

(** X18.  [rotateVec] keeps the length of the vector: the sum of the
    squares of its components is unchanged, whatever the three angles. *)
Theorem rotateVec_keeps_length vx vy vz yawDeg pitchDeg rollDeg :
  let v := rotateVec vx vy vz yawDeg pitchDeg rollDeg in
  x v * x v + y v * y v + z v * z v = vx * vx + vy * vy + vz * vz.
Proof.
  unfold rotateVec. cbn [x y z].
  pose proof (trig_one (toRad yawDeg)) as Hy.
  pose proof (trig_one (toRad pitchDeg)) as Hp.
  pose proof (trig_one (toRad rollDeg)) as Hr.
  set (cy := cos (toRad yawDeg)) in *. set (sy := sin (toRad yawDeg)) in *.
  set (cp := cos (toRad pitchDeg)) in *. set (sp := sin (toRad pitchDeg)) in *.
  set (cr := cos (toRad rollDeg)) in *. set (sr := sin (toRad rollDeg)) in *.
  set (X := vx * cy + vz * sy). set (Z := - vx * sy + vz * cy).
  set (Y2 := vy * cp - Z * sp). set (Z2 := vy * sp + Z * cp).
  transitivity ((X * X + Y2 * Y2) * (cr * cr + sr * sr) + Z2 * Z2); [ring|].
  rewrite Hr.
  transitivity (X * X + (vy * vy + Z * Z) * (cp * cp + sp * sp));
    [unfold Y2, Z2; ring|].
  rewrite Hp.
  transitivity ((vx * vx + vz * vz) * (cy * cy + sy * sy) + vy * vy);
    [unfold X, Z; ring|].
  rewrite Hy. ring.
Qed.

(** X19.  With pitch and roll at zero, turning by yaw [a] and then by yaw
    [b] is turning by [a + b]; so turning back by [-a] gives the vector one
    started from, and a yaw of [a + 360] degrees is the yaw [a]. *)
Theorem yaw_turns_add_up vx vy vz a b :
  let v := rotateVec vx vy vz a 0 0 in
  rotateVec (x v) (y v) (z v) b 0 0 = rotateVec vx vy vz (a + b) 0 0 /\
  rotateVec (x v) (y v) (z v) (- a) 0 0 = mkVec vx vy vz /\
  rotateVec vx vy vz (a + 360) 0 0 = v.
Proof.
  assert (A : forall vx vy vz a b,
             let v := rotateVec vx vy vz a 0 0 in
             rotateVec (x v) (y v) (z v) b 0 0 = rotateVec vx vy vz (a + b) 0 0).
  { clear. intros vx vy vz a b. unfold rotateVec. cbn [x y z].
    rewrite toRad_plus, toRad_0, cos_0, sin_0, cos_plus, sin_plus.
    f_equal; ring. }
  assert (Z : forall vx vy vz, rotateVec vx vy vz 0 0 0 = mkVec vx vy vz).
  { clear. intros. unfold rotateVec. rewrite toRad_0, cos_0, sin_0. f_equal; ring. }
  intros v. split; [apply A|]. split.
  - unfold v. rewrite A. replace (a + - a) with 0 by ring. apply Z.
  - unfold v, rotateVec. rewrite toRad_plus, toRad_360.
    rewrite cos_plus, sin_plus, cos_2PI, sin_2PI. f_equal; ring.
Qed.
End Turning.

Section Camera.
Import Projection.
Open Scope R_scope.

Lemma fov_range fovDeg : 0 < Pinhole.fov fovDeg / 2 < PI / 2.
Proof.
  unfold Pinhole.fov, toRad.
  assert (L : 1 <= Rmax 1 (Rmin 175 fovDeg)) by apply Rmax_l.
  assert (U : Rmax 1 (Rmin 175 fovDeg) <= 175)
    by (apply Rmax_lub; [lra | apply Rmin_l]).
  pose proof PI_RGT_0 as P.
  set (m := Rmax 1 (Rmin 175 fovDeg)) in *. split; nra.
Qed.

(** X20.  For a preview of positive width the focal length of
    [renderRectilinearPreview] is positive, whatever field of view is asked
    for (it is clamped to 1..175 degrees), and is half the width at the
    default 90 degrees; the camera ray of every pixel has length one and
    points forward, and the ray through the centre of the picture is the
    optical axis. *)
Theorem pinhole_rays i j outW outH fovDeg :
  0 < outW ->
  let r := Pinhole.ray i j outW outH fovDeg in
  0 < Pinhole.fx outW fovDeg /\
  x r * x r + y r * y r + z r * z r = 1 /\
  0 < z r /\
  (i + 0.5 = outW / 2 -> j + 0.5 = outH / 2 -> r = mkVec 0 0 1) /\
  Pinhole.fx outW 90 = outW / 2.
Proof.
  intros HW r.
  destruct (fov_range fovDeg) as [F0 F1].
  pose proof (tan_gt_0 _ F0 F1) as T.
  assert (FX : 0 < Pinhole.fx outW fovDeg).
  { unfold Pinhole.fx. apply Rdiv_lt_0_compat; [lra | exact T]. }
  split; [exact FX|].
  subst r. unfold Pinhole.ray. cbn [x y z].
  set (rx := (i + 0.5 - outW / 2) / Pinhole.fx outW fovDeg).
  set (ry := - (j + 0.5 - outH / 2) / Pinhole.fx outW fovDeg).
  set (n := rx * rx + ry * ry + 1 * 1).
  assert (N : 1 <= n) by (unfold n; nra).
  assert (S0 : 0 < sqrt n) by (apply sqrt_lt_R0; lra).
  assert (S2 : sqrt n * sqrt n = n) by (apply sqrt_sqrt; lra).
  split; [|split; [|split]].
  - transitivity (n * (1 / sqrt n * (1 / sqrt n))); [unfold n; ring|].
    replace (1 / sqrt n * (1 / sqrt n)) with (1 / (sqrt n * sqrt n))
      by (field; lra).
    rewrite S2. field. lra.
  - apply Rmult_lt_0_compat; [lra|]. apply Rdiv_lt_0_compat; lra.
  - intros Hi Hj. unfold n, rx, ry. rewrite Hi, Hj.
    replace (outW / 2 - outW / 2) with 0 by ring.
    replace (outH / 2 - outH / 2) with 0 by ring.
    replace (0 / Pinhole.fx outW fovDeg) with 0 by (field; lra).
    replace (- 0 / Pinhole.fx outW fovDeg) with 0 by (field; lra).
    replace (0 * 0 + 0 * 0 + 1 * 1) with 1 by ring.
    rewrite sqrt_1. f_equal; lra.
  - unfold Pinhole.fx, Pinhole.fov.
    assert (E : Rmax 1 (Rmin 175 90) = 90).
    { rewrite Rmin_right by lra. apply Rmax_right. lra. }
    rewrite E. unfold toRad.
    replace (90 * PI / 180 / 2) with (PI / 4) by field.
    rewrite tan_PI4. lra.
Qed.
End Camera.

Lemma pinhole_rays_witness :
  Pinhole.ray 119.5 67 240 135 90 = Projection.mkVec 0 0 1 /\
  Pinhole.fx 240 90 = (240 / 2)%R.
Proof.
  pose proof (pinhole_rays 119.5 67 240 135 90) as H. cbv zeta in H.
  destruct H as (_ & _ & _ & H & H'); [lra|].
  split; [apply H; lra | exact H'].
Defined.

(** ** Writing a sample *)

Section Pixels.
Import Projection.

Lemma set_nth_length out i b : List.length (set_nth out i b) = List.length out.
Proof.
  revert i. induction out as [|a out IH]; intros [|i]; simpl; auto.
Qed.

Lemma nth_error_set_nth out i b j :
  nth_error (set_nth out i b) j =
  if Nat.eqb j i then (if Nat.ltb i (List.length out) then Some b else None)
  else nth_error out j.
Proof.
  revert i j. induction out as [|a out IH]; intros i j.
  - simpl. destruct (Nat.eqb j i); destruct j; reflexivity.
  - destruct i as [|i], j as [|j]; simpl; auto.
Qed.

Lemma store_length out i x : List.length (store out i x) = List.length out.
Proof.
  unfold store. destruct (i <? 0)%Z; [reflexivity | apply set_nth_length].
Qed.

Lemma get_store_other out i x j : j <> i -> get (store out i x) j = get out j.
Proof.
  intros H. unfold store, get.
  destruct (j <? 0)%Z eqn:J; [reflexivity|].
  destruct (i <? 0)%Z eqn:I; [reflexivity|].
  rewrite nth_error_set_nth.
  apply Z.ltb_ge in J, I.
  destruct (Nat.eqb_spec (Z.to_nat j) (Z.to_nat i)) as [E|]; [|reflexivity].
  apply Z2Nat.inj in E; [contradiction | assumption | assumption].
Qed.

Lemma get_store_same out i x b :
  get (store out i x) i = Some b ->
  b = match x with Some z => Z.max 0 (Z.min 255 z) | None => 0%Z end.
Proof.
  unfold store, get. destruct (i <? 0)%Z; [discriminate|].
  rewrite nth_error_set_nth, Nat.eqb_refl.
  destruct (Nat.ltb _ _); congruence.
Qed.

(** X21.  [bilinearSample] writes one pixel and nothing else: the output
    array keeps its length, every entry outside [o .. o + 3] keeps its
    value, and the four entries written hold bytes. *)
Theorem bilinearSample_writes_one_pixel img u v out o :
  let out' := bilinearSample img u v out o in
  List.length out' = List.length out /\
  (forall i, (i < o \/ o + 3 < i)%Z -> get out' i = get out i) /\
  (forall c b, (0 <= c <= 3)%Z -> get out' (o + c) = Some b -> (0 <= b <= 255)%Z).
Proof.
  unfold bilinearSample. cbv zeta. cbn [fold_left].
  split; [now rewrite !store_length|]. split.
  - intros i Hi. rewrite !get_store_other by lia. reflexivity.
  - intros c b Hc H.
    assert (C : (c = 0 \/ c = 1 \/ c = 2 \/ c = 3)%Z) by lia.
    destruct C as [-> | [-> | [-> | ->]]].
    + rewrite !(get_store_other _ (o + 3)), !(get_store_other _ (o + 2)),
        !(get_store_other _ (o + 1)) in H by lia.
      apply get_store_same in H. subst b. destruct (blend _ _ _ _ _ _); lia.
    + rewrite !(get_store_other _ (o + 3)), !(get_store_other _ (o + 2)) in H by lia.
      apply get_store_same in H. subst b. destruct (blend _ _ _ _ _ _); lia.
    + rewrite !(get_store_other _ (o + 3)) in H by lia.
      apply get_store_same in H. subst b. destruct (blend _ _ _ _ _ _); lia.
    + apply get_store_same in H. subst b. destruct (blend _ _ _ _ _ _); lia.
Qed.

Open Scope Q_scope.

Lemma lerp_bounds (a b t lo hi : Q) :
  lo <= a -> a <= hi -> lo <= b -> b <= hi -> 0 <= t -> t <= 1 ->
  lo <= a + (b - a) * t /\ a + (b - a) * t <= hi.
Proof.
  intros. 
  assert (P1 : 0 <= (a - lo) * (1 - t)) by (apply Qmult_le_0_compat; Lqa.lra).
  assert (P2 : 0 <= (b - lo) * t) by (apply Qmult_le_0_compat; Lqa.lra).
  assert (P3 : 0 <= (hi - a) * (1 - t)) by (apply Qmult_le_0_compat; Lqa.lra).
  assert (P4 : 0 <= (hi - b) * t) by (apply Qmult_le_0_compat; Lqa.lra).
  split; Lqa.nra.
Qed.

Lemma blend_bounds (p00 p10 p01 p11 lo hi : Z) (dx dy : Q) :
  (lo <= p00 <= hi)%Z -> (lo <= p10 <= hi)%Z ->
  (lo <= p01 <= hi)%Z -> (lo <= p11 <= hi)%Z ->
  0 <= dx -> dx <= 1 -> 0 <= dy -> dy <= 1 ->
  exists r, blend (Some p00) (Some p10) (Some p01) (Some p11) dx dy = Some r /\
            (lo <= r <= hi)%Z.
Proof.
  intros H00 H10 H01 H11 X0 X1 Y0 Y1. unfold blend. eexists. split; [reflexivity|].
  rewrite !Zle_Qle in *. 
  destruct H00, H10, H01, H11.
  destruct (lerp_bounds (inject_Z p00) (inject_Z p10) dx (inject_Z lo) (inject_Z hi))
    as [A1 A2]; try assumption.
  destruct (lerp_bounds (inject_Z p01) (inject_Z p11) dx (inject_Z lo) (inject_Z hi))
    as [B1 B2]; try assumption.
  set (p0 := inject_Z p00 + (inject_Z p10 - inject_Z p00) * dx) in *.
  set (p1 := inject_Z p01 + (inject_Z p11 - inject_Z p01) * dx) in *.
  destruct (lerp_bounds p0 p1 dy (inject_Z lo) (inject_Z hi)) as [C1 C2];
    try assumption.
  rewrite <- !Zle_Qle.
  split.
  - apply Z.le_trans with (Math_round (inject_Z lo));
      [rewrite Math_round_Z; lia | now apply Math_round_le].
  - apply Z.le_trans with (Math_round (inject_Z hi));
      [now apply Math_round_le | rewrite Math_round_Z; lia].
Qed.

Lemma get_in_range (d : list Z) (i : Z) (P : Z -> Prop) :
  Forall P d -> (0 <= i < Z.of_nat (List.length d))%Z ->
  exists b, get d i = Some b /\ P b.
Proof.
  intros F Hi. unfold get.
  destruct (i <? 0)%Z eqn:E; [apply Z.ltb_lt in E; lia|].
  destruct (nth_error d (Z.to_nat i)) as [b|] eqn:N.
  - exists b. split; [reflexivity|].
    rewrite Forall_forall in F. apply F. eapply nth_error_In; eauto.
  - apply nth_error_None in N. lia.
Qed.

Lemma floor_in_range (t : Q) (n : Z) :
  0 <= t -> t <= 1 -> (0 <= n)%Z ->
  (0 <= Qfloor (t * inject_Z n) <= n)%Z.
Proof.
  intros T0 T1 Hn.
  assert (N : 0 <= inject_Z n) by (change 0 with (inject_Z 0); rewrite <- Zle_Qle; lia).
  split.
  - change 0%Z with (Qfloor 0). apply Qfloor_resp_le.
    apply Qmult_le_0_compat; assumption.
  - rewrite <- (Qfloor_Z n) at 2. apply Qfloor_resp_le.
    set (q := inject_Z n) in *. Lqa.nra.
Qed.

(** X22.  On an image of at least one pixel whose data holds four entries
    per pixel, [bilinearSample] reads inside the data only and interpolates
    between what it reads: when all entries of the image lie between [lo]
    and [hi] (themselves bytes), so does each of the four values written,
    for any coordinates [u] and [v].  In particular a picture of one colour
    is sampled as that colour everywhere. *)
Theorem bilinearSample_within_range img u v out o lo hi :
  (1 <= width img)%Z -> (1 <= height img)%Z ->
  Z.of_nat (List.length (data img)) = (4 * width img * height img)%Z ->
  Forall (fun b => lo <= b <= hi)%Z (data img) ->
  (0 <= lo)%Z -> (hi <= 255)%Z ->
  forall c b, (0 <= c <= 3)%Z ->
              get (bilinearSample img u v out o) (o + c) = Some b ->
              (lo <= b <= hi)%Z.
Proof.
  intros Hw Hh Hlen Hall Hlo Hhi c b Hc.
  unfold bilinearSample. cbv zeta.
  destruct (wrap_range u) as [U0 U1].
  destruct (clamp_range v) as [V0 V1].
  set (U := u - inject_Z (Qfloor u)) in *.
  set (V := Qmax 0 (Qmin 1 v)) in *.
  set (w := width img) in *. set (h := height img) in *.
  set (xq := U * inject_Z (w - 1)). set (yq := V * inject_Z (h - 1)).
  destruct (floor_in_range U (w - 1)) as [X0 X1]; [assumption | Lqa.lra | lia |].
  destruct (floor_in_range V (h - 1)) as [Y0 Y1]; [assumption | assumption | lia |].
  fold xq in X0, X1. fold yq in Y0, Y1.
  set (x0 := Qfloor xq) in *. set (y0 := Qfloor yq) in *.
  set (x1 := Z.min (x0 + 1) (w - 1)). set (y1 := Z.min (y0 + 1) (h - 1)).
  assert (DX : 0 <= xq - inject_Z x0 /\ xq - inject_Z x0 <= 1).
  { destruct (wrap_range xq). fold x0 in H, H0. split; Lqa.lra. }
  assert (DY : 0 <= yq - inject_Z y0 /\ yq - inject_Z y0 <= 1).
  { destruct (wrap_range yq). fold y0 in H, H0. split; Lqa.lra. }
  destruct DX as [DX0 DX1]. destruct DY as [DY0 DY1].
  assert (T : forall xx yy k, (0 <= xx <= w - 1)%Z -> (0 <= yy <= h - 1)%Z ->
                (0 <= k <= 3)%Z ->
                exists p, get (data img) ((yy * w + xx) * 4 + k) = Some p /\
                          (lo <= p <= hi)%Z).
  { intros xx yy k Hx Hy Hk.
    apply (get_in_range (data img) _ (fun p => lo <= p <= hi)%Z Hall).
    rewrite Hlen. nia. }
  assert (B : forall k, (0 <= k <= 3)%Z ->
     exists r,
       blend (get (data img) ((y0 * w + x0) * 4 + k))
             (get (data img) ((y0 * w + x1) * 4 + k))
             (get (data img) ((y1 * w + x0) * 4 + k))
             (get (data img) ((y1 * w + x1) * 4 + k))
             (xq - inject_Z x0) (yq - inject_Z y0) = Some r /\
       (lo <= r <= hi)%Z).
  { intros k Hk.
    destruct (T x0 y0 k) as (p00 & -> & ?); [lia | lia | lia |].
    destruct (T x1 y0 k) as (p10 & -> & ?); [unfold x1; lia | lia | lia |].
    destruct (T x0 y1 k) as (p01 & -> & ?); [lia | unfold y1; lia | lia |].
    destruct (T x1 y1 k) as (p11 & -> & ?); [unfold x1; lia | unfold y1; lia | lia |].
    apply blend_bounds; assumption. }
  cbn [fold_left]. intros H.
  assert (C : (c = 0 \/ c = 1 \/ c = 2 \/ c = 3)%Z) by lia.
  destruct C as [-> | [-> | [-> | ->]]].
  - rewrite !(get_store_other _ (o + 3)), !(get_store_other _ (o + 2)),
      !(get_store_other _ (o + 1)) in H by lia.
    apply get_store_same in H. destruct (B 0%Z) as (r & E & ?); [lia|].
    rewrite E in H.
    subst b. lia.
  - rewrite !(get_store_other _ (o + 3)), !(get_store_other _ (o + 2)) in H by lia.
    apply get_store_same in H. destruct (B 1%Z) as (r & E & ?); [lia|].
    rewrite E in H.
    subst b. lia.
  - rewrite !(get_store_other _ (o + 3)) in H by lia.
    apply get_store_same in H. destruct (B 2%Z) as (r & E & ?); [lia|].
    rewrite E in H.
    subst b. lia.
  - apply get_store_same in H. destruct (B 3%Z) as (r & E & ?); [lia|].
    rewrite E in H.
    subst b. lia.
Qed.
End Pixels.

Lemma bilinearSample_writes_one_pixel_witness :
  Projection.get
    (Projection.bilinearSample Scenario.checker (1 # 4) (1 # 4) Scenario.blank 1) 0
  = Some 9%Z /\
  Projection.get
    (Projection.bilinearSample Scenario.checker (1 # 4) (1 # 4) Scenario.blank 1) 5
  = Some 9%Z.
Proof.
  pose proof (bilinearSample_writes_one_pixel
                Scenario.checker (1 # 4) (1 # 4) Scenario.blank 1) as H.
  cbv zeta in H. destruct H as (_ & H & _).
  split.
  - exact (eq_trans (H 0%Z (or_introl eq_refl)) eq_refl).
  - exact (eq_trans (H 5%Z (or_intror eq_refl)) eq_refl).
Defined.

Lemma bilinearSample_within_range_witness :
  Projection.get
    (Projection.bilinearSample Cases.grey (1 # 3) (2 # 3) Scenario.blank 1) (1 + 2)
  = Some 128%Z /\
  (128 <= 128 <= 128)%Z.
Proof.
  split; [reflexivity|].
  refine (bilinearSample_within_range Cases.grey (1 # 3) (2 # 3) Scenario.blank 1
                                      128 128 _ _ _ _ _ _ 2 128 _ _);
    [unfold Cases.grey; cbn; lia | unfold Cases.grey; cbn; lia | reflexivity
    | unfold Cases.grey; cbn; repeat constructor; lia
    | lia | lia | lia | reflexivity].
Defined.
